(** * Relaxed-reachability kernel: FF heuristic and relaxation landmarks

    A shallow embedding of [ff_heuristic.cc] (class [FFHeuristic]) and of
    [landmarks/landmark_factory_relaxation.cc] (class
    [LandmarkFactoryRelaxation]), together with the parts of the planner
    they call into: the task model, the unary-operator compilation, the
    relaxed exploration and the landmark graph.

    The embedding comes first (outcomes of fallible code, the task model,
    the exploration engine, the heuristic, the landmark tests, example
    tasks), then the vocabulary of the statements, then the properties: the
    guarantees of every exploration run, the backward chaining of the
    relaxed plan, the value of an evaluation, and the exclusion sets and
    verdicts of the two landmark tests; then what the relaxed plan and the
    verdicts are worth (the facts derivable from the plan or without the
    excluded operators), the weight table, and the achievers. *)

From Stdlib Require Import ZArith Floats Ascii.
From stdpp Require Import gmap strings list sorting.

Set Default Proof Using "Type".

(** ** Outcomes of fallible code

    C++ code that indexes a vector out of range, trips an [assert], hits an
    undefined conversion or calls [exit] does not return a value.  Those
    paths are kept apart from normal returns. *)

Inductive failure : Type :=
| AssertionFailed     (* an [assert(...)] of the source does not hold *)
| OutOfBounds         (* [v[i]] with [i] outside of [v] *)
| OutOfFuel           (* recursion budget of the model exhausted *)
| ConversionUndefined (* double -> int conversion outside of int's range *)
| Unsupported.        (* [verify_no_conditional_effects] exits *)

Inductive outcome (A : Type) : Type :=
| Done (a : A)
| Abort (e : failure).
Arguments Done {A} a.
Arguments Abort {A} e.

#[global] Instance outcome_ret : MRet outcome := fun A a => Done a.
#[global] Instance outcome_bind : MBind outcome := fun A B f m =>
  match m with
  | Done a => f a
  | Abort e => Abort e
  end.

Definition at_index {A : Type} (l : list A) (i : nat) : outcome A :=
  match l !! i with
  | Some a => Done a
  | None => Abort OutOfBounds
  end.

(** A [for (x : xs)] loop whose body may fail, threading the loop state. *)
Fixpoint for_each {A S : Type} (body : S -> A -> outcome S) (xs : list A) (s : S)
  : outcome S :=
  match xs with
  | [] => Done s
  | x :: xs' => s' ← body s x; for_each body xs' s'
  end.

(** ** Machine integers *)

Definition INT_MAX : Z := 2147483647.
Definition INT_MIN : Z := -2147483648.

(** 32-bit two's complement wrap-around of [int] arithmetic. *)
Definition wrap_int (z : Z) : Z := ((z + 2147483648) mod 4294967296 - 2147483648)%Z.

(** Modelled from the spec: the dead-end sentinel (heuristic.h is not among
    the sources), "a sentinel value distinguishable from all finite
    estimates"; the planner's value is -1. *)
Definition DEAD_END : Z := (-1)%Z.

(** Modelled from the spec: the sentinel "no operator" of the first-achiever
    link (relaxation_heuristic.h is not among the sources); the planner's
    value is -1. *)
Definition NO_OP : Z := (-1)%Z.

(** ** Task model (read-only, supplied by the task proxy) *)

(** Modelled from the spec: the fact/operator model (task_proxy.h is not
    among the sources), section 3: a fact is "identified by (variable id,
    value)". *)
Record FactPair : Type := mkFact { var : nat; value : nat }.

#[global] Instance FactPair_eq_dec : EqDecision FactPair.
Proof. solve_decision. Defined.

(** Modelled from the spec: "each effect has a (possibly empty) condition
    set of facts and a single resulting fact". *)
Record Effect : Type := mkEffect {
  conditions : list FactPair;
  fact : FactPair }.

(** Modelled from the spec: an action "has a precondition set of facts, a
    cost (non-negative integer), and a list of effects", and a name; an axiom
    is "like an action but derives values of derived variables". *)
Record Operator : Type := mkOperator {
  name : string;
  op_cost : Z;
  preconditions : list FactPair;
  effects : list Effect }.

(** Modelled from the spec: the input task model, section 6: "variables
    with finite domains, facts, the initial state, the goal fact set,
    grounded actions, axioms".  [task_variables] holds the domain size of
    every variable. *)
Record Task : Type := mkTask {
  task_variables : list nat;
  task_operators : list Operator;
  task_axioms : list Operator;
  task_initial_state : list nat;
  task_goals : list FactPair }.

(** Modelled from the spec: "a state is a total assignment of one value per
    variable". *)
Definition State : Type := list nat.

(** Modelled from the spec: [task_proxy.get_operators()], every operator
    with its [get_id()], the index of the operator in the task. *)
Definition get_operators (task : Task) : list (nat * Operator) :=
  imap (fun i o => (i, o)) (task_operators task).

(** Well-formed tasks and states: every fact names a variable of the task
    and a value of its domain. *)
Definition fact_in_range (task : Task) (f : FactPair) : Prop :=
  exists d, task_variables task !! var f = Some d /\ value f < d.

Definition state_in_range (task : Task) (s : State) : Prop :=
  length s = length (task_variables task) /\
  forall v x d, s !! v = Some x -> task_variables task !! v = Some d -> x < d.

Definition operator_in_range (task : Task) (o : Operator) : Prop :=
  Forall (fact_in_range task) (preconditions o) /\
  Forall (fun e => fact_in_range task (fact e) /\
                   Forall (fact_in_range task) (conditions e)) (effects o).

Record task_ok (task : Task) : Prop := mkTaskOk {
  ok_operators : Forall (operator_in_range task) (task_operators task);
  ok_axioms : Forall (operator_in_range task) (task_axioms task);
  ok_initial : state_in_range task (task_initial_state task);
  ok_goals : Forall (fact_in_range task) (task_goals task) }.

(** Modelled from the spec: [task_properties::is_applicable(op, state)]
    (task_properties.cc is not among the sources): the action is "applicable
    in the real current state", each of its preconditions is true in it. *)
Definition is_applicable (o : Operator) (s : State) : bool :=
  forallb (fun f => bool_decide (s !! var f = Some (value f))) (preconditions o).

(** ** Unary-operator compilation *)

Abbreviation PropID := nat (only parsing).

(** Modelled from the spec: "UnaryRule (compiled artifact): {head fact,
    ordered list of precondition facts, base cost, owning action id or axiom
    sentinel}". *)
Record UnaryOperator : Type := mkUnary {
  uo_effect : PropID;
  uo_preconditions : list PropID;
  uo_base_cost : Z;
  uo_operator_no : Z }.

(** Modelled from the spec: the dense fact ids of the exploration context
    ([get_prop_id] of relaxation_heuristic.cc is not among the sources):
    "indexed by dense fact/rule ids assigned at task-compilation time".
    Facts are numbered variable by variable. *)
Definition prop_offset (doms : list nat) (v : nat) : nat := sum_list (take v doms).

(** Modelled from the spec: the dense id of a fact, see [prop_offset]. *)
Definition get_prop_id (task : Task) (f : FactPair) : PropID :=
  prop_offset (task_variables task) (var f) + value f.

(** Modelled from the spec: the number of dense fact ids. *)
Definition num_propositions (task : Task) : nat := sum_list (task_variables task).

(** Modelled from the spec: unary-operator compilation
    ([build_unary_operators] of relaxation_heuristic.cc is not among the
    sources): "precompiles each (action, effect) pair, and each axiom, into a
    unary rule (one fact head, a set of fact preconditions, a cost); axioms
    get cost 0", the owner being the "owning action id or axiom sentinel"
    (the sentinel is -1, as tested by [operator_no != -1] in the source). *)
Definition compile_effect (task : Task) (owner : Z) (base : Z) (o : Operator)
    (e : Effect) : UnaryOperator :=
  {| uo_effect := get_prop_id task (fact e);
     uo_preconditions :=
       remove_dups (map (get_prop_id task) (preconditions o ++ conditions e));
     uo_base_cost := base;
     uo_operator_no := owner |}.

(** Modelled from the spec: the compiled rules, those of the operators
    first, effect by effect, then those of the axioms; see
    [compile_effect]. *)
Definition build_unary_operators (task : Task) : list UnaryOperator :=
  concat (imap (fun i o => map (compile_effect task (Z.of_nat i) (op_cost o) o) (effects o))
               (task_operators task))
  ++ concat (map (fun a => map (compile_effect task (-1)%Z 0%Z a) (effects a))
                 (task_axioms task)).

(** ** Relaxed exploration engine *)

(** Modelled from the spec: "ExplorationNode (per fact, reset every
    exploration run): {cost-so-far (infinite initially, 0 if true in the seed
    state), first achieved by, a marked flag used during backward
    chaining}".  [cost = None] stands for an infinite cost: the fact has not
    been reached. *)
Record Proposition : Type := mkProp {
  cost : option Z;
  reached_by : Z;
  marked : bool }.

(** Modelled from the spec: the per-run state of the engine, the fact
    nodes, the "counter state per UnaryRule: number of not-yet-satisfied
    preconditions, accumulated cost of satisfied preconditions", and the
    worklist of (cost, fact) entries. *)
Record Frontier : Type := mkFrontier {
  fr_props : list Proposition;
  fr_counters : list (nat * Z);
  fr_queue : list (Z * PropID) }.

(** The definitions of this section are modelled from the spec, section
    4.1; the exploration of additive_heuristic.cc and of
    landmarks/exploration.cc is not among the sources. *)
Section Engine.
(** The immutable compiled rules and the exclusion sets of one run. *)
Variable rules : list UnaryOperator.
Variable excluded_props : list PropID.
Variable excluded_ops : gset Z.

(** Modelled from the spec: "a set of action/axiom ids to treat as disabled
    (their unary rules never fire)". *)
Definition rule_enabled (r : UnaryOperator) : bool :=
  negb (bool_decide (uo_operator_no r ∈ excluded_ops)).

(** Modelled from the spec: "a set of facts to treat as permanently
    false". *)
Definition prop_allowed (p : PropID) : bool :=
  negb (bool_decide (p ∈ excluded_props)).

(** Modelled from the spec: give a fact that is "not excluded and not yet
    reached" its cost and first achiever and "insert [it] into the worklist at
    that cost"; a fact that has been reached keeps both. *)
Definition reach (p : PropID) (c : Z) (by_op : Z) (e : Frontier) : Frontier :=
  if prop_allowed p then
    match fr_props e !! p with
    | Some (mkProp None _ m) =>
        {| fr_props := <[p := mkProp (Some c) by_op m]> (fr_props e);
           fr_counters := fr_counters e;
           fr_queue := fr_queue e ++ [(c, p)] |}
    | _ => e
    end
  else e.

(** Modelled from the spec: a rule whose counter is zero fires, "its head
    fact becomes reachable with cost = accumulated cost + base cost", unless
    the rule is excluded. *)
Definition fire (i : nat) (r : UnaryOperator) (acc : Z) (e : Frontier) : Frontier :=
  if rule_enabled r
  then reach (uo_effect r) (acc + uo_base_cost r)%Z (Z.of_nat i) e
  else e.

(** Modelled from the spec: fact [f] has been taken from the worklist at
    cost [c]; if rule [i] has it as a precondition, "decrement its counter
    and add c to its accumulated cost", and fire the rule "when the counter
    reaches 0". *)
Definition satisfy_rule (f : PropID) (c : Z) (i : nat) (r : UnaryOperator)
    (e : Frontier) : Frontier :=
  if bool_decide (f ∈ uo_preconditions r) then
    match fr_counters e !! i with
    | Some (S u, a) =>
        let e' := {| fr_props := fr_props e;
                     fr_counters := <[i := (u, (a + c)%Z)]> (fr_counters e);
                     fr_queue := fr_queue e |} in
        match u with
        | O => fire i r (a + c)%Z e'
        | S _ => e'
        end
    | _ => e
    end
  else e.

(** Modelled from the spec: "for every rule referencing f as a
    precondition", in the order of the rule table. *)
Fixpoint satisfy_from (f : PropID) (c : Z) (i : nat) (rs : list UnaryOperator)
    (e : Frontier) : Frontier :=
  match rs with
  | [] => e
  | r :: rs' => satisfy_from f c (S i) rs' (satisfy_rule f c i r e)
  end.

(** Modelled from the spec: "process facts in non-decreasing cost order";
    the entry of least cost is taken, the earliest one among equals. *)
Fixpoint pop_min (q : list (Z * PropID)) : option ((Z * PropID) * list (Z * PropID)) :=
  match q with
  | [] => None
  | x :: q' =>
      match pop_min q' with
      | None => Some (x, [])
      | Some (y, rest) =>
          if (x.1 <=? y.1)%Z then Some (x, q') else Some (y, x :: rest)
      end
  end.

(** Modelled from the spec: the worklist loop, at most [fuel] rounds. *)
Fixpoint relaxed_exploration (fuel : nat) (e : Frontier) : Frontier :=
  match fuel with
  | O => e
  | S fuel' =>
      match pop_min (fr_queue e) with
      | None => e
      | Some ((c, f), rest) =>
          relaxed_exploration fuel'
            (satisfy_from f c 0 rules
               {| fr_props := fr_props e;
                  fr_counters := fr_counters e;
                  fr_queue := rest |})
      end
  end.

(** Modelled from the spec: a rule without preconditions has its counter
    at zero from the start and fires during the reset. *)
Fixpoint fire_free_from (i : nat) (rs : list UnaryOperator) (e : Frontier) : Frontier :=
  match rs with
  | [] => e
  | r :: rs' =>
      fire_free_from (S i) rs'
        (match uo_preconditions r with
         | [] => fire i r 0%Z e
         | _ :: _ => e
         end)
  end.

(** Modelled from the spec: the reset of the per-run state, "every
    seed-state fact gets cost 0 and first achieved by = none; every unary
    rule's unsatisfied-precondition counter = |preconditions|, accumulated
    cost = 0". *)
Definition setup_exploration_queue (n : nat) (seeds : list PropID) : Frontier :=
  let e0 := {| fr_props := replicate n (mkProp None NO_OP false);
               fr_counters := map (fun r => (length (uo_preconditions r), 0%Z)) rules;
               fr_queue := [] |} in
  fire_free_from 0 rules (foldl (fun e p => reach p 0%Z NO_OP e) e0 seeds).

(** Modelled from the spec: the relaxed exploration engine (the exploration
    of additive_heuristic.cc and landmarks/exploration.cc is not among the
    sources), section 4.1: "Initialize: every seed-state fact gets cost 0
    and first achieved by = none; every unary rule's
    unsatisfied-precondition counter = |preconditions|, accumulated cost =
    0.  Process facts in non-decreasing cost order: for a popped fact f at
    cost c, for every rule referencing f as a precondition, decrement its
    counter and add c to its accumulated cost; when the counter reaches 0,
    and the rule is not excluded and its head fact is not excluded and not
    yet reached, set the head's cost to (accumulated cost + rule base cost)
    and its first-achiever to this rule, and insert the head into the
    worklist at that cost."  Excluded facts are "permanently false", also
    when the seed state holds them; a rule without preconditions has its
    counter at zero from the start and fires during the reset.  Every fact
    enters the worklist at most once, so [S n] rounds empty it. *)
Definition explore (n : nat) (seeds : list PropID) : list Proposition :=
  fr_props (relaxed_exploration (S n) (setup_exploration_queue n seeds)).
End Engine.

(** Modelled from the spec: the seed of a run, the fact ids of a state, one
    per variable. *)
Definition state_props (task : Task) (s : State) : list PropID :=
  imap (fun v x => get_prop_id task (mkFact v x)) s.

(** ** Doubles and strings of the learned-weight mode *)

(** Ceiling of a binary64 value as an integer; [None] for NaN and the
    infinities. *)
Definition ceil_spec (x : spec_float) : option Z :=
  match x with
  | S754_zero _ => Some 0%Z
  | S754_finite false m e =>
      Some (if (0 <=? e)%Z then Z.pos m * 2 ^ e else - ((- Z.pos m) / 2 ^ (- e)))%Z
  | S754_finite true m e =>
      Some (if (0 <=? e)%Z then - (Z.pos m * 2 ^ e) else - (Z.pos m / 2 ^ (- e)))%Z
  | S754_infinity _ => None
  | S754_nan => None
  end.

(** [return ceil(x);] from a function returning [int]: the conversion is
    defined only when the ceiling fits into an [int]. *)
Definition ceil_to_int (x : float) : option Z :=
  match ceil_spec (Prim2SF x) with
  | Some z => if ((INT_MIN <=? z) && (z <=? INT_MAX))%Z then Some z else None
  | None => None
  end.

(** [s.substr(0, s.find(" "))]: the text before the first blank, all of [s]
    when it has none ([find] returns [npos]). *)
Fixpoint up_to_blank (s : string) : string :=
  match s with
  | EmptyString => EmptyString
  | String c rest =>
      if Ascii.eqb c " "%char then EmptyString else String c (up_to_blank rest)
  end.

(** [m[k]] of a [std::map<string, double>]: a missing key is inserted with a
    value-initialised ([0.0]) entry. *)
Definition map_subscript (m : gmap string float) (k : string)
  : float * gmap string float :=
  match m !! k with
  | Some w => (w, m)
  | None => (0%float, <[k := 0%float]> m)
  end.

(** ** The FF heuristic ([ff_heuristic.cc]) *)

(** Modelled from the spec: the members of the heuristic object
    (ff_heuristic.h and the headers of its base classes are not among the
    sources), as the source uses them: the task, the proposition table of the
    relaxation heuristic, the relaxed-plan membership array, the preferred
    operators reported to the search, and the learned-weight configuration
    ("a boolean toggle for learned-weight mode" and the table "mapping an
    action-family key to a real-valued weight"). *)
Record FFHeuristic : Type := mkFF {
  ff_task : Task;
  propositions : list Proposition;
  relaxed_plan : list bool;
  preferred_operators : list nat;
  use_learned_weights : bool;
  op_weights : gmap string float }.

(** Assignments to one member of the object. *)
Definition with_propositions (h : FFHeuristic) (ps : list Proposition) : FFHeuristic :=
  mkFF (ff_task h) ps (relaxed_plan h) (preferred_operators h)
       (use_learned_weights h) (op_weights h).

Definition with_relaxed_plan (h : FFHeuristic) (rp : list bool) : FFHeuristic :=
  mkFF (ff_task h) (propositions h) rp (preferred_operators h)
       (use_learned_weights h) (op_weights h).

Definition with_preferred (h : FFHeuristic) (po : list nat) : FFHeuristic :=
  mkFF (ff_task h) (propositions h) (relaxed_plan h) po
       (use_learned_weights h) (op_weights h).

Definition with_op_weights (h : FFHeuristic) (w : gmap string float) : FFHeuristic :=
  mkFF (ff_task h) (propositions h) (relaxed_plan h) (preferred_operators h)
       (use_learned_weights h) w.

(** Modelled from the spec: the rule table of the object, "built once per
    task, immutable thereafter". *)
Definition unary_operators (h : FFHeuristic) : list UnaryOperator :=
  build_unary_operators (ff_task h).

(** Modelled from the spec: the ids of the goal facts. *)
Definition goal_propositions (h : FFHeuristic) : list PropID :=
  map (get_prop_id (ff_task h)) (task_goals (ff_task h)).

(** Modelled from the spec: [get_proposition(id)], the node of a fact
    (relaxation_heuristic.h is not among the sources). *)
Definition get_proposition (h : FFHeuristic) (id : PropID) : outcome Proposition :=
  at_index (propositions h) id.

(** [v[i]] for an [int] index. *)
Definition at_index_Z {A : Type} (l : list A) (i : Z) : outcome A :=
  if (i <? 0)%Z then Abort OutOfBounds else at_index l (Z.to_nat i).

(** Modelled from the spec: [get_operator(op_id)], the rule with a given id
    (relaxation_heuristic.h is not among the sources);
    [get_preconditions(op_id)] is [uo_preconditions] of that rule. *)
Definition get_operator (h : FFHeuristic) (op_id : Z) : outcome UnaryOperator :=
  at_index_Z (unary_operators h) op_id.

(** [goal->marked = true] *)
Definition set_marked (h : FFHeuristic) (id : PropID) : FFHeuristic :=
  with_propositions h
    (alter (fun p => mkProp (cost p) (reached_by p) true) id (propositions h)).

(** Modelled from the spec: [Heuristic::set_preferred] (heuristic.cc is not
    among the sources): the action is "flagged preferred" on the "out-of-band
    preferred actions list"; it joins the list unless it is on it. *)
Definition set_preferred (h : FFHeuristic) (operator_no : nat) : FFHeuristic :=
  if bool_decide (operator_no ∈ preferred_operators h) then h
  else with_preferred h (preferred_operators h ++ [operator_no]).

(** The loop of the constructor that fills the weight table from the two
    option lists: [op_weights[names[i]] = weights[i]]. *)
Definition fill_op_weights (names : list string) (weights : list float)
  : outcome (gmap string float) :=
  for_each (fun m i =>
              n ← at_index names i;
              w ← at_index weights i;
              Done (<[n := w]> m))
           (seq 0 (length names)) ∅.

(** The object as the member initialisers leave it:
    [relaxed_plan(task_proxy.get_operators().size(), false)], no proposition
    reached, no preferred operator. *)
Definition fresh_heuristic (task : Task) (learned : bool) (w : gmap string float)
  : FFHeuristic :=
  {| ff_task := task;
     propositions := replicate (num_propositions task) (mkProp None NO_OP false);
     relaxed_plan := replicate (length (task_operators task)) false;
     preferred_operators := [];
     use_learned_weights := learned;
     op_weights := w |}.

(** [FFHeuristic::FFHeuristic]: in learned-weight mode the two lists must be
    of equal length (the [assert]) and fill the table. *)
Definition FFHeuristic_new (task : Task) (learned : bool)
    (operator_names : list string) (operator_weights : list float)
  : outcome FFHeuristic :=
  if learned then
    if bool_decide (length operator_names = length operator_weights) then
      w ← fill_op_weights operator_names operator_weights;
      Done (fresh_heuristic task learned w)
    else Abort AssertionFailed
  else Done (fresh_heuristic task learned ∅).

(** [FFHeuristic::mark_preferred_operators_and_relaxed_plan].  The C++
    recursion is given a budget [fuel] for its depth; the budget that
    [compute_heuristic] grants is shown never to be used up. *)
Fixpoint mark_preferred_operators_and_relaxed_plan (fuel : nat) (h : FFHeuristic)
    (state : State) (goal_id : PropID) : outcome FFHeuristic :=
  match fuel with
  | O => Abort OutOfFuel
  | S fuel' =>
      goal ← get_proposition h goal_id;
      if marked goal then Done h
      else
        let h := set_marked h goal_id in
        let op_id := reached_by goal in
        if (op_id =? NO_OP)%Z then Done h
        else
          unary_op ← get_operator h op_id;
          '(h, is_preferred) ←
            for_each
              (fun (st : FFHeuristic * bool) precond =>
                 let '(h, is_preferred) := st in
                 h ← mark_preferred_operators_and_relaxed_plan fuel' h state precond;
                 p ← get_proposition h precond;
                 Done (h, if (reached_by p =? NO_OP)%Z then is_preferred else false))
              (uo_preconditions unary_op) (h, true);
          let operator_no := uo_operator_no unary_op in
          if (operator_no =? -1)%Z then Done h
          else
            _ ← at_index_Z (relaxed_plan h) operator_no;
            let h := with_relaxed_plan h
                       (<[Z.to_nat operator_no := true]> (relaxed_plan h)) in
            if is_preferred : bool then
              op ← at_index_Z (task_operators (ff_task h)) operator_no;
              if is_applicable op state
              then Done (set_preferred h (Z.to_nat operator_no))
              else Abort AssertionFailed
            else Done h
  end.

(** Modelled from the spec: [AdditiveHeuristic::compute_add_and_ff]
    (additive_heuristic.cc is not among the sources), section 4.2: "Run the
    Exploration Engine with the given state as seed, no exclusions.  If any
    goal fact is unreachable (cost infinite), report a dead-end.  Otherwise,
    sum over goal facts the additive cost estimate". *)
Definition compute_add_and_ff (h : FFHeuristic) (state : State) : FFHeuristic * Z :=
  let props := explore (unary_operators h) [] ∅ (num_propositions (ff_task h))
                 (state_props (ff_task h) state) in
  let goal_costs := map (fun g => props !! g ≫= cost) (goal_propositions h) in
  (with_propositions h props,
   if forallb (fun c => bool_decide (is_Some c)) goal_costs
   then foldr (fun c total => (default 0 c + total)%Z) 0%Z goal_costs
   else DEAD_END).

(** Modelled from the spec: [convert_ancestor_state] (heuristic.h is not
    among the sources); the heuristic is evaluated on "the given state": its
    task is the task of the search, and states need no conversion. *)
Definition convert_ancestor_state (ancestor_state : State) : State := ancestor_state.

(** Body of the loop over [relaxed_plan] in [compute_heuristic]; the loop
    state is the object, [h_ff] and [adj_h_ff]. *)
Definition tally (st : FFHeuristic * Z * float) (op_no : nat)
  : outcome (FFHeuristic * Z * float) :=
  let '(h, h_ff, adj_h_ff) := st in
  in_plan ← at_index (relaxed_plan h) op_no;
  if in_plan : bool then
    let h := with_relaxed_plan h (<[op_no := false]> (relaxed_plan h)) in
    op ← at_index (task_operators (ff_task h)) op_no;
    let h_ff := wrap_int (h_ff + op_cost op) in
    if use_learned_weights h then
      let op_type := up_to_blank (name op) in
      let '(w, m) := map_subscript (op_weights h) op_type in
      Done (with_op_weights h m, h_ff, (adj_h_ff + w)%float)
    else Done (h, h_ff, adj_h_ff)
  else Done (h, h_ff, adj_h_ff).

(** The loop [for (PropID goal_id : goal_propositions)] of
    [compute_heuristic]; the recursion budget of each chain exceeds the
    number of propositions. *)
Definition mark_goals (h : FFHeuristic) (state : State) : outcome FFHeuristic :=
  for_each
    (fun h goal_id =>
       mark_preferred_operators_and_relaxed_plan
         (S (length (propositions h))) h state goal_id)
    (goal_propositions h) h.

(** The loop [for (size_t op_no = 0; op_no < relaxed_plan.size(); ++op_no)]. *)
Definition tally_plan (h : FFHeuristic) : outcome (FFHeuristic * Z * float) :=
  for_each tally (seq 0 (length (relaxed_plan h))) (h, 0%Z, 0%float).

(** [FFHeuristic::compute_heuristic].  The counter [op_type_counts] of the
    source is never read or written and is left out. *)
Definition compute_heuristic (h : FFHeuristic) (ancestor_state : State)
  : outcome (FFHeuristic * Z) :=
  let state := convert_ancestor_state ancestor_state in
  let '(h, h_add) := compute_add_and_ff h state in
  if (h_add =? DEAD_END)%Z then Done (h, h_add)
  else
    h ← mark_goals h state;
    '(h, h_ff, adj_h_ff) ← tally_plan h;
    if use_learned_weights h then
      match ceil_to_int adj_h_ff with
      | Some v => Done (h, v)
      | None => Abort ConversionUndefined
      end
    else Done (h, h_ff).

(** The search evaluates one state after the other on the same object. *)
Definition evaluate_all (h : FFHeuristic) (states : list State) : outcome FFHeuristic :=
  for_each (fun h state => '(h, _) ← compute_heuristic h state; Done h) states h.

(** ** Reading the result of an evaluation *)

(** The operators whose relaxed-plan flag is set, in increasing order. *)
Definition plan_ops (rp : list bool) : list nat :=
  filter (fun i => rp !! i = Some true) (seq 0 (length rp)).

(** The relaxed plan of an evaluation: the operators flagged once the
    backward chains from all goals are done. *)
Definition relaxed_plan_of (h : FFHeuristic) (state : State) : list nat :=
  match mark_goals (compute_add_and_ff h state).1 state with
  | Done hm => plan_ops (relaxed_plan hm)
  | Abort _ => []
  end.

(** The learned weight of an operator: the entry of its family key, [0.0]
    when the table has none. *)
Definition weight_of (m : gmap string float) (o : Operator) : float :=
  default 0%float (m !! up_to_blank (name o)).

Definition operator_at (task : Task) (i : nat) : Operator :=
  default (mkOperator "" 0 [] []) (task_operators task !! i).

(** Sum of the learned weights of the given operators, accumulated from
    [0.0] in binary64, in the order of the list. *)
Definition weight_sum (task : Task) (m : gmap string float) (ops : list nat) : float :=
  foldl (fun acc i => (acc + weight_of m (operator_at task i))%float) 0%float ops.

(** Sum of the costs of the given operators in [int] arithmetic. *)
Definition cost_sum (task : Task) (ops : list nat) : Z :=
  foldl (fun acc i => wrap_int (acc + op_cost (operator_at task i))) 0%Z ops.

(** The value an evaluation returns, and the object it leaves behind. *)
Definition estimate (o : outcome (FFHeuristic * Z)) : outcome Z :=
  match o with
  | Done (_, v) => Done v
  | Abort e => Abort e
  end.


Definition outcome_map {A B : Type} (f : A -> B) (o : outcome A) : outcome B :=
  match o with
  | Done a => Done (f a)
  | Abort e => Abort e
  end.


(** ** Relaxation landmarks ([landmarks/landmark_factory_relaxation.cc]) *)

(** Modelled from the spec: a landmark (landmark.h is not among the
    sources), section 3: its facts, the kind flags, "flags {is_true_in_goal,
    is_derived}, and two accumulating sets: possible_achievers and
    first_achievers". *)
Record Landmark : Type := mkLandmark {
  facts : list FactPair;
  disjunctive : bool;
  conjunctive : bool;
  is_true_in_goal : bool;
  is_derived : bool;
  possible_achievers : gset Z;
  first_achievers : gset Z }.

(** Modelled from the spec: the exploration object of the landmark
    factories (landmarks/exploration.h is not among the sources): built for a
    task, it keeps the fact nodes of its latest run, "reset and recomputed on
    every exploration run". *)
Record Exploration : Type := mkExploration {
  ex_task : Task;
  ex_props : list Proposition }.

(** Modelled from the spec: [Exploration exploration(task_proxy, log)]. *)
Definition Exploration_new (task : Task) : Exploration :=
  {| ex_task := task;
     ex_props := replicate (num_propositions task) (mkProp None NO_OP false) |}.

(** [std::vector::resize(n, x)] *)
Definition resize {A : Type} (n : nat) (x : A) (l : list A) : list A :=
  take n l ++ replicate (n - length l) x.

(** [lvl_var.resize(variables.size())] followed by
    [lvl_var[var].resize(domain_size, numeric_limits<int>::max())] for every
    variable. *)
Definition resize_lvl_var (task : Task) (lvl_var : list (list Z)) : list (list Z) :=
  zip_with (fun d row => resize d INT_MAX row)
           (task_variables task)
           (resize (length (task_variables task)) [] lvl_var).

(** Modelled from the spec: [Exploration::compute_reachability_with_excludes]
    (landmarks/exploration.cc is not among the sources), sections 4.1 and
    4.5: "Run the Exploration Engine from the initial state with these
    exclusions; report ... the per-fact levels".  The level of every reached
    fact is written into [lvl_var]; the entry of an unreached fact is left as
    the caller initialised it. *)
Definition compute_reachability_with_excludes (exploration : Exploration)
    (lvl_var : list (list Z)) (excluded_props : list FactPair)
    (excluded_op_ids : gset Z) : Exploration * list (list Z) :=
  let task := ex_task exploration in
  let props := explore (build_unary_operators task)
                 (map (get_prop_id task) excluded_props) excluded_op_ids
                 (num_propositions task)
                 (state_props task (task_initial_state task)) in
  ({| ex_task := task; ex_props := props |},
   imap (fun v row =>
           imap (fun x old =>
                   default old (props !! get_prop_id task (mkFact v x) ≫= cost))
                row)
        lvl_var).

(** Modelled from the spec: [LandmarkFactory::is_landmark_precondition]
    (landmark_factory.cc is not among the sources), section 4.4: an action
    "that has any of the landmark's facts as a precondition". *)
Definition is_landmark_precondition (o : Operator) (landmark : Landmark) : bool :=
  existsb (fun pre => existsb (fun lm_fact => bool_decide (pre = lm_fact))
                              (facts landmark))
          (preconditions o).

(** The loop over the goals that ends both tests: [Some g] for the first
    goal whose level is [numeric_limits<int>::max()]. *)
Fixpoint first_goal_at_max (lvl_var : list (list Z)) (goals : list FactPair)
  : outcome (option FactPair) :=
  match goals with
  | [] => Done None
  | goal :: goals' =>
      row ← at_index lvl_var (var goal);
      lvl ← at_index row (value goal);
      if (lvl =? INT_MAX)%Z then Done (Some goal)
      else first_goal_at_max lvl_var goals'
  end.

(** The loop [for (OperatorProxy op : operators) if (test(op))
    exclude_op_ids.insert(op.get_id());] that fills an empty set. *)
Definition insert_op_ids_where (test : Operator -> bool) (ops : list (nat * Operator))
  : gset Z :=
  foldl (fun s '(id, op) => if test op then {[Z.of_nat id]} ∪ s else s) ∅ ops.

(** The operators the causal test excludes. *)
Definition causal_exclude_op_ids (task : Task) (landmark : Landmark) : gset Z :=
  insert_op_ids_where (fun op => is_landmark_precondition op landmark)
                      (get_operators task).

(** [LandmarkFactoryRelaxation::is_causal_landmark]. *)
Definition is_causal_landmark (task : Task) (exploration : Exploration)
    (landmark : Landmark) : outcome (bool * Exploration) :=
  if conjunctive landmark then Abort AssertionFailed
  else if is_true_in_goal landmark then Done (true, exploration)
  else
    let lvl_var := resize_lvl_var task [] in
    let exclude_op_ids : gset Z := causal_exclude_op_ids task landmark in
    let exclude_props : list FactPair := [] in
    let '(exploration, lvl_var) :=
      compute_reachability_with_excludes exploration lvl_var
        exclude_props exclude_op_ids in
    hit ← first_goal_at_max lvl_var (task_goals task);
    match hit with
    | Some _ => Done (true, exploration)
    | None => Done (false, exploration)
    end.

(** [LandmarkFactoryRelaxation::achieves_non_conditional]: the inner loop
    over the landmark facts, the outer loop over the effects. *)
Fixpoint achieves_non_conditional_facts (effect : Effect) (lm_facts : list FactPair)
  : bool :=
  match lm_facts with
  | [] => false
  | lm_fact :: rest =>
      if bool_decide (fact effect = lm_fact) && bool_decide (conditions effect = [])
      then true
      else achieves_non_conditional_facts effect rest
  end.

Fixpoint achieves_non_conditional_effects (effs : list Effect) (landmark : Landmark)
  : bool :=
  match effs with
  | [] => false
  | effect :: rest =>
      if achieves_non_conditional_facts effect (facts landmark) then true
      else achieves_non_conditional_effects rest landmark
  end.

Definition achieves_non_conditional (o : Operator) (landmark : Landmark) : bool :=
  achieves_non_conditional_effects (effects o) landmark.

(** [LandmarkFactoryRelaxation::relaxed_task_solvable] with [lvl_var]. *)
Definition relaxed_task_solvable (task : Task) (exploration : Exploration)
    (lvl_var : list (list Z)) (exclude : Landmark)
  : outcome (bool * list (list Z) * Exploration) :=
  let lvl_var := resize_lvl_var task lvl_var in
  let exclude_op_ids : gset Z :=
    insert_op_ids_where (fun op => achieves_non_conditional op exclude)
                        (get_operators task) in
  let exclude_props : list FactPair := [] ++ facts exclude in
  let '(exploration, lvl_var) :=
    compute_reachability_with_excludes exploration lvl_var
      exclude_props exclude_op_ids in
  hit ← first_goal_at_max lvl_var (task_goals task);
  match hit with
  | Some _ => Done (false, lvl_var, exploration)
  | None => Done (true, lvl_var, exploration)
  end.

(** The overload without [lvl_var] starts from an empty table. *)
Definition relaxed_task_solvable_3 (task : Task) (exploration : Exploration)
    (exclude : Landmark) : outcome (bool * Exploration) :=
  '(b, _, exploration) ← relaxed_task_solvable task exploration [] exclude;
  Done (b, exploration).

(** The causal test as section 4.4 of the specification words it, with
    "excluded facts = the landmark's own facts"; it is compared with
    [is_causal_landmark] below. *)
Definition is_causal_landmark_as_specified (task : Task) (exploration : Exploration)
    (landmark : Landmark) : outcome (bool * Exploration) :=
  if conjunctive landmark then Abort AssertionFailed
  else if is_true_in_goal landmark then Done (true, exploration)
  else
    let '(exploration, lvl_var) :=
      compute_reachability_with_excludes exploration (resize_lvl_var task [])
        (facts landmark) (causal_exclude_op_ids task landmark) in
    hit ← first_goal_at_max lvl_var (task_goals task);
    match hit with
    | Some _ => Done (true, exploration)
    | None => Done (false, exploration)
    end.

(** The level a table holds for a fact: [lvl_var[var][value]]. *)
Definition level_of (lvl_var : list (list Z)) (f : FactPair) : option Z :=
  lvl_var !! var f ≫= fun row => row !! value f.

(** The verdict of the causal test on the exploration object of a task. *)
Definition causal_verdict (task : Task) (landmark : Landmark) : bool :=
  match is_causal_landmark task (Exploration_new task) landmark with
  | Done (b, _) => b
  | Abort _ => false
  end.

(** *** The landmark graph *)

(** Modelled from the spec: the landmark graph (landmark_graph.h is not
    among the sources): "landmarks are nodes in a directed graph whose edges
    encode ordering constraints".  [node_key] stands for the address of a
    node, an edge is the pair of the keys of its ends. *)
Record LandmarkNode : Type := mkNode {
  node_key : nat;
  get_landmark : Landmark }.

(** Modelled from the spec: the graph, its nodes and ordering edges. *)
Record LandmarkGraph : Type := mkGraph {
  lg_nodes : list LandmarkNode;
  lg_edges : list (nat * nat) }.

(** Modelled from the spec: [lm_graph->get_num_landmarks()]. *)
Definition get_num_landmarks (g : LandmarkGraph) : nat := length (lg_nodes g).

(** Modelled from the spec: the nodes for which the condition, which may
    change the state it is given, does not hold, in their order. *)
Fixpoint keep_unless {S : Type} (cond : S -> LandmarkNode -> outcome (bool * S))
    (nodes : list LandmarkNode) (s : S) : outcome (list LandmarkNode * S) :=
  match nodes with
  | [] => Done ([], s)
  | node :: nodes' =>
      '(remove, s) ← cond s node;
      '(kept, s) ← keep_unless cond nodes' s;
      Done (if remove : bool then kept else node :: kept, s)
  end.

(** Modelled from the spec: [LandmarkGraph::remove_node_if] (landmark_graph.cc
    is not among the sources), section 4.4: landmarks "are discarded from the
    landmark graph entirely (node and all incident edges removed)".  Nodes are
    told apart by [node_key], which stands for the address of the node. *)
Definition remove_node_if {S : Type} (cond : S -> LandmarkNode -> outcome (bool * S))
    (g : LandmarkGraph) (s : S) : outcome (LandmarkGraph * S) :=
  '(kept, s) ← keep_unless cond (lg_nodes g) s;
  let keys := map node_key kept in
  Done ({| lg_nodes := kept;
           lg_edges := filter (fun e => e.1 ∈ keys /\ e.2 ∈ keys) (lg_edges g) |}, s).

(** Modelled from the spec: [task_properties::verify_no_conditional_effects]
    (task_properties.cc is not among the sources): the causal test "assumes
    no conditional effects are present in the task (fails fast otherwise)";
    the function exits when some operator has an effect with conditions. *)
Definition has_conditional_effects (task : Task) : bool :=
  existsb (fun o => existsb (fun e => negb (bool_decide (conditions e = []))) (effects o))
          (task_operators task).

(** Modelled from the spec: the log of the factory (utils/logging.h is not
    among the sources), its verbosity and the lines written so far. *)
Inductive LogLine : Type :=
| DiscardedNonCausal (count : Z).

(** Modelled from the spec: the log object. *)
Record Log : Type := mkLog {
  is_at_least_normal : bool;
  log_lines : list LogLine }.

(** [LandmarkFactoryRelaxation::discard_noncausal_landmarks]. *)
Definition discard_noncausal_landmarks (task : Task) (exploration : Exploration)
    (lm_graph : LandmarkGraph) (log : Log)
  : outcome (LandmarkGraph * Exploration * Log) :=
  if has_conditional_effects task then Abort Unsupported
  else
    let num_all_landmarks := Z.of_nat (get_num_landmarks lm_graph) in
    '(lm_graph, exploration) ←
      remove_node_if
        (fun exploration node =>
           '(causal, exploration) ←
             is_causal_landmark task exploration (get_landmark node);
           Done (negb causal, exploration))
        lm_graph exploration;
    let num_causal_landmarks := Z.of_nat (get_num_landmarks lm_graph) in
    let log :=
      if is_at_least_normal log
      then mkLog (is_at_least_normal log)
                 (log_lines log ++
                  [DiscardedNonCausal (num_all_landmarks - num_causal_landmarks)])
      else log in
    Done (lm_graph, exploration, log).

(** *** Achievers ([calc_achievers]) *)

(** [landmark.possible_achievers.insert(ops.begin(), ops.end())] *)
Definition add_possible_achievers (landmark : Landmark) (ops : list Z) : Landmark :=
  {| facts := facts landmark;
     disjunctive := disjunctive landmark;
     conjunctive := conjunctive landmark;
     is_true_in_goal := is_true_in_goal landmark;
     is_derived := is_derived landmark;
     possible_achievers := list_to_set ops ∪ possible_achievers landmark;
     first_achievers := first_achievers landmark |}.

(** [landmark.is_derived = true] *)
Definition set_is_derived (landmark : Landmark) : Landmark :=
  {| facts := facts landmark;
     disjunctive := disjunctive landmark;
     conjunctive := conjunctive landmark;
     is_true_in_goal := is_true_in_goal landmark;
     is_derived := true;
     possible_achievers := possible_achievers landmark;
     first_achievers := first_achievers landmark |}.

(** [landmark.first_achievers.insert(op_or_axom_id)] *)
Definition add_first_achiever (landmark : Landmark) (id : Z) : Landmark :=
  {| facts := facts landmark;
     disjunctive := disjunctive landmark;
     conjunctive := conjunctive landmark;
     is_true_in_goal := is_true_in_goal landmark;
     is_derived := is_derived landmark;
     possible_achievers := possible_achievers landmark;
     first_achievers := {[id]} ∪ first_achievers landmark |}.

(** Modelled from the spec: the members of an achiever set in the order of
    an iteration over it (landmark.h is not among the sources; ascending, as
    for a [std::set<int>]). *)
Definition ascending (s : gset Z) : list Z := merge_sort Z.le (elements s).

Section Achievers.
(** Modelled from the spec: the helpers of the base class that
    [calc_achievers] calls ([get_operators_including_eff],
    [get_operator_or_axiom] and [possibly_reaches_lm] of landmark_factory.cc)
    and the derived flag of a variable ([VariableProxy::is_derived]) are not
    among the sources, and section 4.5 leaves the achiever test open ("or an
    equivalent potential-achiever test"); they are parameters of the
    embedding of [calc_achievers]. *)
Variable get_operators_including_eff : FactPair -> list Z.
Variable get_operator_or_axiom : Task -> Z -> outcome Operator.
Variable possibly_reaches_lm : Operator -> list (list Z) -> Landmark -> bool.
Variable variable_is_derived : nat -> bool.

(** Body of the loop [for (const FactPair &lm_fact : landmark.facts)]. *)
Definition note_fact (task : Task) (landmark : Landmark) (lm_fact : FactPair)
  : outcome Landmark :=
  let ops := get_operators_including_eff lm_fact in
  let landmark := add_possible_achievers landmark ops in
  _ ← at_index (task_variables task) (var lm_fact);
  if variable_is_derived (var lm_fact)
  then Done (set_is_derived landmark)
  else Done landmark.

(** Body of the loop [for (int op_or_axom_id : landmark.possible_achievers)]. *)
Definition note_achiever (task : Task) (lvl_var : list (list Z))
    (landmark : Landmark) (op_or_axom_id : Z) : outcome Landmark :=
  op ← get_operator_or_axiom task op_or_axom_id;
  if possibly_reaches_lm op lvl_var landmark
  then Done (add_first_achiever landmark op_or_axom_id)
  else Done landmark.

(** Body of the loop [for (auto &lm_node : lm_graph->get_nodes())]; the
    nodes handled so far are collected in the loop state. *)
Definition calc_achievers_node (task : Task)
    (st : list LandmarkNode * Exploration) (lm_node : LandmarkNode)
  : outcome (list LandmarkNode * Exploration) :=
  let '(handled, exploration) := st in
  let landmark := get_landmark lm_node in
  landmark ← for_each (note_fact task) (facts landmark) landmark;
  let lvl_var : list (list Z) := [] in
  '(_, lvl_var, exploration) ←
    relaxed_task_solvable task exploration lvl_var landmark;
  landmark ← for_each (note_achiever task lvl_var)
                      (ascending (possible_achievers landmark)) landmark;
  Done (handled ++ [mkNode (node_key lm_node) landmark], exploration).

(** [LandmarkFactoryRelaxation::calc_achievers]; the factory's flag
    [achievers_calculated] is passed in and returned. *)
Definition calc_achievers (task : Task) (exploration : Exploration)
    (lm_graph : LandmarkGraph) (achievers_calculated : bool)
  : outcome (LandmarkGraph * Exploration * bool) :=
  if achievers_calculated then Abort AssertionFailed
  else
    '(nodes, exploration) ←
      for_each (calc_achievers_node task) (lg_nodes lm_graph) ([], exploration);
    Done ({| lg_nodes := nodes; lg_edges := lg_edges lm_graph |}, exploration, true).
End Achievers.

(** ** Example tasks *)

(** A gripper picks up a block and puts it down again: variable 0 is
    "holding a", variable 1 is "a has been moved". *)
Definition pick_up_a : Operator :=
  mkOperator "pick-up a" 1 [mkFact 0 0] [mkEffect [] (mkFact 0 1)].
Definition put_down_a : Operator :=
  mkOperator "put-down a" 1 [mkFact 0 1] [mkEffect [] (mkFact 1 1)].

Definition gripper_task : Task :=
  {| task_variables := [2; 2];
     task_operators := [pick_up_a; put_down_a];
     task_axioms := [];
     task_initial_state := [0; 0];
     task_goals := [mkFact 1 1] |}.

(** The heuristic objects for this task: with structural costs, with the
    learned weights 1.5 and 2.25, with weights that add up to -1, and with a
    table that has no entry for "put-down". *)
Definition gripper_structural : FFHeuristic :=
  fresh_heuristic gripper_task false ∅.

Definition gripper_learned : FFHeuristic :=
  fresh_heuristic gripper_task true
    (<["put-down" := 2.25%float]> (<["pick-up" := 1.5%float]> ∅)).

Definition gripper_negative : FFHeuristic :=
  fresh_heuristic gripper_task true
    (<["put-down" := (-1.25)%float]> (<["pick-up" := 0.25%float]> ∅)).

Definition gripper_partial : FFHeuristic :=
  fresh_heuristic gripper_task true (<["pick-up" := 1.5%float]> ∅).

(** The goal of this task needs a fact that no operator achieves. *)
Definition stuck_task : Task :=
  {| task_variables := [2; 2];
     task_operators := [put_down_a];
     task_axioms := [];
     task_initial_state := [0; 0];
     task_goals := [mkFact 1 1] |}.

(** Two operators that feed each other, and a proposition table whose
    first-achiever links run in a circle through them. *)
Definition circular_task : Task :=
  {| task_variables := [2; 2];
     task_operators :=
       [mkOperator "flip a" 1 [mkFact 0 1] [mkEffect [] (mkFact 1 1)];
        mkOperator "flop a" 1 [mkFact 1 1] [mkEffect [] (mkFact 0 1)]];
     task_axioms := [];
     task_initial_state := [0; 0];
     task_goals := [mkFact 1 1] |}.

Definition circular_heuristic : FFHeuristic :=
  {| ff_task := circular_task;
     propositions :=
       [mkProp (Some 0%Z) NO_OP false; mkProp (Some 1%Z) 1 false;
        mkProp (Some 0%Z) NO_OP false; mkProp (Some 1%Z) 0 false];
     relaxed_plan := [false; false];
     preferred_operators := [];
     use_learned_weights := false;
     op_weights := ∅ |}.

(** A derived goal: operator "make l" achieves the fact l = (0,1), and an
    axiom derives the goal d = (1,1) from l. *)
Definition derived_task : Task :=
  {| task_variables := [2; 2];
     task_operators := [mkOperator "make l" 1 [mkFact 0 0] [mkEffect [] (mkFact 0 1)]];
     task_axioms := [mkOperator "" 0 [] [mkEffect [mkFact 0 1] (mkFact 1 1)]];
     task_initial_state := [0; 0];
     task_goals := [mkFact 1 1] |}.

Definition simple_landmark (f : FactPair) : Landmark :=
  {| facts := [f]; disjunctive := false; conjunctive := false;
     is_true_in_goal := false; is_derived := false;
     possible_achievers := ∅; first_achievers := ∅ |}.

Definition goal_landmark (f : FactPair) : Landmark :=
  {| facts := [f]; disjunctive := false; conjunctive := false;
     is_true_in_goal := true; is_derived := false;
     possible_achievers := ∅; first_achievers := ∅ |}.

(** A landmark graph over the gripper task: "holding a" (node 0), the unused
    fact (1,0) (node 1) and the goal (node 2). *)
Definition gripper_graph : LandmarkGraph :=
  {| lg_nodes := [mkNode 0 (simple_landmark (mkFact 0 1));
                  mkNode 1 (simple_landmark (mkFact 1 0));
                  mkNode 2 (goal_landmark (mkFact 1 1))];
     lg_edges := [(0, 2); (1, 2); (0, 1)] |}.

(** * Specification vocabulary *)

(** ** Outcomes *)

(** What holds of an outcome: [P] of the value it returns, [E] of the
    failure it ends in. *)
Definition ensures {A : Type} (P : A -> Prop) (E : failure -> Prop) (o : outcome A) : Prop :=
  match o with
  | Done a => P a
  | Abort e => E e
  end.

(** ** Marking *)

Definition unmarked (ps : list Proposition) : nat :=
  length (filter (fun p => marked p = false) ps).

(** A proposition keeps its cost and first achiever; a mark is never taken
    back. *)
Definition same_node (p p' : Proposition) : Prop :=
  cost p' = cost p /\ reached_by p' = reached_by p /\
  (marked p = true -> marked p' = true).

(** How the heuristic object may differ after marking in [state]. *)
Record evolves (state : State) (h h' : FFHeuristic) : Prop := mkEvolves {
  ev_task : ff_task h' = ff_task h;
  ev_learned : use_learned_weights h' = use_learned_weights h;
  ev_weights : op_weights h' = op_weights h;
  ev_props : Forall2 same_node (propositions h) (propositions h');
  ev_plan : length (relaxed_plan h') = length (relaxed_plan h);
  ev_preferred :
    forall o, o ∈ preferred_operators h' ->
      o ∈ preferred_operators h \/
      exists op, task_operators (ff_task h) !! o = Some op /\
                 is_applicable op state = true }.

(** ** Guarantees of an exploration run *)

Definition reached (ps : list Proposition) (p : PropID) : Prop :=
  exists n, ps !! p = Some n /\ is_Some (cost n).

(** The work a run has left: the entries on the worklist and the facts
    that may still enter it. *)
Definition unreached_count (ps : list Proposition) : nat :=
  length (filter (fun p => cost p = None) ps).

Definition work_left (e : Frontier) : nat :=
  length (fr_queue e) + unreached_count (fr_props e).

(** No negative number among the costs of a run. *)
Definition costs_nonneg (e : Frontier) : Prop :=
  Forall (fun p => forall c, cost p = Some c -> (0 <= c)%Z) (fr_props e) /\
  Forall (fun ua : nat * Z => (0 <= ua.2)%Z) (fr_counters e) /\
  Forall (fun cf : Z * PropID => (0 <= cf.1)%Z) (fr_queue e).

Section EngineVocabulary.
Variable rules : list UnaryOperator.
Variable seeds : list PropID.

(** Facts about the nodes alone: a reached fact without achiever is a seed,
    and an achiever is a rule all of whose preconditions are reached. *)
Record props_inv (ps : list Proposition) : Prop := mkPropsInv {
  inv_seeded :
    forall p n, ps !! p = Some n -> is_Some (cost n) -> reached_by n = NO_OP ->
                p ∈ seeds;
  inv_achiever :
    forall p n, ps !! p = Some n -> reached_by n <> NO_OP ->
      exists i r, reached_by n = Z.of_nat i /\ rules !! i = Some r /\
                  Forall (reached ps) (uo_preconditions r) }.

(** [done] lists the facts taken from the worklist so far: no fact is
    queued twice or queued after it has been taken, and all of them are
    reached. *)
Record queue_inv (done : list PropID) (e : Frontier) : Prop := mkQueueInv {
  inv_nodup : NoDup ((fr_queue e).*2 ++ done);
  inv_reached : forall p, p ∈ (fr_queue e).*2 ++ done -> reached (fr_props e) p }.

(** The counter of a rule is at least the number of its preconditions that
    have not been taken from the worklist ([sel j] for rule [j]). *)
Definition counters_ok (sel : nat -> list PropID) (cs : list (nat * Z)) : Prop :=
  forall j r, rules !! j = Some r ->
    exists u a, cs !! j = Some (u, a) /\
                length (filter (fun q => q ∉ sel j) (uo_preconditions r)) <= u.

Definition engine_inv (done : list PropID) (e : Frontier) : Prop :=
  props_inv (fr_props e) /\ queue_inv done e /\
  counters_ok (fun _ => done) (fr_counters e).

(** While fact [f] is being processed, the rules below index [k] have
    counted it and the others have not. *)
Definition sel_upto (k : nat) (f : PropID) (done : list PropID) (j : nat)
  : list PropID :=
  if decide (j < k) then f :: done else done.

End EngineVocabulary.

(** ** Evaluations *)

(** Sum of the costs of the given operators as a number. *)
Definition cost_total (task : Task) (ops : list nat) : Z :=
  foldr (fun i total => (op_cost (operator_at task i) + total)%Z) 0%Z ops.

(** Operator costs are not negative, and the costs of all operators
    together fit into an [int]. *)
Definition costs_fit (task : Task) : Prop :=
  Forall (fun o => (0 <= op_cost o)%Z) (task_operators task) /\
  (cost_total task (seq 0 (length (task_operators task))) <= INT_MAX)%Z.

(** The object is ready for marking in [state]: its table satisfies the
    guarantees of an exploration run seeded with [state], and the
    relaxed-plan array has one entry per operator. *)
Record ready (state : State) (h : FFHeuristic) : Prop := mkReady {
  rd_props : props_inv (unary_operators h) (state_props (ff_task h) state)
                       (propositions h);
  rd_plan : length (relaxed_plan h) = length (task_operators (ff_task h)) }.

(** What the loop over [relaxed_plan] has done once it has handled the
    operators [pre], started on the object [h0]. *)
Record tallied (h0 : FFHeuristic) (pre : list nat) (st : FFHeuristic * Z * float)
  : Prop := mkTallied {
  tl_task : ff_task st.1.1 = ff_task h0;
  tl_props : propositions st.1.1 = propositions h0;
  tl_pref : preferred_operators st.1.1 = preferred_operators h0;
  tl_learned : use_learned_weights st.1.1 = use_learned_weights h0;
  tl_len : length (relaxed_plan st.1.1) = length (relaxed_plan h0);
  tl_cleared : forall i, i ∈ pre -> i < length (relaxed_plan h0) ->
                         relaxed_plan st.1.1 !! i = Some false;
  tl_rest : forall i, i ∉ pre -> relaxed_plan st.1.1 !! i = relaxed_plan h0 !! i;
  tl_weights : forall k, default 0%float (op_weights st.1.1 !! k)
                         = default 0%float (op_weights h0 !! k);
  tl_weights_off : use_learned_weights h0 = false -> op_weights st.1.1 = op_weights h0;
  tl_cost : st.1.2 = cost_sum (ff_task h0)
                       (filter (fun i => relaxed_plan h0 !! i = Some true) pre);
  tl_adj : st.2 = if use_learned_weights h0
                  then weight_sum (ff_task h0) (op_weights h0)
                         (filter (fun i => relaxed_plan h0 !! i = Some true) pre)
                  else 0%float }.


(** ** What a backward chain does to the relaxed plan *)

Definition marked_at (ps : list Proposition) (p : PropID) : Prop :=
  exists nd, ps !! p = Some nd /\ marked nd = true.

(** Operator [o] is in the relaxed-plan array. *)
Definition flagged (h : FFHeuristic) (o : nat) : Prop :=
  relaxed_plan h !! o = Some true.

(** Operator [o] owns the rule that first achieved proposition [p]. *)
Definition achieved_by (h : FFHeuristic) (p : PropID) (o : nat) : Prop :=
  exists nd r, propositions h !! p = Some nd /\ (0 <= reached_by nd)%Z /\
               unary_operators h !! Z.to_nat (reached_by nd) = Some r /\
               uo_operator_no r = Z.of_nat o.

(** From [h] to [h']: flags are only set, and only for the owner of the
    first achiever of a proposition that got its mark on the way; an operator
    that became preferred is flagged. *)
Record chain_effect (h h' : FFHeuristic) : Prop := mkChainEffect {
  ce_flag_kept : forall o, flagged h o -> flagged h' o;
  ce_flag_new :
    forall o, flagged h' o ->
      flagged h o \/
      exists p, ~ marked_at (propositions h) p /\ marked_at (propositions h') p /\
                achieved_by h p o;
  ce_pref_kept : forall o, o ∈ preferred_operators h -> o ∈ preferred_operators h';
  ce_pref_new :
    forall o, o ∈ preferred_operators h' -> o ∈ preferred_operators h \/ flagged h' o }.

(** Proposition [p], once marked, is justified inside the object: it has no
    achiever, or every precondition of its achiever is marked and the
    operator that owns the achiever, if there is one, is flagged. *)
Definition closed_at (h : FFHeuristic) (p : PropID) : Prop :=
  forall nd, propositions h !! p = Some nd -> marked nd = true ->
    reached_by nd = NO_OP \/
    exists r, (0 <= reached_by nd)%Z /\
      unary_operators h !! Z.to_nat (reached_by nd) = Some r /\
      (forall q, q ∈ uo_preconditions r -> marked_at (propositions h) q) /\
      (uo_operator_no r <> (-1)%Z ->
       (0 <= uo_operator_no r)%Z /\ flagged h (Z.to_nat (uo_operator_no r))).

(** All propositions but those of [open] (the ones whose chain is still
    running) are justified. *)
Definition closed_except (open : list PropID) (h : FFHeuristic) : Prop :=
  forall p, p ∉ open -> closed_at h p.

(** ** What an exploration run never does *)

Section Backing.
Variable rules : list UnaryOperator.
Variable excluded_props : list PropID.
Variable excluded_ops : gset Z.
Variable seeds : list PropID.

(** The table backs proposition [p]: [p] is reached and not excluded, and
    it is a seed without achiever, or the head of its achiever, an enabled
    rule whose preconditions the table backs as well.  The links of backed
    propositions do not run in circles. *)
Inductive backed (ps : list Proposition) : PropID -> Prop :=
| backed_seed p nd :
    ps !! p = Some nd -> is_Some (cost nd) -> reached_by nd = NO_OP ->
    prop_allowed excluded_props p = true -> p ∈ seeds ->
    backed ps p
| backed_rule p nd i r :
    ps !! p = Some nd -> is_Some (cost nd) -> reached_by nd = Z.of_nat i ->
    prop_allowed excluded_props p = true ->
    rules !! i = Some r -> uo_effect r = p -> rule_enabled excluded_ops r = true ->
    (forall q, q ∈ uo_preconditions r -> backed ps q) ->
    backed ps p.

Definition all_backed (ps : list Proposition) : Prop :=
  forall p, reached ps p -> backed ps p.

(** Proposition [p] can be derived from the seeds by rules whose owner is
    [allowed]. *)
Inductive derivable (allowed : Z -> Prop) : PropID -> Prop :=
| derivable_seed p : p ∈ seeds -> derivable allowed p
| derivable_rule p r :
    r ∈ rules -> uo_effect r = p -> allowed (uo_operator_no r) ->
    (forall q, q ∈ uo_preconditions r -> derivable allowed q) ->
    derivable allowed p.
End Backing.

(** No proposition carries a mark. *)
Definition marks_clear (ps : list Proposition) : Prop :=
  Forall (fun nd => marked nd = false) ps.

(** ** Comparing evaluations *)

(** The family key of operator [i]: its name up to the first blank. *)
Definition family (task : Task) (i : nat) : string :=
  up_to_blank (name (operator_at task i)).

(** Two runs end alike: both return, with results related by [R], or both
    end in the same failure. *)
Definition rel_outcome {A B : Type} (R : A -> B -> Prop)
    (o : outcome A) (o' : outcome B) : Prop :=
  match o, o' with
  | Done a, Done b => R a b
  | Abort e, Abort e' => e = e'
  | _, _ => False
  end.

(** Two objects that differ at most in the proposition table, in the
    preferred operators and in weight-table entries equal to [0.0]. *)
Record similar (h h' : FFHeuristic) : Prop := mkSimilar {
  sm_task : ff_task h' = ff_task h;
  sm_plan : relaxed_plan h' = relaxed_plan h;
  sm_learned : use_learned_weights h' = use_learned_weights h;
  sm_weights : forall k, default 0%float (op_weights h' !! k)
                         = default 0%float (op_weights h !! k) }.

Definition alike (h h' : FFHeuristic) : Prop :=
  similar h h' /\ propositions h' = propositions h.

(** The weight table after a learned-weight tally of the operators [ops],
    started on the table [m]. *)
Definition table_after (task : Task) (m : gmap string float) (ops : list nat)
    (k : string) : option float :=
  match m !! k with
  | Some w => Some w
  | None => if bool_decide (k ∈ map (family task) ops) then Some 0%float else None
  end.

(** ** Achievers *)

(** What [calc_achievers] may change in a landmark: it keeps the facts and
    the kind flags, raises [is_derived] when a fact belongs to a derived
    variable, adds to the possible achievers the operators that include a
    fact of the landmark, keeps the first achievers it finds, and adds to
    them only possible achievers that [possibly_reaches_lm] accepts with the
    level table of a solvability test for a landmark of the same facts. *)
Record achievers_added
    (get_operators_including_eff : FactPair -> list Z)
    (get_operator_or_axiom : Task -> Z -> outcome Operator)
    (possibly_reaches_lm : Operator -> list (list Z) -> Landmark -> bool)
    (variable_is_derived : nat -> bool)
    (task : Task) (lm lm' : Landmark) : Prop := mkAchieversAdded {
  aa_facts : facts lm' = facts lm;
  aa_disjunctive : disjunctive lm' = disjunctive lm;
  aa_conjunctive : conjunctive lm' = conjunctive lm;
  aa_goal : is_true_in_goal lm' = is_true_in_goal lm;
  aa_derived :
    is_derived lm'
    = is_derived lm || existsb (fun f => variable_is_derived (var f)) (facts lm);
  aa_possible :
    forall z, z ∈ possible_achievers lm' <->
              z ∈ possible_achievers lm \/
              exists f, f ∈ facts lm /\ z ∈ get_operators_including_eff f;
  aa_first_kept : forall z, z ∈ first_achievers lm -> z ∈ first_achievers lm';
  aa_first_new :
    forall z, z ∈ first_achievers lm' ->
      z ∈ first_achievers lm \/
      (z ∈ possible_achievers lm' /\
       exists op b lvl_var e1 e2 lm1 lm2,
         get_operator_or_axiom task z = Done op /\
         relaxed_task_solvable task e1 [] lm1 = Done (b, lvl_var, e2) /\
         facts lm1 = facts lm /\ facts lm2 = facts lm /\
         possibly_reaches_lm op lvl_var lm2 = true) }.

(** ** Preferred operators *)

(** Operator [o] owns the first achiever of proposition [p], and no
    precondition of that rule has an achiever itself. *)
Definition achieved_directly (h : FFHeuristic) (p : PropID) (o : nat) : Prop :=
  exists nd r, propositions h !! p = Some nd /\ (0 <= reached_by nd)%Z /\
               unary_operators h !! Z.to_nat (reached_by nd) = Some r /\
               uo_operator_no r = Z.of_nat o /\
               forall q, q ∈ uo_preconditions r ->
                         exists nq, propositions h !! q = Some nq /\
                                    reached_by nq = NO_OP.

(** From [h] to [h']: the operators that became preferred are those that
    directly achieve a proposition marked on the way. *)
Record preferred_effect (h h' : FFHeuristic) : Prop := mkPreferredEffect {
  pe_new :
    forall o, o ∈ preferred_operators h' ->
      o ∈ preferred_operators h \/
      exists p, ~ marked_at (propositions h) p /\ marked_at (propositions h') p /\
                achieved_directly h p o;
  pe_all :
    forall p o, ~ marked_at (propositions h) p -> marked_at (propositions h') p ->
                achieved_directly h p o -> o ∈ preferred_operators h' }.

(** The propositions the backward chains from [starts] ask for: the start
    propositions, and the preconditions of the first achiever of every
    proposition asked for. *)
Inductive needed (h : FFHeuristic) (starts : list PropID) : PropID -> Prop :=
| needed_start g : g ∈ starts -> needed h starts g
| needed_pre p nd r q :
    needed h starts p ->
    propositions h !! p = Some nd -> (0 <= reached_by nd)%Z ->
    unary_operators h !! Z.to_nat (reached_by nd) = Some r ->
    q ∈ uo_preconditions r ->
    needed h starts q.

(** ** What an exploration run reaches *)

Section Completeness.
Variable rules : list UnaryOperator.
Variable excluded_props : list PropID.
Variable excluded_ops : gset Z.
Variable seeds : list PropID.

(** Proposition [p] is reachable in the relaxed task with the exclusions:
    it is one of the [n] propositions and not excluded, and it is a seed, or
    the head of an enabled rule whose preconditions are reachable. *)
Inductive derivable_within (n : nat) : PropID -> Prop :=
| within_seed p :
    p ∈ seeds -> prop_allowed excluded_props p = true -> p < n ->
    derivable_within n p
| within_rule p r :
    r ∈ rules -> uo_effect r = p -> rule_enabled excluded_ops r = true ->
    prop_allowed excluded_props p = true -> p < n ->
    (forall q, q ∈ uo_preconditions r -> derivable_within n q) ->
    derivable_within n p.

(** Every reached fact is on the worklist or has been taken from it. *)
Definition reached_listed (taken : list PropID) (e : Frontier) : Prop :=
  forall p, reached (fr_props e) p -> p ∈ (fr_queue e).*2 ++ taken.

(** The counter of a rule is the number of its preconditions that have
    not been taken from the worklist ([sel j] for rule [j]). *)
Definition counters_exact (sel : nat -> list PropID) (cs : list (nat * Z)) : Prop :=
  forall j r, rules !! j = Some r ->
    exists a, cs !! j = Some (length (filter (fun q => q ∉ sel j) (uo_preconditions r)), a).

(** The head of a rule below index [k] whose counter has run out is
    reached, if the rule is enabled and the head is a proposition of the
    table that is not excluded. *)
Definition fired (k : nat) (e : Frontier) : Prop :=
  forall j r a, j < k -> rules !! j = Some r -> fr_counters e !! j = Some (0, a) ->
    rule_enabled excluded_ops r = true ->
    prop_allowed excluded_props (uo_effect r) = true ->
    uo_effect r < length (fr_props e) ->
    reached (fr_props e) (uo_effect r).

Definition tight (k : nat) (sel : nat -> list PropID) (taken : list PropID)
    (e : Frontier) : Prop :=
  reached_listed taken e /\ counters_exact sel (fr_counters e) /\ fired k e.
End Completeness.

(** The table of [e'] has the size of the table of [e] and reaches what it
    reaches. *)
Definition grows (e e' : Frontier) : Prop :=
  length (fr_props e') = length (fr_props e) /\
  forall p, reached (fr_props e) p -> reached (fr_props e') p.

(** * Properties *)

(** ** The model on small inputs *)

Example wrap_int_overflow : wrap_int (INT_MAX + 1) = INT_MIN.
Proof. reflexivity. Qed.

Example ceil_of_sum : ceil_to_int (1.5 + 2.25)%float = Some 4%Z.
Proof. vm_compute. reflexivity. Qed.

Example ceil_of_negative_half : ceil_to_int (-0.5)%float = Some 0%Z.
Proof. vm_compute. reflexivity. Qed.

Example ceil_of_minus_one : ceil_to_int (0.25 + -1.25)%float = Some (-1)%Z.
Proof. vm_compute. reflexivity. Qed.

Example ceil_out_of_range : ceil_to_int 1e10%float = None.
Proof. vm_compute. reflexivity. Qed.

Example ceil_of_nan : ceil_to_int (0 / 0)%float = None.
Proof. vm_compute. reflexivity. Qed.

Example family_key : up_to_blank "pick-up a b" = "pick-up".
Proof. reflexivity. Qed.

Example family_key_no_blank : up_to_blank "noop" = "noop".
Proof. reflexivity. Qed.

Example subscript_inserts_zero :
  map_subscript (<["pick-up" := 1.5%float]> ∅) "put-down"
  = (0%float, <["put-down" := 0%float]> (<["pick-up" := 1.5%float]> ∅)).
Proof. vm_compute. reflexivity. Qed.

Example gripper_rules :
  build_unary_operators gripper_task = [mkUnary 1 [0] 1 0; mkUnary 3 [1] 1 1].
Proof. reflexivity. Qed.

Example derived_rules :
  build_unary_operators derived_task = [mkUnary 1 [0] 1 0; mkUnary 3 [1] 0 (-1)].
Proof. reflexivity. Qed.

Example gripper_exploration :
  explore (build_unary_operators gripper_task) [] ∅ 4 (state_props gripper_task [0; 0])
  = [mkProp (Some 0%Z) NO_OP false; mkProp (Some 1%Z) 0 false;
     mkProp (Some 0%Z) NO_OP false; mkProp (Some 2%Z) 1 false].
Proof. vm_compute. reflexivity. Qed.

(** ** Loops and outcomes *)

Ltac solve_fact_range := eexists; split; [reflexivity | simpl; lia].

Ltac solve_state_range :=
  split; [reflexivity |];
  intros v x d Hx Hd;
  repeat (destruct v as [|v]; simpl in Hx, Hd; simplify_eq; try lia).


Lemma bind_Done {A B : Type} (f : A -> outcome B) (a : A) : (Done a ≫= f) = f a.
Proof. reflexivity. Qed.

Lemma ensures_bind {A B : Type} (P : A -> Prop) (Q : B -> Prop) (E : failure -> Prop)
    (m : outcome A) (f : A -> outcome B) :
  ensures P E m ->
  (forall a, P a -> ensures Q E (f a)) ->
  ensures Q E (m ≫= f).
Proof. destruct m as [a|e]; simpl; auto. Qed.

Lemma ensures_weaken {A : Type} (P Q : A -> Prop) (E F : failure -> Prop) (o : outcome A) :
  ensures P E o -> (forall a, P a -> Q a) -> (forall e, E e -> F e) -> ensures Q F o.
Proof. destruct o; simpl; auto. Qed.

Lemma ensures_Done {A : Type} (P : A -> Prop) (o : outcome A) :
  ensures P (fun _ => False) o -> exists a, o = Done a /\ P a.
Proof. destruct o as [a|e]; simpl; [eauto | tauto]. Qed.

(** Loop rule: an invariant indexed by the elements handled so far. *)
Lemma for_each_prefix {A S : Type} (body : S -> A -> outcome S)
    (I : list A -> S -> Prop) (E : failure -> Prop) (xs : list A) :
  forall (pre : list A) (s : S),
    I pre s ->
    (forall pre' x s', x ∈ xs -> I pre' s' -> ensures (I (pre' ++ [x])) E (body s' x)) ->
    ensures (I (pre ++ xs)) E (for_each body xs s).
Proof.
  induction xs as [|x xs IH]; intros pre s HI Hbody; simpl.
  - by rewrite app_nil_r.
  - apply ensures_bind with (P := I (pre ++ [x])).
    + apply Hbody; [left | done].
    + intros s' Hs'. replace (pre ++ x :: xs) with ((pre ++ [x]) ++ xs)
        by (by rewrite <- app_assoc).
      apply IH; [done |]. intros pre' y s'' Hy. apply Hbody. by right.
Qed.

Lemma for_each_inv {A S : Type} (body : S -> A -> outcome S)
    (I : S -> Prop) (E : failure -> Prop) (xs : list A) (s : S) :
  I s ->
  (forall x s', x ∈ xs -> I s' -> ensures I E (body s' x)) ->
  ensures I E (for_each body xs s).
Proof.
  intros HI Hbody.
  apply (for_each_prefix body (fun _ => I) E xs [] s HI).
  intros _ x s' Hx. by apply Hbody.
Qed.

(** ** Marking: what one backward chain changes *)

Lemma same_node_refl p : same_node p p.
Proof. by repeat split. Qed.

Lemma same_node_trans p q r : same_node p q -> same_node q r -> same_node p r.
Proof.
  intros (?&?&?) (?&?&?). repeat split; [congruence | congruence | auto].
Qed.

Lemma same_nodes_refl ps : Forall2 same_node ps ps.
Proof. induction ps; constructor; auto using same_node_refl. Qed.

Lemma same_nodes_trans ps qs rs :
  Forall2 same_node ps qs -> Forall2 same_node qs rs -> Forall2 same_node ps rs.
Proof.
  intros H. revert rs. induction H; intros rs Hr; inversion Hr; subst; constructor;
    eauto using same_node_trans.
Qed.

Lemma evolves_refl state h : evolves state h h.
Proof. split; auto using same_nodes_refl. Qed.

Lemma evolves_trans state h1 h2 h3 :
  evolves state h1 h2 -> evolves state h2 h3 -> evolves state h1 h3.
Proof.
  intros [T1 L1 W1 P1 R1 F1] [T2 L2 W2 P2 R2 F2]. split; try congruence.
  - eauto using same_nodes_trans.
  - intros o Ho. destruct (F2 o Ho) as [Hin | (op & Hop & Happ)]; [auto |].
    right. exists op. by rewrite <- T1.
Qed.

Lemma unmarked_same_nodes ps qs :
  Forall2 same_node ps qs -> unmarked qs <= unmarked ps.
Proof.
  unfold unmarked. induction 1 as [|p q ps qs (_&_&Hm) _ IH]; [done |].
  rewrite !filter_cons. destruct (decide (marked q = false)) as [Hq|Hq];
    destruct (decide (marked p = false)) as [Hp|Hp]; simpl; try lia.
  apply not_false_is_true in Hp. rewrite (Hm Hp) in Hq. done.
Qed.

Lemma alter_mark_same_nodes ps g :
  Forall2 same_node ps (alter (fun p => mkProp (cost p) (reached_by p) true) g ps).
Proof.
  revert g. induction ps as [|p ps IH]; intros [|g]; simpl; constructor;
    auto using same_node_refl, same_nodes_refl.
  - by repeat split.
  - apply IH.
Qed.

Lemma alter_mark_unmarked ps g p :
  ps !! g = Some p -> marked p = false ->
  S (unmarked (alter (fun p => mkProp (cost p) (reached_by p) true) g ps)) = unmarked ps.
Proof.
  unfold unmarked. revert g. induction ps as [|q ps IH]; intros [|g] Hg Hm;
    simpl in *; try done.
  - injection Hg as ->. rewrite !filter_cons. simpl.
    destruct (decide (true = false)); [done |].
    destruct (decide (marked p = false)); [done | done].
  - rewrite !filter_cons. destruct (decide (marked q = false)); simpl;
      rewrite <- (IH g Hg Hm); done.
Qed.

Lemma set_marked_unmarked h g p :
  propositions h !! g = Some p -> marked p = false ->
  S (unmarked (propositions (set_marked h g))) = unmarked (propositions h).
Proof. apply alter_mark_unmarked. Qed.

Lemma set_marked_evolves state h g : evolves state h (set_marked h g).
Proof.
  split; simpl; auto using alter_mark_same_nodes.
Qed.

Lemma with_relaxed_plan_evolves state h i b :
  evolves state h (with_relaxed_plan h (<[i := b]> (relaxed_plan h))).
Proof.
  split; simpl; auto using same_nodes_refl. by rewrite length_insert.
Qed.

Lemma set_preferred_evolves state h o op :
  task_operators (ff_task h) !! o = Some op -> is_applicable op state = true ->
  evolves state h (set_preferred h o).
Proof.
  intros Hop Happ. unfold set_preferred. case_bool_decide; [apply evolves_refl |].
  split; simpl; auto using same_nodes_refl.
  intros o' [Ho' | Ho']%elem_of_app; [by left |].
  apply list_elem_of_singleton in Ho' as ->. right. eauto.
Qed.

Lemma mark_unfold fuel h state goal_id :
  mark_preferred_operators_and_relaxed_plan (S fuel) h state goal_id =
  (goal ← get_proposition h goal_id;
   if marked goal then Done h
   else
     let h := set_marked h goal_id in
     let op_id := reached_by goal in
     if (op_id =? NO_OP)%Z then Done h
     else
       unary_op ← get_operator h op_id;
       '(h, is_preferred) ←
         for_each
           (fun (st : FFHeuristic * bool) precond =>
              let '(h, is_preferred) := st in
              h ← mark_preferred_operators_and_relaxed_plan fuel h state precond;
              p ← get_proposition h precond;
              Done (h, if (reached_by p =? NO_OP)%Z then is_preferred else false))
           (uo_preconditions unary_op) (h, true);
       let operator_no := uo_operator_no unary_op in
       if (operator_no =? -1)%Z then Done h
       else
         _ ← at_index_Z (relaxed_plan h) operator_no;
         let h := with_relaxed_plan h
                    (<[Z.to_nat operator_no := true]> (relaxed_plan h)) in
         if is_preferred : bool then
           op ← at_index_Z (task_operators (ff_task h)) operator_no;
           if is_applicable op state
           then Done (set_preferred h (Z.to_nat operator_no))
           else Abort AssertionFailed
         else Done h).
Proof. reflexivity. Qed.

Lemma at_index_Done {A : Type} (l : list A) (i : nat) (a : A) :
  l !! i = Some a -> at_index l i = Done a.
Proof. intros H. unfold at_index. by rewrite H. Qed.

Lemma ensures_at_index {A : Type} (l : list A) (i : nat) (E : failure -> Prop) :
  E OutOfBounds -> ensures (fun a => l !! i = Some a) E (at_index l i).
Proof. intros HE. unfold at_index. by destruct (l !! i). Qed.

Lemma ensures_at_index_Z {A : Type} (l : list A) (i : Z) (E : failure -> Prop) :
  E OutOfBounds ->
  ensures (fun a => (0 <= i)%Z /\ l !! Z.to_nat i = Some a) E (at_index_Z l i).
Proof.
  intros HE. unfold at_index_Z. destruct (Z.ltb_spec i 0); [done |].
  eapply ensures_weaken; [by apply ensures_at_index | by intros | done].
Qed.

(** The recursion budget is never the reason for stopping as long as it
    exceeds the number of unmarked propositions; what a finished chain
    leaves behind is an evolution of the object. *)
Lemma mark_within_budget state :
  forall fuel h goal_id,
    unmarked (propositions h) < fuel ->
    ensures (evolves state h) (fun e => e <> OutOfFuel)
            (mark_preferred_operators_and_relaxed_plan fuel h state goal_id).
Proof.
  induction fuel as [|fuel IH]; intros h goal_id Hfuel; [lia |].
  rewrite mark_unfold.
  eapply ensures_bind; [by apply ensures_at_index |].
  intros goal Hgoal. cbv beta in *.
  destruct (marked goal) eqn:Hm; [apply evolves_refl |].
  cbv zeta.
  assert (Hev1 : evolves state h (set_marked h goal_id)) by apply set_marked_evolves.
  assert (Hcount : unmarked (propositions (set_marked h goal_id)) < fuel).
  { pose proof (set_marked_unmarked _ _ _ Hgoal Hm). lia. }
  destruct (reached_by goal =? NO_OP)%Z; [done |].
  eapply ensures_bind; [by apply ensures_at_index_Z |].
  intros unary_op _. cbv beta.
  eapply ensures_bind with (P := fun st => evolves state (set_marked h goal_id) st.1).
  { apply for_each_inv; [apply evolves_refl |].
    intros precond [h1 pref] _ Hh1. cbn [fst] in Hh1.
    eapply ensures_bind.
    - apply IH. pose proof (unmarked_same_nodes _ _ (ev_props _ _ _ Hh1)). lia.
    - intros h2 Hh2. cbv beta in Hh2.
      eapply ensures_bind; [by apply ensures_at_index |].
      intros p _. cbn [ensures fst]. eauto using evolves_trans. }
  intros [h1 pref] Hh1. cbn [fst] in Hh1.
  assert (Hh1' : evolves state h h1) by eauto using evolves_trans.
  destruct (_ =? -1)%Z; [done |].
  eapply ensures_bind; [by apply ensures_at_index_Z |].
  intros _ _. cbv beta zeta.
  set (h2 := with_relaxed_plan h1 _).
  assert (Hh2 : evolves state h h2).
  { eapply evolves_trans; [exact Hh1' | apply with_relaxed_plan_evolves]. }
  destruct pref; [|done].
  eapply ensures_bind; [by apply ensures_at_index_Z |].
  intros op [_ Hop]. cbv beta in *.
  destruct (is_applicable op state) eqn:Happ; [|done].
  simpl. eapply evolves_trans; [exact Hh2 |].
  eapply set_preferred_evolves; eauto.
Qed.

(** ** The exploration engine: what every run guarantees *)

Lemma filter_done_skip (f : PropID) (done l : list PropID) :
  f ∉ l ->
  filter (fun q => q ∉ f :: done) l = filter (fun q => q ∉ done) l.
Proof.
  induction l as [|x l IH]; intros Hf; [done |].
  apply not_elem_of_cons in Hf as [Hne Hf].
  rewrite !filter_cons, (IH Hf).
  destruct (decide (x ∉ f :: done)) as [H1|H1];
    destruct (decide (x ∉ done)) as [H2|H2]; try done.
  - exfalso. apply H2. intros ?. apply H1. by right.
  - exfalso. apply H1. intros [?|?]%elem_of_cons; [by subst | done].
Qed.

Lemma filter_done_le (f : PropID) (done l : list PropID) :
  length (filter (fun q => q ∉ f :: done) l) <= length (filter (fun q => q ∉ done) l).
Proof.
  induction l as [|x l IH]; [done |].
  rewrite !filter_cons.
  destruct (decide (x ∉ f :: done)) as [H1|H1];
    destruct (decide (x ∉ done)) as [H2|H2]; simpl; try lia.
  exfalso. apply H2. intros ?. apply H1. by right.
Qed.

Lemma filter_done_lt (f : PropID) (done l : list PropID) :
  f ∈ l -> f ∉ done ->
  length (filter (fun q => q ∉ f :: done) l) < length (filter (fun q => q ∉ done) l).
Proof.
  induction l as [|x l IH]; intros Hin Hdone; [by apply elem_of_nil in Hin |].
  rewrite !filter_cons.
  destruct (decide (x = f)) as [->|Hne].
  - destruct (decide (f ∉ f :: done)) as [H1|_]; [exfalso; apply H1; by left |].
    destruct (decide (f ∉ done)); [|done].
    simpl. pose proof (filter_done_le f done l). lia.
  - apply elem_of_cons in Hin as [?|Hin]; [by subst |].
    specialize (IH Hin Hdone).
    destruct (decide (x ∉ f :: done)) as [H1|H1];
      destruct (decide (x ∉ done)) as [H2|H2]; simpl; try lia.
    exfalso. apply H2. intros ?. apply H1. by right.
Qed.

Lemma filter_done_nil (done l : list PropID) :
  length (filter (fun q => q ∉ done) l) <= 0 -> Forall (fun q => q ∈ done) l.
Proof.
  induction l as [|x l IH]; intros Hlen; [constructor |].
  rewrite filter_cons in Hlen.
  destruct (decide (x ∉ done)) as [H1|H1]; simpl in Hlen; [lia |].
  constructor; [|by apply IH].
  by destruct (decide (x ∈ done)).
Qed.

Lemma pop_min_perm (q : list (Z * PropID)) x rest :
  pop_min q = Some (x, rest) -> q ≡ₚ x :: rest.
Proof.
  revert x rest. induction q as [|y q IH]; intros x rest Hpop; [done |].
  simpl in Hpop. destruct (pop_min q) as [[z rest']|] eqn:Hq.
  - destruct (y.1 <=? z.1)%Z; injection Hpop as <- <-; [done |].
    rewrite (IH _ _ eq_refl). apply Permutation_swap.
  - injection Hpop as <- <-. destruct q as [|w q']; [done |].
    simpl in Hq. destruct (pop_min q') as [[? ?]|]; [destruct (_ <=? _)%Z |]; done.
Qed.

Section EngineInvariant.
Variable rules : list UnaryOperator.
Variable excluded_props : list PropID.
Variable excluded_ops : gset Z.
Variable seeds : list PropID.

Lemma reached_insert ps p n q :
  is_Some (cost n) -> reached ps q -> reached (<[p := n]> ps) q.
Proof.
  intros Hn (m & Hm & Hc). destruct (decide (p = q)) as [->|Hne].
  - exists n. split; [|done]. apply list_lookup_insert_eq. by eapply lookup_lt_Some.
  - exists m. by rewrite list_lookup_insert_ne.
Qed.

Lemma reach_inv sel done p c by_op e :
  props_inv rules seeds (fr_props e) -> queue_inv done e -> counters_ok rules sel (fr_counters e) ->
  (by_op = NO_OP -> p ∈ seeds) ->
  (by_op <> NO_OP ->
   exists i r, by_op = Z.of_nat i /\ rules !! i = Some r /\
               Forall (reached (fr_props e)) (uo_preconditions r)) ->
  props_inv rules seeds (fr_props (reach excluded_props p c by_op e)) /\
  queue_inv done (reach excluded_props p c by_op e) /\
  counters_ok rules sel (fr_counters (reach excluded_props p c by_op e)).
Proof.
  intros [Hseed Hach] [Hnd Hre] Hcnt Hno Hop. unfold reach.
  destruct (prop_allowed excluded_props p); [|done].
  destruct (fr_props e !! p) as [[[cst|] rb m]|] eqn:Hp; [done | | done].
  assert (Hlt : p < length (fr_props e)) by by eapply lookup_lt_Some.
  assert (Hmono : forall q, reached (fr_props e) q ->
            reached (<[p := mkProp (Some c) by_op m]> (fr_props e)) q).
  { intros q. by apply reached_insert. }
  assert (Hnew : reached (<[p := mkProp (Some c) by_op m]> (fr_props e)) p).
  { eexists. split; [by apply list_lookup_insert_eq | done]. }
  assert (Hfresh : p ∉ (fr_queue e).*2 ++ done).
  { intros Hin. destruct (Hre p Hin) as (n & Hn & Hc).
    rewrite Hp in Hn. injection Hn as <-. by destruct Hc. }
  split; [|split]; simpl.
  - split.
    + intros q n Hq Hc Hrb. destruct (decide (p = q)) as [->|Hne].
      * rewrite list_lookup_insert_eq in Hq by done. injection Hq as <-. auto.
      * rewrite list_lookup_insert_ne in Hq by done. eauto.
    + intros q n Hq Hrb. destruct (decide (p = q)) as [->|Hne].
      * rewrite list_lookup_insert_eq in Hq by done. injection Hq as <-.
        simpl in Hrb. destruct (Hop Hrb) as (i & r & Hi & Hr & Hall).
        exists i, r. repeat split; [done | done |].
        eapply Forall_impl; [exact Hall | done].
      * rewrite list_lookup_insert_ne in Hq by done.
        destruct (Hach q n Hq Hrb) as (i & r & Hi & Hr & Hall).
        exists i, r. repeat split; [done | done |].
        eapply Forall_impl; [exact Hall | done].
  - split; simpl.
    + rewrite fmap_app. simpl. rewrite <- app_assoc. simpl.
      apply NoDup_app in Hnd as (Hq & Hdisj & Hd).
      apply NoDup_app. split; [done |]. split.
      * intros x Hx [->|Hx']%elem_of_cons.
        -- apply Hfresh. apply elem_of_app. by left.
        -- by eapply Hdisj.
      * apply NoDup_cons. split; [|done].
        intros Hin. apply Hfresh. apply elem_of_app. by right.
    + intros q Hq. rewrite fmap_app in Hq. simpl in Hq.
      rewrite <- app_assoc in Hq. simpl in Hq.
      apply elem_of_app in Hq as [Hq | [->|Hq]%elem_of_cons]; [| done |].
      * apply Hmono, Hre, elem_of_app. by left.
      * apply Hmono, Hre, elem_of_app. by right.
  - done.
Qed.

Lemma fire_inv sel done i r acc e :
  props_inv rules seeds (fr_props e) -> queue_inv done e -> counters_ok rules sel (fr_counters e) ->
  rules !! i = Some r ->
  Forall (reached (fr_props e)) (uo_preconditions r) ->
  props_inv rules seeds (fr_props (fire excluded_props excluded_ops i r acc e)) /\
  queue_inv done (fire excluded_props excluded_ops i r acc e) /\
  counters_ok rules sel (fr_counters (fire excluded_props excluded_ops i r acc e)).
Proof.
  intros Hp Hq Hc Hr Hall. unfold fire.
  destruct (rule_enabled excluded_ops r); [|done].
  apply reach_inv; try done.
  - unfold NO_OP. lia.
  - intros _. eauto.
Qed.
Lemma reached_taken done e l :
  queue_inv done e -> Forall (fun q => q ∈ done) l -> Forall (reached (fr_props e)) l.
Proof.
  intros [_ Hre] Hall. eapply Forall_impl; [exact Hall |].
  intros q Hq. apply Hre, elem_of_app. by right.
Qed.

Lemma satisfy_rule_inv done f c k r e :
  rules !! k = Some r -> f ∉ done ->
  props_inv rules seeds (fr_props e) -> queue_inv (f :: done) e ->
  counters_ok rules (sel_upto k f done) (fr_counters e) ->
  props_inv rules seeds (fr_props (satisfy_rule excluded_props excluded_ops f c k r e)) /\
  queue_inv (f :: done) (satisfy_rule excluded_props excluded_ops f c k r e) /\
  counters_ok rules (sel_upto (S k) f done)
              (fr_counters (satisfy_rule excluded_props excluded_ops f c k r e)).
Proof.
  intros Hr Hf Hp Hq Hcnt. unfold satisfy_rule.
  destruct (Hcnt k r Hr) as (u0 & a & Hlk & Hlen).
  unfold sel_upto in Hlen. destruct (decide (k < k)) as [?|_]; [lia |].
  case_bool_decide as Hin.
  - rewrite Hlk. pose proof (filter_done_lt f done _ Hin Hf) as Hlt.
    destruct u0 as [|u]; [lia |].
    set (e1 := {| fr_props := fr_props e;
                  fr_counters := <[k := (u, (a + c)%Z)]> (fr_counters e);
                  fr_queue := fr_queue e |}).
    assert (Hcnt1 : counters_ok rules (sel_upto (S k) f done) (fr_counters e1)).
    { intros j r' Hr'. destruct (decide (j = k)) as [->|Hne].
      - rewrite Hr in Hr'. injection Hr' as <-. exists u, (a + c)%Z. split.
        + apply list_lookup_insert_eq. by eapply lookup_lt_Some.
        + unfold sel_upto. destruct (decide (k < S k)); lia.
      - destruct (Hcnt j r' Hr') as (u' & a' & Hlk' & Hlen').
        exists u', a'. split; [by simpl; rewrite list_lookup_insert_ne |].
        unfold sel_upto in *.
        destruct (decide (j < S k)); destruct (decide (j < k)); try done; lia. }
    assert (Hq1 : queue_inv (f :: done) e1) by (by destruct Hq).
    destruct u as [|u]; [|done].
    apply fire_inv; try done.
    eapply (reached_taken (f :: done) e1); [done |].
    apply filter_done_nil.
    destruct (Hcnt1 k r Hr) as (u' & a' & Hlk' & Hlen').
    simpl in Hlk'. rewrite list_lookup_insert_eq in Hlk' by (by eapply lookup_lt_Some).
    injection Hlk' as <- <-. unfold sel_upto in Hlen'.
    destruct (decide (k < S k)); [done | lia].
  - split; [done |]. split; [done |].
    intros j r' Hr'. destruct (decide (j = k)) as [->|Hne].
    + rewrite Hr in Hr'. injection Hr' as <-. exists u0, a. split; [done |].
      unfold sel_upto. destruct (decide (k < S k)); [|lia].
      by rewrite filter_done_skip.
    + destruct (Hcnt j r' Hr') as (u' & a' & Hlk' & Hlen').
      exists u', a'. split; [done |]. unfold sel_upto in *.
      destruct (decide (j < S k)); destruct (decide (j < k)); try done; lia.
Qed.

Lemma satisfy_from_inv done f c :
  f ∉ done ->
  forall rs k e,
    (forall i r, rs !! i = Some r -> rules !! (k + i) = Some r) ->
    props_inv rules seeds (fr_props e) -> queue_inv (f :: done) e ->
    counters_ok rules (sel_upto k f done) (fr_counters e) ->
    props_inv rules seeds (fr_props (satisfy_from excluded_props excluded_ops f c k rs e)) /\
    queue_inv (f :: done) (satisfy_from excluded_props excluded_ops f c k rs e) /\
    counters_ok rules (sel_upto (k + length rs) f done)
                (fr_counters (satisfy_from excluded_props excluded_ops f c k rs e)).
Proof.
  intros Hf. induction rs as [|r rs IH]; intros k e Hrs Hp Hq Hcnt; simpl.
  - by rewrite Nat.add_0_r.
  - destruct (satisfy_rule_inv done f c k r e) as (Hp1 & Hq1 & Hc1); try done.
    { specialize (Hrs 0 r eq_refl). by rewrite Nat.add_0_r in Hrs. }
    replace (k + S (length rs)) with (S k + length rs) by lia.
    apply IH; try done.
    intros i r' Hi. replace (S k + i) with (k + S i) by lia. by apply Hrs.
Qed.

Lemma relaxed_exploration_inv fuel :
  forall done e, engine_inv rules seeds done e ->
    exists done',
      engine_inv rules seeds done'
        (relaxed_exploration rules excluded_props excluded_ops fuel e).
Proof.
  induction fuel as [|fuel IH]; intros done e Hinv; simpl; [eauto |].
  destruct (pop_min (fr_queue e)) as [[[c f] rest]|] eqn:Hpop; [|eauto].
  destruct Hinv as (Hp & [Hnd Hre] & Hcnt).
  apply pop_min_perm in Hpop.
  assert (Hperm : (fr_queue e).*2 ++ done ≡ₚ f :: rest.*2 ++ done).
  { by rewrite Hpop. }
  assert (Hperm' : (fr_queue e).*2 ++ done ≡ₚ rest.*2 ++ f :: done).
  { rewrite Hperm. apply Permutation_middle. }
  assert (Hf : f ∉ done).
  { rewrite Hperm in Hnd. apply NoDup_cons in Hnd as [Hnin _].
    intros Hin. apply Hnin, elem_of_app. by right. }
  set (e0 := {| fr_props := fr_props e; fr_counters := fr_counters e; fr_queue := rest |}).
  destruct (satisfy_from_inv done f c Hf rules 0 e0) as (Hp1 & Hq1 & Hc1); try done.
  - split; simpl.
    + by rewrite <- Hperm'.
    + intros p Hin. apply Hre. by rewrite Hperm'.
  - apply (IH (f :: done)). split; [done |]. split; [done |].
    intros j r Hr. destruct (Hc1 j r Hr) as (u & a & ? & Hlen). exists u, a.
    split; [done |]. unfold sel_upto in Hlen. simpl in Hlen.
    destruct (decide (j < length rules)) as [|Hge]; [done |].
    apply lookup_lt_Some in Hr. lia.
Qed.
Lemma seeding_inv (l : list PropID) :
  forall e, (forall p, p ∈ l -> p ∈ seeds) -> engine_inv rules seeds [] e ->
    engine_inv rules seeds [] (foldl (fun e p => reach excluded_props p 0%Z NO_OP e) e l).
Proof.
  induction l as [|p l IH]; intros e Hl Hinv; simpl; [done |].
  apply IH; [intros q Hq; apply Hl; by right |].
  destruct Hinv as (Hp & Hq & Hc). apply reach_inv; try done.
  intros _. apply Hl. by left.
Qed.

Lemma fire_free_from_inv :
  forall rs k e,
    (forall i r, rs !! i = Some r -> rules !! (k + i) = Some r) ->
    engine_inv rules seeds [] e ->
    engine_inv rules seeds [] (fire_free_from excluded_props excluded_ops k rs e).
Proof.
  induction rs as [|r rs IH]; intros k e Hrs Hinv; simpl; [done |].
  apply IH.
  { intros i r' Hi. replace (S k + i) with (k + S i) by lia. by apply Hrs. }
  destruct (uo_preconditions r) eqn:Hpre; [|done].
  destruct Hinv as (Hp & Hq & Hc). apply fire_inv; try done.
  - specialize (Hrs 0 r eq_refl). by rewrite Nat.add_0_r in Hrs.
  - rewrite Hpre. constructor.
Qed.

Lemma setup_inv n :
  engine_inv rules seeds [] (setup_exploration_queue rules excluded_props excluded_ops n seeds).
Proof.
  unfold setup_exploration_queue. apply fire_free_from_inv; [done |].
  apply seeding_inv; [done |]. split; [|split]; simpl.
  - split.
    + intros p nd Hp Hc. apply lookup_replicate in Hp as [-> _]. by destruct Hc.
    + intros p nd Hp Hrb. apply lookup_replicate in Hp as [-> _]. done.
  - split; simpl; [constructor |]. intros p Hp. by apply elem_of_nil in Hp.
  - intros j r Hr. eexists _, _. split.
    + rewrite list_lookup_fmap, Hr. done.
    + apply length_filter.
Qed.

(** Every run of the engine ends in a table in which a reached fact without
    achiever is a seed, and every achiever has all of its preconditions
    reached. *)
Lemma explore_inv n :
  props_inv rules seeds (explore rules excluded_props excluded_ops n seeds).
Proof.
  unfold explore.
  destruct (relaxed_exploration_inv (S n) [] _ (setup_inv n)) as (done & Hp & _).
  exact Hp.
Qed.
(** *** The worklist empties *)

Lemma insert_unreached_count ps p rb m c by_op :
  ps !! p = Some (mkProp None rb m) ->
  S (unreached_count (<[p := mkProp (Some c) by_op m]> ps)) = unreached_count ps.
Proof.
  unfold unreached_count. revert p. induction ps as [|q ps IH]; intros [|p] Hp;
    simpl in *; try done.
  - injection Hp as ->. rewrite !filter_cons. simpl.
    destruct (decide (Some c = None)); [done |].
    destruct (decide (@None Z = None)); done.
  - rewrite !filter_cons. destruct (decide (cost q = None)); simpl;
      rewrite <- (IH p Hp); done.
Qed.

Lemma reach_work p c by_op e :
  work_left (reach excluded_props p c by_op e) = work_left e.
Proof.
  unfold reach. destruct (prop_allowed excluded_props p); [|done].
  destruct (fr_props e !! p) as [[[cst|] rb m]|] eqn:Hp; try done.
  unfold work_left. simpl. rewrite length_app. simpl.
  pose proof (insert_unreached_count _ _ _ _ c by_op Hp). lia.
Qed.

Lemma fire_work i r acc e :
  work_left (fire excluded_props excluded_ops i r acc e) = work_left e.
Proof. unfold fire. destruct (rule_enabled excluded_ops r); [apply reach_work | done]. Qed.

Lemma satisfy_rule_work f c i r e :
  work_left (satisfy_rule excluded_props excluded_ops f c i r e) = work_left e.
Proof.
  unfold satisfy_rule. destruct (bool_decide _); [|done].
  destruct (fr_counters e !! i) as [[[|[|u]] a]|]; try done.
  by rewrite fire_work.
Qed.

Lemma satisfy_from_work f c rs :
  forall i e, work_left (satisfy_from excluded_props excluded_ops f c i rs e) = work_left e.
Proof.
  induction rs as [|r rs IH]; intros i e; simpl; [done |].
  by rewrite IH, satisfy_rule_work.
Qed.

Lemma fire_free_from_work rs :
  forall i e, work_left (fire_free_from excluded_props excluded_ops i rs e) = work_left e.
Proof.
  induction rs as [|r rs IH]; intros i e; simpl; [done |].
  rewrite IH. destruct (uo_preconditions r); [apply fire_work | done].
Qed.

Lemma setup_work n :
  work_left (setup_exploration_queue rules excluded_props excluded_ops n seeds) = n.
Proof.
  unfold setup_exploration_queue. rewrite fire_free_from_work.
  assert (Hfold : forall l e,
            work_left (foldl (fun e p => reach excluded_props p 0%Z NO_OP e) e l)
            = work_left e).
  { induction l as [|p l IH]; intros e; simpl; [done |]. by rewrite IH, reach_work. }
  rewrite Hfold. unfold work_left, unreached_count. simpl.
  induction n as [|n IH]; [done |].
  change (replicate (S n) ?x) with (x :: replicate n x).
  rewrite filter_cons. simpl.
  destruct (decide (@None Z = None)); [|done]. simpl. by rewrite IH.
Qed.

Lemma relaxed_exploration_exhausts fuel :
  forall e, work_left e < fuel ->
    fr_queue (relaxed_exploration rules excluded_props excluded_ops fuel e) = [].
Proof.
  induction fuel as [|fuel IH]; intros e Hwork; [lia |]. simpl.
  destruct (pop_min (fr_queue e)) as [[[c f] rest]|] eqn:Hpop.
  - apply IH. rewrite satisfy_from_work.
    apply pop_min_perm, Permutation_length in Hpop.
    unfold work_left in *. simpl in *. lia.
  - destruct (fr_queue e) as [|x q]; [done |]. simpl in Hpop.
    destruct (pop_min q) as [[? ?]|]; [destruct (_ <=? _)%Z |]; done.
Qed.

(** The rounds granted to a run suffice: when [explore] stops, the worklist
    is empty. *)
Lemma explore_exhausts n :
  fr_queue (relaxed_exploration rules excluded_props excluded_ops (S n)
              (setup_exploration_queue rules excluded_props excluded_ops n seeds)) = [].
Proof. apply relaxed_exploration_exhausts. rewrite setup_work. lia. Qed.
(** *** Costs stay non-negative *)

Lemma reach_nonneg p c by_op e :
  (0 <= c)%Z -> costs_nonneg e -> costs_nonneg (reach excluded_props p c by_op e).
Proof.
  intros Hc (Hp & Hcs & Hq). unfold reach.
  destruct (prop_allowed excluded_props p); [|done].
  destruct (fr_props e !! p) as [[[cst|] rb m]|]; try done.
  split; [|split]; simpl; [| done |].
  - apply Forall_insert; [done |]. simpl. by intros c' [= <-].
  - apply Forall_app. split; [done |]. by repeat constructor.
Qed.

Lemma fire_nonneg i r acc e :
  (0 <= acc)%Z -> (0 <= uo_base_cost r)%Z -> costs_nonneg e ->
  costs_nonneg (fire excluded_props excluded_ops i r acc e).
Proof.
  intros Ha Hb He. unfold fire. destruct (rule_enabled excluded_ops r); [|done].
  apply reach_nonneg; [lia | done].
Qed.

Lemma satisfy_rule_nonneg f c i r e :
  (0 <= c)%Z -> (0 <= uo_base_cost r)%Z -> costs_nonneg e ->
  costs_nonneg (satisfy_rule excluded_props excluded_ops f c i r e).
Proof.
  intros Hc Hb He. unfold satisfy_rule. destruct (bool_decide _); [|done].
  destruct (fr_counters e !! i) as [[[|u] a]|] eqn:Hi; try done.
  assert (Ha : (0 <= a)%Z).
  { destruct He as (_ & Hcs & _). rewrite Forall_lookup in Hcs.
    apply (Hcs i (S u, a) Hi). }
  assert (He1 : costs_nonneg {| fr_props := fr_props e;
                                fr_counters := <[i := (u, (a + c)%Z)]> (fr_counters e);
                                fr_queue := fr_queue e |}).
  { destruct He as (Hp & Hcs & Hq). split; [done |]. split; [|done]. simpl.
    apply Forall_insert; [done |]. simpl. lia. }
  destruct u; [|done]. apply fire_nonneg; [lia | done | done].
Qed.

Lemma satisfy_from_nonneg f c rs :
  (0 <= c)%Z -> Forall (fun r => (0 <= uo_base_cost r)%Z) rs ->
  forall i e, costs_nonneg e ->
    costs_nonneg (satisfy_from excluded_props excluded_ops f c i rs e).
Proof.
  intros Hc Hrs. induction Hrs as [|r rs Hr _ IH]; intros i e He; simpl; [done |].
  by apply IH, satisfy_rule_nonneg.
Qed.

Lemma relaxed_exploration_nonneg fuel :
  Forall (fun r => (0 <= uo_base_cost r)%Z) rules ->
  forall e, costs_nonneg e ->
    costs_nonneg (relaxed_exploration rules excluded_props excluded_ops fuel e).
Proof.
  intros Hrules. induction fuel as [|fuel IH]; intros e He; simpl; [done |].
  destruct (pop_min (fr_queue e)) as [[[c f] rest]|] eqn:Hpop; [|done].
  apply pop_min_perm in Hpop. destruct He as (Hp & Hcs & Hq).
  rewrite Hpop in Hq. apply Forall_cons in Hq as [Hc Hrest]. simpl in Hc.
  apply IH, satisfy_from_nonneg; [done | done |]. by split.
Qed.

Lemma setup_nonneg n :
  Forall (fun r => (0 <= uo_base_cost r)%Z) rules ->
  costs_nonneg (setup_exploration_queue rules excluded_props excluded_ops n seeds).
Proof.
  intros Hrules. unfold setup_exploration_queue.
  assert (Hfree : forall rs, Forall (fun r => (0 <= uo_base_cost r)%Z) rs ->
            forall i e, costs_nonneg e ->
              costs_nonneg (fire_free_from excluded_props excluded_ops i rs e)).
  { intros rs Hrs. induction Hrs as [|r rs Hr _ IH]; intros i e He; simpl; [done |].
    apply IH. destruct (uo_preconditions r); [|done]. by apply fire_nonneg. }
  apply Hfree; [done |].
  assert (Hseed : forall l e, costs_nonneg e ->
            costs_nonneg (foldl (fun e p => reach excluded_props p 0%Z NO_OP e) e l)).
  { induction l as [|p l IH]; intros e He; simpl; [done |].
    by apply IH, reach_nonneg. }
  apply Hseed. split; [|split]; simpl.
  - by apply Forall_replicate.
  - apply Forall_fmap, Forall_forall. by intros r _.
  - constructor.
Qed.

(** With non-negative rule costs, every cost a run assigns is
    non-negative. *)
Lemma explore_nonneg n p nd c :
  Forall (fun r => (0 <= uo_base_cost r)%Z) rules ->
  explore rules excluded_props excluded_ops n seeds !! p = Some nd ->
  cost nd = Some c -> (0 <= c)%Z.
Proof.
  intros Hrules Hp Hc. unfold explore in Hp.
  destruct (relaxed_exploration_nonneg (S n) Hrules _ (setup_nonneg n Hrules))
    as (Hprops & _). rewrite Forall_lookup in Hprops. by eapply Hprops.
Qed.
End EngineInvariant.

(** ** Fact ids and compiled rules *)

Lemma prop_offset_S doms v d :
  doms !! v = Some d -> prop_offset doms (S v) = prop_offset doms v + d.
Proof.
  intros Hd. unfold prop_offset. rewrite (take_S_r _ _ _ Hd), sum_list_with_app.
  simpl. lia.
Qed.

Lemma prop_offset_mono doms v v' :
  v <= v' -> prop_offset doms v <= prop_offset doms v'.
Proof.
  induction 1 as [|v' _ IH]; [done |].
  destruct (doms !! v') as [d|] eqn:Hd.
  - rewrite (prop_offset_S _ _ _ Hd). lia.
  - unfold prop_offset in *. apply lookup_ge_None in Hd.
    rewrite (take_ge doms (S v')) by lia. rewrite (take_ge doms v') in IH by lia. done.
Qed.

Lemma get_prop_id_inj task f g :
  fact_in_range task f -> fact_in_range task g ->
  get_prop_id task f = get_prop_id task g -> f = g.
Proof.
  intros (df & Hdf & Hf) (dg & Hdg & Hg). unfold get_prop_id.
  destruct f as [vf xf], g as [vg xg]. simpl in *. intros Heq.
  destruct (Nat.lt_trichotomy vf vg) as [Hlt | [-> | Hlt]].
  - pose proof (prop_offset_S _ _ _ Hdf).
    pose proof (prop_offset_mono (task_variables task) (S vf) vg Hlt). lia.
  - f_equal. lia.
  - pose proof (prop_offset_S _ _ _ Hdg).
    pose proof (prop_offset_mono (task_variables task) (S vg) vf Hlt). lia.
Qed.

Lemma elem_of_state_props task s p :
  p ∈ state_props task s <->
  exists v x, s !! v = Some x /\ p = get_prop_id task (mkFact v x).
Proof.
  unfold state_props. rewrite elem_of_lookup_imap. split.
  - intros (v & x & -> & Hv). eauto.
  - intros (v & x & Hv & ->). eauto.
Qed.

(** A fact whose id is the id of a state fact holds in the state. *)
Lemma state_prop_holds task s f :
  state_in_range task s -> fact_in_range task f ->
  get_prop_id task f ∈ state_props task s ->
  s !! var f = Some (value f).
Proof.
  intros [Hlen Hdom] Hf (v & x & Hvx & Heq)%elem_of_state_props.
  assert (Hr : fact_in_range task (mkFact v x)).
  { destruct (task_variables task !! v) as [d|] eqn:Hd.
    - exists d. split; [done |]. simpl. eauto.
    - apply lookup_ge_None in Hd. apply lookup_lt_Some in Hvx. lia. }
  apply (get_prop_id_inj task _ _ Hf Hr) in Heq. by subst f.
Qed.

Lemma elem_of_concat {A : Type} (x : A) (ls : list (list A)) :
  x ∈ concat ls <-> exists l, l ∈ ls /\ x ∈ l.
Proof.
  split.
  - intros (l & Hl & Hx)%list_elem_of_In%in_concat.
    exists l. split; by apply list_elem_of_In.
  - intros (l & Hl & Hx). apply list_elem_of_In, in_concat.
    exists l. split; by apply list_elem_of_In.
Qed.

(** The owner of a compiled rule is the axiom sentinel or the index of an
    operator all of whose preconditions are preconditions of the rule. *)
Lemma build_unary_operators_owner task r :
  r ∈ build_unary_operators task ->
  uo_operator_no r = (-1)%Z \/
  exists o op, uo_operator_no r = Z.of_nat o /\
               task_operators task !! o = Some op /\
               forall f, f ∈ preconditions op ->
                         get_prop_id task f ∈ uo_preconditions r.
Proof.
  unfold build_unary_operators. intros [Hr | Hr]%elem_of_app.
  - right. apply elem_of_concat in Hr as (l & Hl & Hr).
    apply elem_of_lookup_imap in Hl as (o & op & -> & Hop).
    apply list_elem_of_fmap in Hr as (e & -> & He).
    exists o, op. split; [done |]. split; [done |].
    intros f Hf. simpl. apply elem_of_remove_dups.
    apply list_elem_of_fmap_2, elem_of_app. by left.
  - left. apply elem_of_concat in Hr as (l & Hl & Hr).
    apply list_elem_of_fmap in Hl as (a & -> & Ha).
    by apply list_elem_of_fmap in Hr as (e & -> & He).
Qed.

(** The rules compiled from axioms carry the sentinel; those compiled from
    operators carry a non-negative operator index. *)
Lemma build_unary_operators_axiom task a e :
  a ∈ task_axioms task -> e ∈ effects a ->
  compile_effect task (-1)%Z 0%Z a e ∈ build_unary_operators task.
Proof.
  intros Ha He. unfold build_unary_operators. apply elem_of_app. right.
  apply elem_of_concat. eexists. split.
  - apply list_elem_of_fmap_2. exact Ha.
  - by apply list_elem_of_fmap_2.
Qed.

Lemma is_applicable_true o s :
  (forall f, f ∈ preconditions o -> s !! var f = Some (value f)) ->
  is_applicable o s = true.
Proof.
  intros H. unfold is_applicable. apply forallb_forall. intros f Hf.
  apply bool_decide_eq_true. apply H. by apply list_elem_of_In.
Qed.

Lemma is_applicable_holds o s f :
  is_applicable o s = true -> f ∈ preconditions o -> s !! var f = Some (value f).
Proof.
  unfold is_applicable. rewrite forallb_forall. intros H Hf.
  apply list_elem_of_In in Hf. by apply H, bool_decide_eq_true in Hf.
Qed.

(** ** Marking on the table of an exploration run *)

Lemma reached_same_nodes ps ps' q :
  Forall2 same_node ps ps' -> reached ps q -> reached ps' q.
Proof.
  intros H (n & Hn & Hc).
  destruct (Forall2_lookup_l _ _ _ _ _ H Hn) as (n' & Hn' & (Hcost & _ & _)).
  exists n'. split; [done |]. by rewrite Hcost.
Qed.

Lemma props_inv_same_nodes rules seeds ps ps' :
  Forall2 same_node ps ps' -> props_inv rules seeds ps -> props_inv rules seeds ps'.
Proof.
  intros H [Hseed Hach]. split.
  - intros p n' Hn' Hc Hrb.
    destruct (Forall2_lookup_r _ _ _ _ _ H Hn') as (n & Hn & (Hcost & Hr & _)).
    apply (Hseed p n Hn); congruence.
  - intros p n' Hn' Hrb.
    destruct (Forall2_lookup_r _ _ _ _ _ H Hn') as (n & Hn & (Hcost & Hr & _)).
    destruct (Hach p n Hn) as (i & r & Hi & Hri & Hall); [congruence |].
    exists i, r. repeat split; [congruence | done |].
    eapply Forall_impl; [exact Hall |]. intros q. by apply reached_same_nodes.
Qed.

Lemma ready_evolves state h h' : evolves state h h' -> ready state h -> ready state h'.
Proof.
  intros [Ht _ _ Hp Hl _] [Hinv Hlen]. split.
  - unfold unary_operators. rewrite Ht. by eapply props_inv_same_nodes.
  - by rewrite Hl, Ht.
Qed.

Lemma get_proposition_Done h g p :
  propositions h !! g = Some p -> get_proposition h g = Done p.
Proof. intros H. unfold get_proposition, at_index. by rewrite H. Qed.

Lemma at_index_Z_of_nat {A : Type} (l : list A) (i : nat) (a : A) :
  l !! i = Some a -> at_index_Z l (Z.of_nat i) = Done a.
Proof.
  intros H. unfold at_index_Z, at_index.
  destruct (Z.ltb_spec (Z.of_nat i) 0); [lia |]. by rewrite Nat2Z.id, H.
Qed.

Lemma mark_done state :
  forall fuel h goal_id,
    task_ok (ff_task h) -> state_in_range (ff_task h) state -> ready state h ->
    reached (propositions h) goal_id ->
    unmarked (propositions h) < fuel ->
    ensures (evolves state h) (fun _ => False)
            (mark_preferred_operators_and_relaxed_plan fuel h state goal_id).
Proof.
  induction fuel as [|fuel IH]; intros h goal_id Hok Hst Hrd Hgoal Hfuel; [lia |].
  rewrite mark_unfold.
  destruct Hgoal as (goal & Hlk & Hcost).
  rewrite (get_proposition_Done _ _ _ Hlk), bind_Done.
  destruct (marked goal) eqn:Hm; [apply evolves_refl |].
  cbv zeta.
  assert (Hev1 : evolves state h (set_marked h goal_id)) by apply set_marked_evolves.
  assert (Hcount : unmarked (propositions (set_marked h goal_id)) < fuel).
  { pose proof (set_marked_unmarked _ _ _ Hlk Hm). lia. }
  destruct (Z.eqb_spec (reached_by goal) NO_OP) as [|Hrb]; [done |].
  destruct (inv_achiever _ _ _ (rd_props _ _ Hrd) _ _ Hlk Hrb)
    as (i & r & Hi & Hr & Hpre).
  assert (Hget : get_operator (set_marked h goal_id) (reached_by goal) = Done r).
  { unfold get_operator. rewrite Hi. by apply at_index_Z_of_nat. }
  rewrite Hget, bind_Done.
  eapply ensures_bind with
    (P := fun st => evolves state (set_marked h goal_id) st.1 /\
                    (st.2 = true ->
                     Forall (fun q => exists n, propositions h !! q = Some n /\
                                                reached_by n = NO_OP)
                            (uo_preconditions r))).
  { apply (for_each_prefix _
             (fun pre st => evolves state (set_marked h goal_id) st.1 /\
                (st.2 = true ->
                 Forall (fun q => exists n, propositions h !! q = Some n /\
                                            reached_by n = NO_OP) pre))
             (fun _ => False) (uo_preconditions r) []).
    { split; [apply evolves_refl | constructor]. }
    intros pre precond [h1 pref] Hin [Hh1 Hpref]. cbn [fst snd] in *.
    assert (Hall : evolves state h h1) by eauto using evolves_trans.
    assert (Hreached : reached (propositions h) precond).
    { rewrite Forall_forall in Hpre. by apply Hpre. }
    eapply ensures_bind.
    - apply IH.
      + by rewrite (ev_task _ _ _ Hall).
      + by rewrite (ev_task _ _ _ Hall).
      + by eapply ready_evolves.
      + eapply reached_same_nodes; [exact (ev_props _ _ _ Hall) | done].
      + pose proof (unmarked_same_nodes _ _ (ev_props _ _ _ Hh1)). lia.
    - intros h2 Hh2. cbv beta in Hh2.
      assert (Hall2 : evolves state h h2) by eauto using evolves_trans.
      destruct Hreached as (n & Hn & Hc).
      destruct (Forall2_lookup_l _ _ _ _ _ (ev_props _ _ _ Hall2) Hn)
        as (n2 & Hn2 & (_ & Hrb2 & _)).
      rewrite (get_proposition_Done _ _ _ Hn2), bind_Done.
      cbn [ensures fst snd]. split; [eauto using evolves_trans |].
      destruct (Z.eqb_spec (reached_by n2) NO_OP) as [Heq|]; [|done].
      intros Htrue. apply Forall_app. split; [auto |].
      constructor; [|constructor]. exists n. split; [done | congruence]. }
  intros [h1 pref] [Hh1 Hpref]. cbn [fst snd] in *.
  assert (Hall : evolves state h h1) by eauto using evolves_trans.
  destruct (Z.eqb_spec (uo_operator_no r) (-1)) as [|Hax]; [done |].
  destruct (build_unary_operators_owner (ff_task h) r)
    as [? | (o & op & Ho & Hop & Hsub)]; [| done |].
  { apply list_elem_of_lookup. eauto. }
  assert (Hlen : o < length (relaxed_plan h1)).
  { rewrite (ev_plan _ _ _ Hall), (rd_plan _ _ Hrd). by eapply lookup_lt_Some. }
  destruct (lookup_lt_is_Some_2 _ _ Hlen) as [b Hb].
  rewrite Ho, (at_index_Z_of_nat _ _ _ Hb), bind_Done. cbv zeta.
  set (h2 := with_relaxed_plan h1 _).
  assert (Hh2 : evolves state h h2).
  { eapply evolves_trans; [exact Hall | apply with_relaxed_plan_evolves]. }
  destruct pref; [|done].
  assert (Hop2 : task_operators (ff_task h2) !! o = Some op).
  { change (ff_task h2) with (ff_task h1). by rewrite (ev_task _ _ _ Hall). }
  rewrite (at_index_Z_of_nat _ _ _ Hop2), bind_Done.
  assert (Happ : is_applicable op state = true).
  { apply is_applicable_true. intros f Hf.
    apply (state_prop_holds (ff_task h)); [done | |].
    - destruct Hok as [Hops _ _ _]. rewrite Forall_forall in Hops.
      assert (Hin : op ∈ task_operators (ff_task h))
        by (apply list_elem_of_lookup; eauto).
      destruct (Hops op Hin) as [Hpres _]. rewrite Forall_forall in Hpres. auto.
    - specialize (Hpref eq_refl). rewrite Forall_forall in Hpref.
      destruct (Hpref _ (Hsub f Hf)) as (n & Hn & Hnb).
      apply (inv_seeded _ _ _ (rd_props _ _ Hrd) _ n); [done | | done].
      rewrite Forall_forall in Hpre. destruct (Hpre _ (Hsub f Hf)) as (n' & Hn' & Hc').
      congruence. }
  rewrite Happ. cbn [ensures]. eapply evolves_trans; [exact Hh2 |].
  rewrite Nat2Z.id. by eapply set_preferred_evolves.
Qed.

(** ** The phases of one evaluation *)

Lemma for_each_split {A S : Type} (body : S -> A -> outcome S)
    (I : list A -> S -> Prop) (E : failure -> Prop) (all : list A) :
  forall (xs pre : list A) (s : S),
    all = pre ++ xs ->
    I pre s ->
    (forall pre' x suf s',
        all = pre' ++ x :: suf -> I pre' s' -> ensures (I (pre' ++ [x])) E (body s' x)) ->
    ensures (I all) E (for_each body xs s).
Proof.
  induction xs as [|x xs IH]; intros pre s Hall HI Hbody; simpl.
  - by rewrite Hall, app_nil_r.
  - apply ensures_bind with (P := I (pre ++ [x])).
    + by apply (Hbody pre x xs).
    + intros s' Hs'. apply (IH (pre ++ [x])); [|done|done].
      by rewrite <- app_assoc.
Qed.

Lemma compute_add_and_ff_fields h state :
  let h1 := (compute_add_and_ff h state).1 in
  ff_task h1 = ff_task h /\ relaxed_plan h1 = relaxed_plan h /\
  preferred_operators h1 = preferred_operators h /\
  use_learned_weights h1 = use_learned_weights h /\ op_weights h1 = op_weights h.
Proof. by repeat split. Qed.

Lemma compute_add_and_ff_ready h state :
  length (relaxed_plan h) = length (task_operators (ff_task h)) ->
  ready state (compute_add_and_ff h state).1.
Proof.
  intros Hlen. split; [|done]. simpl. apply explore_inv.
Qed.

(** The additive estimate is the sentinel as soon as some goal fact has no
    finite cost after the exploration; otherwise every goal is reached. *)
Lemma compute_add_and_ff_alive h state :
  (compute_add_and_ff h state).2 <> DEAD_END ->
  Forall (reached (propositions (compute_add_and_ff h state).1)) (goal_propositions h).
Proof.
  unfold compute_add_and_ff. cbn [fst snd with_propositions propositions].
  set (props := explore _ _ _ _ _).
  destruct (forallb _ _) eqn:Hall; [intros _ | done].
  rewrite forallb_forall in Hall. apply Forall_forall. intros g Hg.
  specialize (Hall (props !! g ≫= cost)).
  assert (Hin : In (props !! g ≫= cost)
                   (map (fun g => props !! g ≫= cost) (goal_propositions h))).
  { apply in_map_iff. exists g. split; [done |]. by apply list_elem_of_In. }
  apply Hall, bool_decide_eq_true in Hin.
  destruct (props !! g) as [n|] eqn:Hn; simpl in Hin; [|by destruct Hin].
  by exists n.
Qed.

Lemma compute_add_and_ff_dead h state g :
  g ∈ goal_propositions h ->
  ~ reached (propositions (compute_add_and_ff h state).1) g ->
  (compute_add_and_ff h state).2 = DEAD_END.
Proof.
  intros Hg Hun. destruct (decide ((compute_add_and_ff h state).2 = DEAD_END)) as [|Hne];
    [done |].
  apply compute_add_and_ff_alive in Hne. rewrite Forall_forall in Hne.
  by destruct Hun; apply Hne.
Qed.

Lemma unmarked_le ps : unmarked ps <= length ps.
Proof. apply length_filter. Qed.

Lemma mark_goals_done h state :
  task_ok (ff_task h) -> state_in_range (ff_task h) state -> ready state h ->
  Forall (reached (propositions h)) (goal_propositions h) ->
  ensures (evolves state h) (fun _ => False) (mark_goals h state).
Proof.
  intros Hok Hst Hrd Hgoals. unfold mark_goals.
  apply for_each_inv; [apply evolves_refl |].
  intros g h' Hg Hev. eapply ensures_weaken with (E := fun _ => False); [| |done].
  - apply mark_done.
    + by rewrite (ev_task _ _ _ Hev).
    + by rewrite (ev_task _ _ _ Hev).
    + by eapply ready_evolves.
    + eapply reached_same_nodes; [exact (ev_props _ _ _ Hev) |].
      rewrite Forall_forall in Hgoals. by apply Hgoals.
    + pose proof (unmarked_le (propositions h')). lia.
  - intros h'' Hev'. eauto using evolves_trans.
Qed.

Lemma map_subscript_spec (m : gmap string float) (k : string) :
  (map_subscript m k).1 = default 0%float (m !! k) /\
  forall k', default 0%float ((map_subscript m k).2 !! k') = default 0%float (m !! k').
Proof.
  unfold map_subscript. destruct (m !! k) eqn:Hk; simpl; [done |].
  split; [done |]. intros k'. destruct (decide (k = k')) as [<-|Hne].
  - by rewrite lookup_insert_eq, Hk.
  - by rewrite lookup_insert_ne.
Qed.

Lemma filter_snoc_True {A : Type} (P : A -> Prop) `{forall a, Decision (P a)}
    (pre : list A) (x : A) :
  P x -> filter P (pre ++ [x]) = filter P pre ++ [x].
Proof.
  intros Hx. rewrite filter_app, filter_cons, filter_nil. by destruct (decide (P x)).
Qed.

Lemma filter_snoc_False {A : Type} (P : A -> Prop) `{forall a, Decision (P a)}
    (pre : list A) (x : A) :
  ~ P x -> filter P (pre ++ [x]) = filter P pre.
Proof.
  intros Hx. rewrite filter_app, filter_cons, filter_nil.
  destruct (decide (P x)); [done |]. by rewrite app_nil_r.
Qed.

Lemma cost_sum_snoc task l x :
  cost_sum task (l ++ [x]) = wrap_int (cost_sum task l + op_cost (operator_at task x)).
Proof. unfold cost_sum. by rewrite foldl_app. Qed.

Lemma weight_sum_snoc task m l x :
  weight_sum task m (l ++ [x])
  = (weight_sum task m l + weight_of m (operator_at task x))%float.
Proof. unfold weight_sum. by rewrite foldl_app. Qed.

Lemma tally_step h0 pre x suf st :
  seq 0 (length (relaxed_plan h0)) = pre ++ x :: suf ->
  length (relaxed_plan h0) = length (task_operators (ff_task h0)) ->
  tallied h0 pre st ->
  ensures (tallied h0 (pre ++ [x])) (fun _ => False) (tally st x).
Proof.
  intros Hseq Hops [Ht Hp Hpr Hl Hlen Hcl Hre Hw Hwo Hc Ha].
  destruct st as [[h h_ff] adj]. cbn [fst snd] in *.
  assert (Hx : x < length (relaxed_plan h0)).
  { assert (Hin : x ∈ seq 0 (length (relaxed_plan h0))).
    { rewrite Hseq. apply elem_of_app. right. by left. }
    apply elem_of_seq in Hin. lia. }
  assert (Hfresh : x ∉ pre).
  { pose proof (NoDup_seq 0 (length (relaxed_plan h0))) as Hnd.
    rewrite Hseq in Hnd. apply NoDup_app in Hnd as (_ & Hdisj & _).
    intros Hin. apply (Hdisj x Hin). by left. }
  destruct (lookup_lt_is_Some_2 (relaxed_plan h0) x Hx) as [b Hb].
  assert (Hcur : relaxed_plan h !! x = Some b) by (by rewrite Hre).
  assert (Hopx : is_Some (task_operators (ff_task h0) !! x)).
  { apply lookup_lt_is_Some_2. lia. }
  destruct Hopx as [op Hop].
  unfold tally. rewrite (at_index_Done _ _ _ Hcur), bind_Done.
  destruct b.
  - cbv zeta. cbn [with_relaxed_plan ff_task use_learned_weights op_weights].
    rewrite Ht, (at_index_Done _ _ _ Hop), bind_Done, Hl.
    assert (Hopat : operator_at (ff_task h0) x = op).
    { unfold operator_at. by rewrite Hop. }
    assert (Hclear : forall i, i ∈ pre ++ [x] -> i < length (relaxed_plan h0) ->
              <[x := false]> (relaxed_plan h) !! i = Some false).
    { intros i [Hi | Hi]%elem_of_app Hlt.
      - destruct (decide (x = i)) as [->|Hne]; [done |].
        rewrite list_lookup_insert_ne by done. auto.
      - apply list_elem_of_singleton in Hi as ->.
        apply list_lookup_insert_eq. lia. }
    assert (Hrest : forall i, i ∉ pre ++ [x] ->
              <[x := false]> (relaxed_plan h) !! i = relaxed_plan h0 !! i).
    { intros i Hi. apply not_elem_of_app in Hi as [Hi1 Hi2].
      rewrite list_lookup_insert_ne; [auto |].
      intros ->. apply Hi2. by left. }
    assert (Hcost : wrap_int (h_ff + op_cost op) =
              cost_sum (ff_task h0)
                (filter (fun i => relaxed_plan h0 !! i = Some true) (pre ++ [x]))).
    { rewrite filter_snoc_True by done. by rewrite cost_sum_snoc, Hopat, Hc. }
    destruct (use_learned_weights h0) eqn:Hlearned.
    + destruct (map_subscript_spec (op_weights h) (up_to_blank (name op))) as [Hw1 Hw2].
      destruct (map_subscript (op_weights h) (up_to_blank (name op))) as [w m].
      cbn [fst snd] in *. cbn [ensures].
      split; simpl; try done; try congruence.
      * by rewrite length_insert.
      * rewrite Hlearned, filter_snoc_True by done.
        rewrite weight_sum_snoc, Hopat, Ha. unfold weight_of.
        by rewrite <- Hw, Hw1.
    + cbn [ensures].
      split; simpl; rewrite ?Hlearned, ?length_insert; try done; try congruence; auto.
  - assert (Hnot : relaxed_plan h0 !! x <> Some true) by congruence.
    cbn [ensures].
    split; simpl; try done.
    + intros i [Hi | Hi]%elem_of_app Hlt; [auto |].
      by apply list_elem_of_singleton in Hi as ->.
    + intros i Hi. apply not_elem_of_app in Hi as [Hi1 _]. auto.
    + by rewrite filter_snoc_False.
    + by rewrite filter_snoc_False.
Qed.

Lemma plan_ops_cleared (rp : list bool) :
  (forall i, i < length rp -> rp !! i = Some false) -> Forall (fun b => b = false) rp.
Proof.
  intros H. apply Forall_lookup. intros i b Hb.
  rewrite (H i) in Hb by (by eapply lookup_lt_Some). by injection Hb.
Qed.

Lemma tally_plan_spec h :
  length (relaxed_plan h) = length (task_operators (ff_task h)) ->
  ensures (tallied h (seq 0 (length (relaxed_plan h)))) (fun _ => False) (tally_plan h).
Proof.
  intros Hops. unfold tally_plan.
  apply (for_each_split tally (tallied h) (fun _ => False)
           (seq 0 (length (relaxed_plan h))) _ []); [done | |].
  - split; cbn [fst snd]; try done.
    + intros i Hi. by apply elem_of_nil in Hi.
    + by destruct (use_learned_weights h).
  - intros pre x suf st Hseq Hst. by eapply tally_step.
Qed.

Lemma compute_heuristic_dead h state :
  (compute_add_and_ff h state).2 = DEAD_END ->
  compute_heuristic h state = Done ((compute_add_and_ff h state).1, DEAD_END).
Proof.
  intros Hdead. unfold compute_heuristic, convert_ancestor_state.
  destruct (compute_add_and_ff h state) as [h1 h_add]. simpl in Hdead. by subst.
Qed.

(** An evaluation of a state whose goals are all reached: both loops run to
    their end, and the value is read off the tallies. *)
Lemma compute_heuristic_alive h state :
  task_ok (ff_task h) -> state_in_range (ff_task h) state ->
  length (relaxed_plan h) = length (task_operators (ff_task h)) ->
  (compute_add_and_ff h state).2 <> DEAD_END ->
  exists hm hf h_ff adj,
    mark_goals (compute_add_and_ff h state).1 state = Done hm /\
    evolves state (compute_add_and_ff h state).1 hm /\
    tallied hm (seq 0 (length (relaxed_plan hm))) (hf, h_ff, adj) /\
    compute_heuristic h state =
      if use_learned_weights h
      then match ceil_to_int adj with
           | Some v => Done (hf, v)
           | None => Abort ConversionUndefined
           end
      else Done (hf, h_ff).
Proof.
  intros Hok Hst Hlen Halive.
  pose proof (compute_add_and_ff_ready h state Hlen) as Hrd.
  pose proof (compute_add_and_ff_alive h state Halive) as Hgoals.
  unfold compute_heuristic, convert_ancestor_state.
  destruct (compute_add_and_ff h state) as [h1 h_add] eqn:Hadd.
  cbn [fst snd] in *.
  assert (Hfields : ff_task h1 = ff_task h /\ use_learned_weights h1 = use_learned_weights h).
  { pose proof (compute_add_and_ff_fields h state) as Hf. rewrite Hadd in Hf.
    simpl in Hf. tauto. }
  destruct Hfields as [Ht1 Hl1].
  destruct (Z.eqb_spec h_add DEAD_END) as [|_]; [done |].
  assert (Hgoals1 : Forall (reached (propositions h1)) (goal_propositions h1)).
  { unfold goal_propositions in *. by rewrite Ht1. }
  destruct (ensures_Done _ _ (mark_goals_done h1 state
              ltac:(by rewrite Ht1) ltac:(by rewrite Ht1) Hrd Hgoals1))
    as (hm & Hm & Hev).
  rewrite Hm, bind_Done.
  assert (Hlenm : length (relaxed_plan hm) = length (task_operators (ff_task hm))).
  { rewrite (ev_plan _ _ _ Hev), (ev_task _ _ _ Hev). apply (rd_plan _ _ Hrd). }
  destruct (ensures_Done _ _ (tally_plan_spec hm Hlenm)) as ([[hf h_ff] adj] & Ht & Htl).
  rewrite Ht, bind_Done.
  exists hm, hf, h_ff, adj. split; [done |]. split; [done |]. split; [done |].
  pose proof (tl_learned _ _ _ Htl) as Hl. cbn [fst] in Hl.
  by rewrite Hl, (ev_learned _ _ _ Hev), Hl1.
Qed.

Lemma tallied_all_false hm st :
  tallied hm (seq 0 (length (relaxed_plan hm))) st ->
  Forall (fun b => b = false) (relaxed_plan st.1.1).
Proof.
  intros Htl. apply plan_ops_cleared. intros i Hi.
  rewrite (tl_len _ _ _ Htl) in Hi.
  apply (tl_cleared _ _ _ Htl); [|done]. apply elem_of_seq. lia.
Qed.


(** ** The example objects are what the constructor builds *)

Example gripper_learned_constructed :
  FFHeuristic_new gripper_task true ["pick-up"; "put-down"] [1.5%float; 2.25%float]
  = Done gripper_learned.
Proof. vm_compute. reflexivity. Qed.

Example gripper_negative_constructed :
  FFHeuristic_new gripper_task true ["pick-up"; "put-down"] [0.25%float; (-1.25)%float]
  = Done gripper_negative.
Proof. vm_compute. reflexivity. Qed.

Example gripper_partial_constructed :
  FFHeuristic_new gripper_task true ["pick-up"] [1.5%float] = Done gripper_partial.
Proof. vm_compute. reflexivity. Qed.

Example mismatched_lists_rejected :
  FFHeuristic_new gripper_task true ["pick-up"; "put-down"] [1.5%float]
  = Abort AssertionFailed.
Proof. reflexivity. Qed.

Lemma gripper_task_ok : task_ok gripper_task.
Proof.
  split.
  - repeat constructor; solve_fact_range.
  - constructor.
  - solve_state_range.
  - repeat constructor; solve_fact_range.
Qed.

Lemma gripper_state_ok : state_in_range gripper_task [0; 0].
Proof. solve_state_range. Qed.

(** ** Claims about the FF heuristic *)

(** C8.  The backward chaining that builds the relaxed plan terminates for
    every input: whatever the object, the state and the proposition it starts
    from, also when the first-achiever links run in circles, a chain never
    uses up a recursion budget that exceeds the number of unmarked
    propositions, because every nested call is made after one more
    proposition has been marked; and a chain that starts from a marked
    proposition returns at once and leaves the object as it is. *)
Theorem backward_chain_terminates :
  forall (h : FFHeuristic) (state : State) (goal_id : PropID) (extra : nat),
    mark_preferred_operators_and_relaxed_plan
      (S (unmarked (propositions h)) + extra) h state goal_id <> Abort OutOfFuel /\
    mark_preferred_operators_and_relaxed_plan
      (S (length (propositions h))) h state goal_id <> Abort OutOfFuel /\
    (forall goal, propositions h !! goal_id = Some goal -> marked goal = true ->
       mark_preferred_operators_and_relaxed_plan (S extra) h state goal_id = Done h).
Proof.
  intros h state goal_id extra. split; [|split].
  - pose proof (mark_within_budget state (S (unmarked (propositions h)) + extra)
                  h goal_id ltac:(lia)) as H.
    intros Heq. rewrite Heq in H. by apply H.
  - pose proof (unmarked_le (propositions h)) as Hle.
    pose proof (mark_within_budget state (S (length (propositions h)))
                  h goal_id ltac:(lia)) as H.
    intros Heq. rewrite Heq in H. by apply H.
  - intros goal Hgoal Hm. rewrite mark_unfold.
    by rewrite (get_proposition_Done _ _ _ Hgoal), bind_Done, Hm.
Qed.

Lemma backward_chain_terminates_witness :
  mark_preferred_operators_and_relaxed_plan
    (S (length (propositions circular_heuristic))) circular_heuristic [0; 0] 3
  <> Abort OutOfFuel /\
  (propositions (set_marked circular_heuristic 3) !! 3
   = Some (mkProp (Some 1%Z) 0 true) /\
   marked (mkProp (Some 1%Z) 0 true) = true) /\
  mark_preferred_operators_and_relaxed_plan 1 (set_marked circular_heuristic 3) [0; 0] 3
  = Done (set_marked circular_heuristic 3).
Proof.
  split; [|split].
  - exact (proj1 (proj2 (backward_chain_terminates circular_heuristic [0; 0] 3 0))).
  - split; reflexivity.
  - exact (proj2 (proj2 (backward_chain_terminates (set_marked circular_heuristic 3)
                           [0; 0] 3 0))
             (mkProp (Some 1%Z) 0 true) eq_refl eq_refl).
Defined.

(** A table whose first-achiever links form a cycle: the chain from
    proposition 3 visits proposition 1, comes back to 3, finds it marked and
    returns with both operators in the relaxed plan. *)
Example circular_chain_returns :
  exists h',
    mark_preferred_operators_and_relaxed_plan 5 circular_heuristic [0; 0] 3 = Done h' /\
    relaxed_plan h' = [true; true] /\
    map marked (propositions h') = [false; true; false; true].
Proof. eexists. split; [vm_compute; reflexivity |]. split; reflexivity. Qed.

(** What the constructor leaves behind: one cleared entry per operator. *)
Lemma fresh_heuristic_cleared task learned w :
  length (relaxed_plan (fresh_heuristic task learned w)) = length (task_operators task) /\
  Forall (fun b => b = false) (relaxed_plan (fresh_heuristic task learned w)).
Proof.
  simpl. split; [apply length_replicate |].
  apply Forall_forall. by intros b [-> _]%elem_of_replicate.
Qed.

(** One evaluation keeps the task, the mode and the size of the
    relaxed-plan array, and leaves the array cleared if it found it so. *)
Lemma compute_heuristic_step h state :
  task_ok (ff_task h) -> state_in_range (ff_task h) state ->
  length (relaxed_plan h) = length (task_operators (ff_task h)) ->
  Forall (fun b => b = false) (relaxed_plan h) ->
  ensures (fun r => ff_task r.1 = ff_task h /\
                    use_learned_weights r.1 = use_learned_weights h /\
                    length (relaxed_plan r.1) = length (relaxed_plan h) /\
                    Forall (fun b => b = false) (relaxed_plan r.1))
          (fun e => e = ConversionUndefined /\ use_learned_weights h = true)
          (compute_heuristic h state).
Proof.
  intros Hok Hst Hlen Hclear.
  destruct (decide ((compute_add_and_ff h state).2 = DEAD_END)) as [Hdead|Halive].
  - rewrite (compute_heuristic_dead _ _ Hdead). by repeat split.
  - destruct (compute_heuristic_alive h state Hok Hst Hlen Halive)
      as (hm & hf & h_ff & adj & Hm & Hev & Htl & Hres).
    rewrite Hres.
    pose proof (tallied_all_false _ _ Htl) as Hall. cbn [fst] in Hall.
    pose proof (tl_len _ _ _ Htl) as Hl. cbn [fst] in Hl.
    rewrite (ev_plan _ _ _ Hev) in Hl.
    change (relaxed_plan (compute_add_and_ff h state).1) with (relaxed_plan h) in Hl.
    pose proof (tl_task _ _ _ Htl) as Ht. cbn [fst] in Ht.
    rewrite (ev_task _ _ _ Hev) in Ht.
    change (ff_task (compute_add_and_ff h state).1) with (ff_task h) in Ht.
    pose proof (tl_learned _ _ _ Htl) as Hle. cbn [fst] in Hle.
    rewrite (ev_learned _ _ _ Hev) in Hle.
    change (use_learned_weights (compute_add_and_ff h state).1)
      with (use_learned_weights h) in Hle.
    destruct (use_learned_weights h) eqn:Hlearned; [|by repeat split].
    destruct (ceil_to_int adj); by repeat split.
Qed.

(** C9.  After an invocation of [compute_heuristic] returns, the dead-end
    return included, every entry of the relaxed-plan membership array is
    false again.  One call: if the array is all false before the call, it is
    all false, and of the same size, in the object the call leaves behind;
    the call returns for every state unless, in learned-weight mode, the
    final conversion of the ceiling to [int] is undefined.  All calls:
    starting from the object the constructor builds, the array is all false
    after every sequence of evaluations. *)
Theorem relaxed_plan_cleared :
  (forall (h : FFHeuristic) (state : State),
      task_ok (ff_task h) -> state_in_range (ff_task h) state ->
      length (relaxed_plan h) = length (task_operators (ff_task h)) ->
      Forall (fun b => b = false) (relaxed_plan h) ->
      ensures (fun r => Forall (fun b => b = false) (relaxed_plan r.1) /\
                        length (relaxed_plan r.1) = length (relaxed_plan h))
              (fun e => e = ConversionUndefined /\ use_learned_weights h = true)
              (compute_heuristic h state) /\
      (use_learned_weights h = false -> exists r, compute_heuristic h state = Done r)) /\
  (forall (task : Task) (learned : bool) (w : gmap string float) (states : list State),
      task_ok task -> Forall (state_in_range task) states ->
      ensures (fun h' => Forall (fun b => b = false) (relaxed_plan h'))
              (fun e => e = ConversionUndefined /\ learned = true)
              (evaluate_all (fresh_heuristic task learned w) states)).
Proof.
  split.
  - intros h state Hok Hst Hlen Hclear.
    pose proof (compute_heuristic_step h state Hok Hst Hlen Hclear) as Hstep.
    split.
    + eapply ensures_weaken; [exact Hstep | | done]. intros r (_ & _ & ? & ?). by split.
    + intros Hoff. destruct (compute_heuristic h state) as [r|e]; [eauto |].
      destruct Hstep as [_ Hon]. congruence.
  - intros task learned w states Hok Hstates. unfold evaluate_all.
    eapply ensures_weaken with
      (P := fun h' => ff_task h' = task /\ use_learned_weights h' = learned /\
                      length (relaxed_plan h') = length (task_operators task) /\
                      Forall (fun b => b = false) (relaxed_plan h'))
      (E := fun e => e = ConversionUndefined /\ learned = true);
      [| by intros h' (_ & _ & _ & ?) | done].
    apply for_each_inv.
    { split; [done |]. split; [done |]. apply fresh_heuristic_cleared. }
    intros state h' Hin (Ht & Hl & Hlen & Hclear).
    rewrite Forall_forall in Hstates.
    eapply ensures_bind.
    + eapply ensures_weaken;
        [apply (compute_heuristic_step h' state); rewrite ?Ht; auto
        | intros r Hr; exact Hr
        | intros e [-> Hon]; split; [done | congruence]].
    + intros [h'' v] (Ht' & Hl' & Hlen' & Hclear'). cbn [fst] in *.
      simpl. split; [congruence |]. split; [congruence |]. split; [congruence | done].
Qed.

Lemma relaxed_plan_cleared_witness :
  (task_ok gripper_task /\ state_in_range gripper_task [0; 0] /\
   length (relaxed_plan gripper_structural) = length (task_operators gripper_task) /\
   Forall (fun b => b = false) (relaxed_plan gripper_structural)) /\
  ensures (fun r => Forall (fun b => b = false) (relaxed_plan r.1) /\
                    length (relaxed_plan r.1) = length (relaxed_plan gripper_structural))
          (fun e => e = ConversionUndefined /\ use_learned_weights gripper_structural = true)
          (compute_heuristic gripper_structural [0; 0]).
Proof.
  assert (H1 : length (relaxed_plan gripper_structural)
               = length (task_operators gripper_task)) by reflexivity.
  assert (H2 : Forall (fun b => b = false) (relaxed_plan gripper_structural))
    by (repeat constructor).
  split.
  - split; [exact gripper_task_ok |]. split; [exact gripper_state_ok |]. by split.
  - exact (proj1 (proj1 relaxed_plan_cleared gripper_structural [0; 0]
                    gripper_task_ok gripper_state_ok H1 H2)).
Defined.

(** C6.  Every action marked preferred during a heuristic evaluation of a
    state is applicable in that state: an operator that is among the
    preferred operators after the call and was not before has each of its
    preconditions true in the evaluated state.  The applicability assertion
    of the source never fails: the call returns or, in learned-weight mode
    only, ends in the undefined final conversion. *)
Theorem preferred_operators_applicable :
  forall (h : FFHeuristic) (state : State),
    task_ok (ff_task h) -> state_in_range (ff_task h) state ->
    length (relaxed_plan h) = length (task_operators (ff_task h)) ->
    ensures (fun r =>
               forall o, o ∈ preferred_operators r.1 ->
                 o ∈ preferred_operators h \/
                 exists op, task_operators (ff_task h) !! o = Some op /\
                            is_applicable op state = true /\
                            forall f, f ∈ preconditions op ->
                                      state !! var f = Some (value f))
            (fun e => e = ConversionUndefined /\ use_learned_weights h = true)
            (compute_heuristic h state) /\
    compute_heuristic h state <> Abort AssertionFailed.
Proof.
  intros h state Hok Hst Hlen.
  destruct (decide ((compute_add_and_ff h state).2 = DEAD_END)) as [Hdead|Halive].
  - rewrite (compute_heuristic_dead _ _ Hdead). split; [|done].
    simpl. intros o Ho. by left.
  - destruct (compute_heuristic_alive h state Hok Hst Hlen Halive)
      as (hm & hf & h_ff & adj & Hm & Hev & Htl & Hres).
    rewrite Hres.
    assert (Hpref : forall o, o ∈ preferred_operators hf ->
              o ∈ preferred_operators h \/
              exists op, task_operators (ff_task h) !! o = Some op /\
                         is_applicable op state = true /\
                         forall f, f ∈ preconditions op ->
                                   state !! var f = Some (value f)).
    { intros o Ho. pose proof (tl_pref _ _ _ Htl) as Hp. cbn [fst] in Hp.
      rewrite Hp in Ho.
      destruct (ev_preferred _ _ _ Hev o Ho) as [Hin | (op & Hop & Happ)]; [by left |].
      right. exists op. split; [done |]. split; [done |].
      intros f Hf. by eapply is_applicable_holds. }
    destruct (use_learned_weights h); [|by split].
    destruct (ceil_to_int adj); by split.
Qed.

Lemma preferred_operators_applicable_witness :
  (task_ok gripper_task /\ state_in_range gripper_task [0; 0] /\
   length (relaxed_plan gripper_structural) = length (task_operators gripper_task)) /\
  compute_heuristic gripper_structural [0; 0] <> Abort AssertionFailed /\
  exists h' v, compute_heuristic gripper_structural [0; 0] = Done (h', v) /\
               preferred_operators h' = [0] /\
               is_applicable pick_up_a [0; 0] = true.
Proof.
  split; [|split].
  - split; [exact gripper_task_ok |]. split; [exact gripper_state_ok | reflexivity].
  - exact (proj2 (preferred_operators_applicable gripper_structural [0; 0]
                    gripper_task_ok gripper_state_ok eq_refl)).
  - eexists _, _. split; [vm_compute; reflexivity |]. split; reflexivity.
Defined.



(** C5, evaluated where it fails.  With the learned weights 0.25 and -1.25
    the goal of the gripper task is reached by the exploration (the additive
    estimate is 2, both operators are in the relaxed plan), and the value
    returned is the dead-end sentinel, the ceiling of -1.0. *)
Theorem negative_weights_return_sentinel :
  (compute_add_and_ff gripper_negative [0; 0]).2 = 2%Z /\
  Forall (reached (propositions (compute_add_and_ff gripper_negative [0; 0]).1))
         (goal_propositions gripper_negative) /\
  relaxed_plan_of gripper_negative [0; 0] = [0; 1] /\
  estimate (compute_heuristic gripper_negative [0; 0]) = Done DEAD_END.
Proof.
  split; [vm_compute; reflexivity |]. split; [|split; vm_compute; reflexivity].
  apply compute_add_and_ff_alive. vm_compute. discriminate.
Qed.

(** In the other direction the sentinel is always right: a state with an
    unreached goal fact is reported as a dead end in either mode. *)
Lemma unreached_goal_is_dead_end h state g :
  g ∈ goal_propositions h ->
  ~ reached (propositions (compute_add_and_ff h state).1) g ->
  estimate (compute_heuristic h state) = Done DEAD_END.
Proof.
  intros Hg Hun.
  by rewrite (compute_heuristic_dead _ _ (compute_add_and_ff_dead _ _ _ Hg Hun)).
Qed.

Example stuck_task_is_dead_end :
  estimate (compute_heuristic (fresh_heuristic stuck_task false ∅) [0; 0]) = Done DEAD_END.
Proof. vm_compute. reflexivity. Qed.

(** ** The weight table does not steer the backward chains *)










(** ** The structural estimate never collides with the sentinel *)

Lemma build_unary_operators_nonneg task :
  Forall (fun o => (0 <= op_cost o)%Z) (task_operators task) ->
  Forall (fun r => (0 <= uo_base_cost r)%Z) (build_unary_operators task).
Proof.
  intros Hops. apply Forall_forall. intros r.
  unfold build_unary_operators. intros [Hr | Hr]%elem_of_app.
  - apply elem_of_concat in Hr as (l & Hl & Hr).
    apply elem_of_lookup_imap in Hl as (o & op & -> & Hop).
    apply list_elem_of_fmap in Hr as (e & -> & He). simpl.
    rewrite Forall_forall in Hops. apply Hops, list_elem_of_lookup. eauto.
  - apply elem_of_concat in Hr as (l & Hl & Hr).
    apply list_elem_of_fmap in Hl as (a & -> & Ha).
    by apply list_elem_of_fmap in Hr as (e & -> & He).
Qed.

Lemma operator_at_nonneg task i :
  Forall (fun o => (0 <= op_cost o)%Z) (task_operators task) ->
  (0 <= op_cost (operator_at task i))%Z.
Proof.
  intros Hops. unfold operator_at.
  destruct (task_operators task !! i) as [o|] eqn:Ho; simpl; [|done].
  rewrite Forall_forall in Hops. apply Hops, list_elem_of_lookup. eauto.
Qed.

Lemma cost_total_nonneg task l :
  Forall (fun o => (0 <= op_cost o)%Z) (task_operators task) ->
  (0 <= cost_total task l)%Z.
Proof.
  intros Hops. induction l as [|i l IH]; simpl; [done |].
  pose proof (operator_at_nonneg task i Hops). lia.
Qed.

Lemma cost_total_sublist task l k :
  Forall (fun o => (0 <= op_cost o)%Z) (task_operators task) ->
  sublist l k -> (cost_total task l <= cost_total task k)%Z.
Proof.
  intros Hops. induction 1 as [|i l k _ IH|i l k _ IH]; simpl; [done | lia |].
  pose proof (operator_at_nonneg task i Hops). lia.
Qed.

Lemma wrap_int_small z : (INT_MIN <= z <= INT_MAX)%Z -> wrap_int z = z.
Proof.
  unfold wrap_int, INT_MIN, INT_MAX. intros Hz. rewrite Z.mod_small; lia.
Qed.

Lemma cost_sum_exact task l :
  Forall (fun o => (0 <= op_cost o)%Z) (task_operators task) ->
  (cost_total task l <= INT_MAX)%Z ->
  cost_sum task l = cost_total task l.
Proof.
  intros Hops. unfold cost_sum.
  assert (Hacc : forall acc, (0 <= acc)%Z -> (acc + cost_total task l <= INT_MAX)%Z ->
            foldl (fun acc i => wrap_int (acc + op_cost (operator_at task i))) acc l
            = (acc + cost_total task l)%Z).
  { induction l as [|i l IH]; intros acc Hacc Hfit; simpl in *; [lia |].
    pose proof (operator_at_nonneg task i Hops).
    pose proof (cost_total_nonneg task l Hops).
    rewrite wrap_int_small by (unfold INT_MIN, INT_MAX in *; lia).
    rewrite IH; lia. }
  intros Hfit. by rewrite Hacc.
Qed.

Lemma plan_cost_fits task rp :
  costs_fit task -> length rp = length (task_operators task) ->
  cost_sum task (plan_ops rp) = cost_total task (plan_ops rp) /\
  (0 <= cost_total task (plan_ops rp) <= INT_MAX)%Z.
Proof.
  intros [Hops Hfit] Hlen.
  assert (Hle : (cost_total task (plan_ops rp) <= INT_MAX)%Z).
  { etrans; [|exact Hfit]. apply cost_total_sublist; [done |].
    unfold plan_ops. rewrite Hlen. apply sublist_filter. }
  split; [by apply cost_sum_exact |]. split; [by apply cost_total_nonneg | done].
Qed.

Lemma goal_costs_nonneg (costs : list (option Z)) :
  Forall (fun c => forall z, c = Some z -> (0 <= z)%Z) costs ->
  (0 <= foldr (fun c total => (default 0 c + total)%Z) 0%Z costs)%Z.
Proof.
  induction 1 as [|c costs Hc _ IH]; simpl; [done |].
  destruct c as [z|]; simpl; [|lia]. specialize (Hc z eq_refl). lia.
Qed.

Lemma forallb_false_ex {A : Type} (f : A -> bool) (l : list A) :
  forallb f l = false -> exists x, In x l /\ f x = false.
Proof.
  induction l as [|x l IH]; simpl; [done |].
  destruct (f x) eqn:Hx; simpl.
  - intros (y & Hy & Hfy)%IH. exists y. split; [by right | done].
  - intros _. exists x. split; [by left | done].
Qed.

(** With non-negative operator costs the additive estimate is the sentinel
    exactly when some goal fact is not reached. *)
Lemma compute_add_and_ff_dead_iff h state :
  Forall (fun o => (0 <= op_cost o)%Z) (task_operators (ff_task h)) ->
  (compute_add_and_ff h state).2 = DEAD_END <->
  exists g, g ∈ goal_propositions h /\
            ~ reached (propositions (compute_add_and_ff h state).1) g.
Proof.
  intros Hops. split.
  - intros Hdead. unfold compute_add_and_ff in *.
    cbn [fst snd with_propositions propositions] in *.
    set (props := explore _ _ _ _ _) in *.
    destruct (forallb _ _) eqn:Hall.
    + exfalso.
      assert (Hsum : (0 <= foldr (fun c total => (default 0 c + total)%Z) 0%Z
                            (map (fun g => props !! g ≫= cost) (goal_propositions h)))%Z).
      { apply goal_costs_nonneg, Forall_forall. intros c Hc z ->.
        apply list_elem_of_fmap in Hc as (g & Hg & _).
        destruct (props !! g) as [nd|] eqn:Hnd; [|done]. simpl in Hg.
        eapply (explore_nonneg (unary_operators h)); [|exact Hnd | done].
        by apply build_unary_operators_nonneg. }
      unfold DEAD_END in Hdead. lia.
    + apply forallb_false_ex in Hall as (c & Hc & Hno).
      apply in_map_iff in Hc as (g & <- & Hg). apply bool_decide_eq_false in Hno.
      exists g. split; [by apply list_elem_of_In |].
      intros (nd & Hnd & Hsome). apply Hno. by rewrite Hnd.
  - intros (g & Hg & Hun). by eapply compute_add_and_ff_dead.
Qed.

(** The structural path: without learned weights, and with operator
    costs that are non-negative and fit into an [int] together, the
    evaluation returns the sentinel exactly for the states with an unreached
    goal fact, and a non-negative number for all other states. *)
Lemma structural_estimate_sound h state :
  task_ok (ff_task h) -> state_in_range (ff_task h) state ->
  length (relaxed_plan h) = length (task_operators (ff_task h)) ->
  use_learned_weights h = false ->
  costs_fit (ff_task h) ->
  (exists v, estimate (compute_heuristic h state) = Done v /\
             (v = DEAD_END \/ 0 <= v <= INT_MAX)%Z) /\
  (estimate (compute_heuristic h state) = Done DEAD_END <->
   exists g, g ∈ goal_propositions h /\
             ~ reached (propositions (compute_add_and_ff h state).1) g).
Proof.
  intros Hok Hst Hlen Hoff Hfit.
  rewrite <- (compute_add_and_ff_dead_iff h state (proj1 Hfit)).
  destruct (decide ((compute_add_and_ff h state).2 = DEAD_END)) as [Hdead|Halive].
  - rewrite (compute_heuristic_dead _ _ Hdead). simpl. split; [|done].
    exists DEAD_END. split; [done | by left].
  - destruct (compute_heuristic_alive h state Hok Hst Hlen Halive)
      as (hm & hf & h_ff & adj & Hm & Hev & Htl & Hres).
    rewrite Hres, Hoff. simpl.
    pose proof (tl_cost _ _ _ Htl) as Hc. cbn [fst snd] in Hc.
    assert (Hlenm : length (relaxed_plan hm) = length (task_operators (ff_task hm))).
    { rewrite (ev_plan _ _ _ Hev), (ev_task _ _ _ Hev). exact Hlen. }
    assert (Hfitm : costs_fit (ff_task hm)) by (by rewrite (ev_task _ _ _ Hev)).
    destruct (plan_cost_fits (ff_task hm) (relaxed_plan hm) Hfitm Hlenm) as [Hex Hrange].
    unfold plan_ops in Hex, Hrange. rewrite Hex in Hc.
    split.
    + exists h_ff. split; [done |]. right. lia.
    + split; [|done]. intros [= ->]. unfold DEAD_END in *. lia.
Qed.

(** ** Landmark tests: exclusion sets and levels *)

Lemma insert_op_ids_where_spec (test : Operator -> bool) ops (z : Z) :
  z ∈ insert_op_ids_where test ops <->
  exists id op, (id, op) ∈ ops /\ test op = true /\ z = Z.of_nat id.
Proof.
  unfold insert_op_ids_where.
  assert (Hgen : forall (s0 : gset Z),
            z ∈ foldl (fun s '(id, op) => if test op then {[Z.of_nat id]} ∪ s else s) s0 ops
            <-> z ∈ s0 \/ exists id op, (id, op) ∈ ops /\ test op = true /\ z = Z.of_nat id).
  { induction ops as [|[id op] ops IH]; intros s0; simpl.
    - split; [by left |]. intros [? | (? & ? & Hin & _)]; [done |].
      by apply elem_of_nil in Hin.
    - rewrite IH. split.
      + intros [Hs | (id' & op' & Hin & Ht & Hz)].
        * destruct (test op) eqn:Hop; [|by left].
          apply elem_of_union in Hs as [Hs | Hs]; [|by left].
          apply elem_of_singleton in Hs. right. exists id, op.
          split; [by left | done].
        * right. exists id', op'. split; [by right | done].
      + intros [Hs | (id' & op' & Hin & Ht & Hz)].
        * left. destruct (test op); [|done]. apply elem_of_union. by right.
        * apply elem_of_cons in Hin as [[= -> ->] | Hin].
          -- left. rewrite Ht. apply elem_of_union. left. by apply elem_of_singleton.
          -- right. eauto. }
  rewrite Hgen. split; [|by right]. intros [Hin | H]; [|done].
  by apply not_elem_of_empty in Hin.
Qed.

Lemma elem_of_get_operators task id op :
  (id, op) ∈ get_operators task <-> task_operators task !! id = Some op.
Proof.
  unfold get_operators. rewrite elem_of_lookup_imap. split.
  - by intros (i & o & [= -> ->] & Hi).
  - intros H. by exists id, op.
Qed.

Lemma is_landmark_precondition_spec o landmark :
  is_landmark_precondition o landmark = true <->
  exists pre, pre ∈ preconditions o /\ pre ∈ facts landmark.
Proof.
  unfold is_landmark_precondition. rewrite existsb_exists. split.
  - intros (pre & Hpre & Hex). apply existsb_exists in Hex as (f & Hf & Heq).
    apply bool_decide_eq_true in Heq as ->.
    exists f. split; by apply list_elem_of_In.
  - intros (pre & Hpre & Hf). exists pre. split; [by apply list_elem_of_In |].
    apply existsb_exists. exists pre. split; [by apply list_elem_of_In |].
    by apply bool_decide_eq_true.
Qed.

Lemma achieves_non_conditional_facts_spec effect lm_facts :
  achieves_non_conditional_facts effect lm_facts = true <->
  fact effect ∈ lm_facts /\ conditions effect = [].
Proof.
  induction lm_facts as [|f fs IH]; simpl.
  - split; [done |]. intros [Hin _]. by apply elem_of_nil in Hin.
  - destruct (bool_decide (fact effect = f)) eqn:Hf;
      destruct (bool_decide (conditions effect = [])) eqn:Hc; simpl.
    + apply bool_decide_eq_true in Hf, Hc. split; [|done]. intros _. split; [|done].
      rewrite Hf. by left.
    + apply bool_decide_eq_false in Hc. rewrite IH. split; intros [? ?]; done.
    + apply bool_decide_eq_false in Hf. rewrite IH. split.
      * intros [? ?]. split; [by right | done].
      * intros [[?|?]%elem_of_cons ?]; done.
    + apply bool_decide_eq_false in Hc. rewrite IH. split; intros [? ?]; done.
Qed.

Lemma achieves_non_conditional_spec o landmark :
  achieves_non_conditional o landmark = true <->
  exists e, e ∈ effects o /\ fact e ∈ facts landmark /\ conditions e = [].
Proof.
  unfold achieves_non_conditional. induction (effects o) as [|e es IH]; simpl.
  - split; [done |]. intros (e & Hin & _). by apply elem_of_nil in Hin.
  - destruct (achieves_non_conditional_facts e (facts landmark)) eqn:He.
    + apply achieves_non_conditional_facts_spec in He. split; [|done].
      intros _. exists e. split; [by left | done].
    + rewrite IH. split.
      * intros (e' & Hin & H). exists e'. split; [by right | done].
      * intros (e' & [-> | Hin]%elem_of_cons & H); [|eauto].
        apply achieves_non_conditional_facts_spec in H. congruence.
Qed.

Lemma length_resize {A : Type} n (x : A) l : length (resize n x l) = n.
Proof. unfold resize. rewrite length_app, length_take, length_replicate. lia. Qed.

Lemma level_of_resized task lvl_var f :
  fact_in_range task f -> is_Some (level_of (resize_lvl_var task lvl_var) f).
Proof.
  intros (d & Hd & Hlt). unfold level_of, resize_lvl_var.
  rewrite lookup_zip_with, Hd. simpl.
  assert (Hrow : is_Some (resize (length (task_variables task)) [] lvl_var !! var f)).
  { apply lookup_lt_is_Some_2. rewrite length_resize. by eapply lookup_lt_Some. }
  destruct Hrow as [row ->]. simpl.
  apply lookup_lt_is_Some_2. by rewrite length_resize.
Qed.

(** A fresh table holds [INT_MAX] for every fact. *)
Lemma level_of_fresh task f :
  fact_in_range task f -> level_of (resize_lvl_var task []) f = Some INT_MAX.
Proof.
  intros (d & Hd & Hlt). unfold level_of, resize_lvl_var.
  rewrite lookup_zip_with, Hd. simpl.
  assert (Hrow : resize (length (task_variables task)) [] [] !! var f
                 = Some ([] : list Z)).
  { unfold resize. rewrite take_nil, app_nil_l. apply lookup_replicate_2.
    simpl. rewrite Nat.sub_0_r. by eapply lookup_lt_Some. }
  rewrite Hrow. simpl. unfold resize. rewrite take_nil, app_nil_l.
  apply lookup_replicate_2. simpl. lia.
Qed.

(** The exploration writes the cost of every reached fact into the table and
    leaves the entry of every other fact alone. *)
Lemma level_of_run exploration lvl_var exf exo f :
  level_of (compute_reachability_with_excludes exploration lvl_var exf exo).2 f
  = (fun old =>
       default old
         (ex_props (compute_reachability_with_excludes exploration lvl_var exf exo).1
            !! get_prop_id (ex_task exploration) f ≫= cost))
    <$> level_of lvl_var f.
Proof.
  unfold level_of, compute_reachability_with_excludes. cbn [fst snd ex_props].
  rewrite list_lookup_imap. destruct (lvl_var !! var f) as [row|]; [|done].
  simpl. rewrite list_lookup_imap. destruct (row !! value f); [|done].
  simpl. by destruct f.
Qed.

Lemma first_goal_at_max_spec lvl_var goals :
  Forall (fun g => is_Some (level_of lvl_var g)) goals ->
  exists hit, first_goal_at_max lvl_var goals = Done hit /\
    match hit with
    | Some g => g ∈ goals /\ level_of lvl_var g = Some INT_MAX
    | None => forall g, g ∈ goals -> level_of lvl_var g <> Some INT_MAX
    end.
Proof.
  induction 1 as [|g goals [l Hl] _ (hit & Hhit & Hspec)]; simpl.
  - exists None. split; [done |]. intros g Hg. by apply elem_of_nil in Hg.
  - unfold level_of in Hl. destruct (lvl_var !! var g) as [row|] eqn:Hrow; [|done].
    simpl in Hl. rewrite (at_index_Done _ _ _ Hrow), bind_Done.
    rewrite (at_index_Done _ _ _ Hl), bind_Done.
    destruct (Z.eqb_spec l INT_MAX) as [->|Hne].
    + exists (Some g). split; [done |]. split; [by left |].
      unfold level_of. by rewrite Hrow.
    + exists hit. split; [done |]. destruct hit as [g'|].
      * destruct Hspec. split; [by right | done].
      * intros g' [->|Hg']%elem_of_cons; [|by apply Hspec].
        unfold level_of. rewrite Hrow. simpl. rewrite Hl. congruence.
Qed.

Lemma levels_defined_after_run task exploration lvl_var exf exo :
  Forall (fact_in_range task) (task_goals task) ->
  Forall (fun g => is_Some (level_of
            (compute_reachability_with_excludes exploration
               (resize_lvl_var task lvl_var) exf exo).2 g))
         (task_goals task).
Proof.
  intros Hgoals. eapply Forall_impl; [exact Hgoals |].
  intros g Hg. rewrite level_of_run.
  destruct (level_of_resized task lvl_var g Hg) as [l ->]. by eexists.
Qed.

(** ** Claims about the relaxation landmarks *)

Lemma run_levels task exploration lvl_var exf exo g :
  fact_in_range task g ->
  exists old,
    level_of (resize_lvl_var task lvl_var) g = Some old /\
    level_of (compute_reachability_with_excludes exploration
                (resize_lvl_var task lvl_var) exf exo).2 g
    = Some (default old
              (ex_props (compute_reachability_with_excludes exploration
                           (resize_lvl_var task lvl_var) exf exo).1
                 !! get_prop_id (ex_task exploration) g ≫= cost)).
Proof.
  intros Hg. destruct (level_of_resized task lvl_var g Hg) as [old Hold].
  exists old. split; [done |]. by rewrite level_of_run, Hold.
Qed.

(** C1 as the specification states it does not hold.  In [derived_task] the
    landmark l = (0,1) is not a goal fact, no operator has it as a
    precondition, and the goal d is derived from l by an axiom.  The causal
    test passes no excluded fact to the exploration, reaches d and reports
    "not causal"; with the exclusions of the claim (excluded facts = the
    landmark's own facts) the goal stays at level [INT_MAX] and the verdict
    would be "causal". *)
Lemma causal_test_excludes_no_landmark_fact :
  let landmark := simple_landmark (mkFact 0 1) in
  let exploration := Exploration_new derived_task in
  causal_exclude_op_ids derived_task landmark = ∅ /\
  level_of (compute_reachability_with_excludes exploration
              (resize_lvl_var derived_task []) (facts landmark)
              (causal_exclude_op_ids derived_task landmark)).2 (mkFact 1 1)
  = Some INT_MAX /\
  outcome_map fst (is_causal_landmark derived_task exploration landmark) = Done false /\
  outcome_map fst (is_causal_landmark_as_specified derived_task exploration landmark)
  = Done true.
Proof.
  split; [vm_compute; reflexivity |]. split; [vm_compute; reflexivity |].
  split; vm_compute; reflexivity.
Qed.

(** C1, amended.  For every non-goal landmark, the causal-necessity test
    runs the relaxed exploration from the initial state with no excluded
    fact and with excluded actions equal to every operator that has any of
    the landmark's facts as a precondition; the landmark is reported causal
    exactly when some goal fact keeps the level [INT_MAX], the level of a fact
    the exploration has not reached. *)
Theorem causal_test_excludes_users_only :
  forall (task : Task) (exploration : Exploration) (landmark : Landmark),
    ex_task exploration = task ->
    Forall (fact_in_range task) (task_goals task) ->
    conjunctive landmark = false -> is_true_in_goal landmark = false ->
    (forall z, z ∈ causal_exclude_op_ids task landmark <->
       exists id op, z = Z.of_nat id /\ task_operators task !! id = Some op /\
                     exists pre, pre ∈ preconditions op /\ pre ∈ facts landmark) /\
    let run := compute_reachability_with_excludes exploration
                 (resize_lvl_var task []) [] (causal_exclude_op_ids task landmark) in
    ex_props run.1
    = explore (build_unary_operators task) [] (causal_exclude_op_ids task landmark)
        (num_propositions task) (state_props task (task_initial_state task)) /\
    (forall g, g ∈ task_goals task ->
       level_of run.2 g
       = Some (default INT_MAX (ex_props run.1 !! get_prop_id task g ≫= cost))) /\
    exists b, is_causal_landmark task exploration landmark = Done (b, run.1) /\
              (b = true <-> exists g, g ∈ task_goals task /\
                                      level_of run.2 g = Some INT_MAX).
Proof.
  intros task exploration landmark Hex Hgoals Hconj Hgoal. split; [|split; [|split]].
  - intros z. unfold causal_exclude_op_ids. rewrite insert_op_ids_where_spec. split.
    + intros (id & op & Hin & Ht & ->). exists id, op. split; [done |].
      split; [by apply elem_of_get_operators | by apply is_landmark_precondition_spec].
    + intros (id & op & -> & Hop & Hpre). exists id, op.
      split; [by apply elem_of_get_operators |].
      split; [by apply is_landmark_precondition_spec | done].
  - unfold compute_reachability_with_excludes. cbn [fst ex_props]. by rewrite Hex.
  - intros g Hg. rewrite Forall_forall in Hgoals.
    destruct (run_levels task exploration [] []
                (causal_exclude_op_ids task landmark) g (Hgoals g Hg))
      as (old & Hold & Hlvl).
    rewrite (level_of_fresh task g (Hgoals g Hg)) in Hold. injection Hold as <-.
    by rewrite Hlvl, Hex.
  - unfold is_causal_landmark. rewrite Hconj, Hgoal. cbv zeta.
    destruct (first_goal_at_max_spec _ _
                (levels_defined_after_run task exploration [] []
                   (causal_exclude_op_ids task landmark) Hgoals))
      as (hit & Hhit & Hspec).
    destruct (compute_reachability_with_excludes exploration
                (resize_lvl_var task []) [] (causal_exclude_op_ids task landmark))
      as [exploration' lvl_var] eqn:Hrun.
    cbn [fst snd] in *. rewrite Hhit, bind_Done.
    destruct hit as [g|].
    + exists true. split; [done |]. split; [|done]. intros _. by exists g.
    + exists false. split; [done |]. split; [done |].
      intros (g & Hg & Hmax). by destruct (Hspec g Hg).
Qed.

Lemma gripper_goals_ok : Forall (fact_in_range gripper_task) (task_goals gripper_task).
Proof. apply gripper_task_ok. Qed.

Lemma causal_test_excludes_users_only_witness :
  (ex_task (Exploration_new gripper_task) = gripper_task /\
   Forall (fact_in_range gripper_task) (task_goals gripper_task) /\
   conjunctive (simple_landmark (mkFact 0 1)) = false /\
   is_true_in_goal (simple_landmark (mkFact 0 1)) = false) /\
  (1%Z ∈ causal_exclude_op_ids gripper_task (simple_landmark (mkFact 0 1)) <->
   exists id op, 1%Z = Z.of_nat id /\ task_operators gripper_task !! id = Some op /\
                 exists pre, pre ∈ preconditions op /\
                             pre ∈ facts (simple_landmark (mkFact 0 1))) /\
  outcome_map fst (is_causal_landmark gripper_task (Exploration_new gripper_task)
                     (simple_landmark (mkFact 0 1))) = Done true.
Proof.
  split; [|split].
  - split; [reflexivity |]. split; [exact gripper_goals_ok |]. split; reflexivity.
  - exact (proj1 (causal_test_excludes_users_only gripper_task
                    (Exploration_new gripper_task) (simple_landmark (mkFact 0 1))
                    eq_refl gripper_goals_ok eq_refl eq_refl) 1%Z).
  - vm_compute. reflexivity.
Defined.

(** C4.  For every landmark, the solvability test excludes the landmark's
    facts and exactly the operators that have some effect whose fact is a
    landmark fact and whose condition set is empty (an operator that achieves
    a landmark fact only under conditions is not excluded), runs the
    exploration from the initial state, and returns true if and only if
    every goal fact has a level other than [INT_MAX]; the level of a goal
    fact is its cost in the exploration if it was reached, and what the
    resized table held before ([INT_MAX] in a fresh table) otherwise. *)
Theorem solvability_test_excludes_unconditional_achievers :
  forall (task : Task) (exploration : Exploration) (lvl_var : list (list Z))
         (exclude : Landmark),
    ex_task exploration = task ->
    Forall (fact_in_range task) (task_goals task) ->
    exists ids : gset Z,
      (forall z, z ∈ ids <->
         exists id op, z = Z.of_nat id /\ task_operators task !! id = Some op /\
                       exists e, e ∈ effects op /\ fact e ∈ facts exclude /\
                                 conditions e = []) /\
      let run := compute_reachability_with_excludes exploration
                   (resize_lvl_var task lvl_var) (facts exclude) ids in
      ex_props run.1
      = explore (build_unary_operators task) (map (get_prop_id task) (facts exclude)) ids
          (num_propositions task) (state_props task (task_initial_state task)) /\
      (forall g, g ∈ task_goals task ->
         exists old,
           level_of (resize_lvl_var task lvl_var) g = Some old /\
           (lvl_var = [] -> old = INT_MAX) /\
           level_of run.2 g
           = Some (default old (ex_props run.1 !! get_prop_id task g ≫= cost))) /\
      exists b, relaxed_task_solvable task exploration lvl_var exclude
                = Done (b, run.2, run.1) /\
                (b = true <-> forall g, g ∈ task_goals task ->
                                        level_of run.2 g <> Some INT_MAX).
Proof.
  intros task exploration lvl_var exclude Hex Hgoals.
  exists (insert_op_ids_where (fun op => achieves_non_conditional op exclude)
            (get_operators task)).
  split; [|split; [|split]].
  - intros z. rewrite insert_op_ids_where_spec. split.
    + intros (id & op & Hin & Ht & ->). exists id, op. split; [done |].
      split; [by apply elem_of_get_operators | by apply achieves_non_conditional_spec].
    + intros (id & op & -> & Hop & He). exists id, op.
      split; [by apply elem_of_get_operators |].
      split; [by apply achieves_non_conditional_spec | done].
  - unfold compute_reachability_with_excludes. cbn [fst ex_props]. by rewrite Hex.
  - intros g Hg. rewrite Forall_forall in Hgoals.
    destruct (run_levels task exploration lvl_var (facts exclude)
                (insert_op_ids_where (fun op => achieves_non_conditional op exclude)
                   (get_operators task)) g (Hgoals g Hg))
      as (old & Hold & Hlvl).
    exists old. split; [done |]. split; [|by rewrite Hlvl, Hex].
    intros ->. rewrite (level_of_fresh task g (Hgoals g Hg)) in Hold. congruence.
  - unfold relaxed_task_solvable. cbv zeta. rewrite app_nil_l.
    destruct (first_goal_at_max_spec _ _
                (levels_defined_after_run task exploration lvl_var (facts exclude)
                   (insert_op_ids_where (fun op => achieves_non_conditional op exclude)
                      (get_operators task)) Hgoals))
      as (hit & Hhit & Hspec).
    destruct (compute_reachability_with_excludes exploration
                (resize_lvl_var task lvl_var) (facts exclude) _)
      as [exploration' lvl_var'] eqn:Hrun.
    cbn [fst snd] in *. rewrite Hhit, bind_Done.
    destruct hit as [g|].
    + exists false. split; [done |]. split; [done |].
      intros Hall. destruct Hspec as [Hg Hmax]. by destruct (Hall g Hg).
    + exists true. split; [done |]. by split.
Qed.

Lemma solvability_test_excludes_unconditional_achievers_witness :
  (ex_task (Exploration_new gripper_task) = gripper_task /\
   Forall (fact_in_range gripper_task) (task_goals gripper_task)) /\
  (exists ids : gset Z,
     (1%Z ∈ ids <->
      exists id op, 1%Z = Z.of_nat id /\ task_operators gripper_task !! id = Some op /\
                    exists e, e ∈ effects op /\
                              fact e ∈ facts (simple_landmark (mkFact 1 1)) /\
                              conditions e = [])) /\
  outcome_map (fun r => r.1.1)
    (relaxed_task_solvable gripper_task (Exploration_new gripper_task) []
       (simple_landmark (mkFact 1 1))) = Done false.
Proof.
  split; [|split].
  - split; [reflexivity | exact gripper_goals_ok].
  - destruct (solvability_test_excludes_unconditional_achievers gripper_task
                (Exploration_new gripper_task) [] (simple_landmark (mkFact 1 1))
                eq_refl gripper_goals_ok) as (ids & Hids & _).
    exists ids. exact (Hids 1%Z).
  - vm_compute. reflexivity.
Defined.

(** An operator that achieves a landmark fact under a condition only is
    not excluded by the solvability test; the overload without level table
    gives the verdict of the test on an empty table. *)
Example conditional_achiever_not_excluded :
  achieves_non_conditional
    (mkOperator "o" 1 [] [mkEffect [mkFact 0 0] (mkFact 1 1)])
    (simple_landmark (mkFact 1 1)) = false /\
  achieves_non_conditional put_down_a (simple_landmark (mkFact 1 1)) = true.
Proof. split; reflexivity. Qed.

Lemma relaxed_task_solvable_3_verdict task exploration exclude :
  outcome_map fst (relaxed_task_solvable_3 task exploration exclude)
  = outcome_map (fun r => r.1.1) (relaxed_task_solvable task exploration [] exclude).
Proof.
  unfold relaxed_task_solvable_3.
  by destruct (relaxed_task_solvable task exploration [] exclude) as [[[b l] e]|].
Qed.

(** *** Discarding non-causal landmarks *)

Lemma compute_reachability_task exploration lvl_var exf exo :
  ex_task (compute_reachability_with_excludes exploration lvl_var exf exo).1
  = ex_task exploration.
Proof. reflexivity. Qed.

(** The verdict of the causal test does not depend on what earlier runs
    left in the exploration object. *)
Lemma is_causal_landmark_verdict task exploration landmark :
  ex_task exploration = task ->
  Forall (fact_in_range task) (task_goals task) ->
  conjunctive landmark = false ->
  exists exploration',
    is_causal_landmark task exploration landmark
    = Done (causal_verdict task landmark, exploration') /\
    ex_task exploration' = task.
Proof.
  intros Hex Hgoals Hconj. unfold causal_verdict, is_causal_landmark.
  rewrite Hconj. destruct (is_true_in_goal landmark); [by exists exploration |].
  cbv zeta.
  assert (Hsame :
    (compute_reachability_with_excludes exploration (resize_lvl_var task []) []
       (causal_exclude_op_ids task landmark)).2
    = (compute_reachability_with_excludes (Exploration_new task)
         (resize_lvl_var task []) [] (causal_exclude_op_ids task landmark)).2).
  { unfold compute_reachability_with_excludes. cbn [snd]. rewrite Hex. done. }
  destruct (first_goal_at_max_spec _ _
              (levels_defined_after_run task exploration [] []
                 (causal_exclude_op_ids task landmark) Hgoals))
    as (hit & Hhit & _).
  pose proof (compute_reachability_task exploration (resize_lvl_var task []) []
                (causal_exclude_op_ids task landmark)) as Htask.
  destruct (compute_reachability_with_excludes exploration _ _ _)
    as [exploration1 lvl1].
  destruct (compute_reachability_with_excludes (Exploration_new task) _ _ _)
    as [exploration2 lvl2].
  cbn [fst snd] in *. subst lvl2. rewrite Hhit, !bind_Done.
  exists exploration1. split; [by destruct hit | congruence].
Qed.

Lemma keep_unless_causal task :
  Forall (fact_in_range task) (task_goals task) ->
  forall nodes exploration,
    ex_task exploration = task ->
    Forall (fun node => conjunctive (get_landmark node) = false) nodes ->
    exists exploration',
      keep_unless
        (fun exploration node =>
           '(causal, exploration) ←
             is_causal_landmark task exploration (get_landmark node);
           Done (negb causal, exploration))
        nodes exploration
      = Done (filter (fun node => causal_verdict task (get_landmark node) = true) nodes,
              exploration') /\
      ex_task exploration' = task.
Proof.
  intros Hgoals. induction nodes as [|node nodes IH]; intros exploration Hex Hnodes.
  - by exists exploration.
  - apply Forall_cons in Hnodes as [Hnode Hnodes]. simpl.
    destruct (is_causal_landmark_verdict task exploration (get_landmark node)
                Hex Hgoals Hnode) as (exploration1 & -> & Hex1).
    rewrite !bind_Done.
    destruct (IH exploration1 Hex1 Hnodes) as (exploration2 & -> & Hex2).
    rewrite bind_Done. exists exploration2. split; [|done].
    rewrite filter_cons.
    destruct (causal_verdict task (get_landmark node)); simpl.
    + by destruct (decide (true = true)).
    + by destruct (decide (false = true)).
Qed.

Lemma length_filter_split {A : Type} (f : A -> bool) (l : list A) :
  (Z.of_nat (length l) - Z.of_nat (length (filter (fun a => f a = true) l)))%Z
  = Z.of_nat (length (filter (fun a => f a = false) l)).
Proof.
  induction l as [|a l IH]; [done |]. rewrite !filter_cons.
  destruct (f a); simpl.
  - destruct (decide (true = true)); [|done].
    destruct (decide (true = false)); [done |]. simpl. lia.
  - destruct (decide (false = true)); [done |].
    destruct (decide (false = false)); [|done]. simpl. lia.
Qed.

(** C7.  A landmark that is true in the goal is classified causal without
    running the exploration (the exploration object is returned as it was
    passed in), and [discard_noncausal_landmarks] removes from the landmark
    graph exactly the landmarks for which the causal test returns false: the
    nodes it keeps are those with verdict true, in their order, the edges it
    keeps are those between kept nodes, and the count of discarded landmarks
    is written to the log (when the log is at least at normal verbosity).
    The task has no conditional effects, as the function verifies on entry,
    and no landmark is conjunctive, as the causal test asserts. *)
Theorem noncausal_landmarks_discarded :
  (forall (task : Task) (exploration : Exploration) (landmark : Landmark),
      conjunctive landmark = false -> is_true_in_goal landmark = true ->
      is_causal_landmark task exploration landmark = Done (true, exploration)) /\
  (forall (task : Task) (exploration : Exploration) (lm_graph : LandmarkGraph)
          (log : Log),
      ex_task exploration = task ->
      has_conditional_effects task = false ->
      Forall (fact_in_range task) (task_goals task) ->
      Forall (fun node => conjunctive (get_landmark node) = false) (lg_nodes lm_graph) ->
      let kept := filter (fun node => causal_verdict task (get_landmark node) = true)
                         (lg_nodes lm_graph) in
      let discarded := filter (fun node => causal_verdict task (get_landmark node) = false)
                              (lg_nodes lm_graph) in
      exists exploration',
        discard_noncausal_landmarks task exploration lm_graph log
        = Done ({| lg_nodes := kept;
                   lg_edges := filter (fun e => e.1 ∈ map node_key kept /\
                                                e.2 ∈ map node_key kept)
                                      (lg_edges lm_graph) |},
                exploration',
                if is_at_least_normal log
                then mkLog true (log_lines log ++
                                 [DiscardedNonCausal (Z.of_nat (length discarded))])
                else log)).
Proof.
  split.
  - intros task exploration landmark Hconj Hgoal. unfold is_causal_landmark.
    by rewrite Hconj, Hgoal.
  - intros task exploration lm_graph log Hex Hcond Hgoals Hnodes kept discarded.
    unfold discard_noncausal_landmarks, remove_node_if. rewrite Hcond.
    destruct (keep_unless_causal task Hgoals (lg_nodes lm_graph) exploration Hex Hnodes)
      as (exploration' & -> & _).
    rewrite !bind_Done. exists exploration'. cbv zeta. f_equal. f_equal.
    unfold get_num_landmarks. cbn [lg_nodes].
    destruct (is_at_least_normal log) eqn:Hlog; [|done].
    unfold discarded.
    by rewrite <- (length_filter_split
                     (fun node => causal_verdict task (get_landmark node))).
Qed.

Lemma noncausal_landmarks_discarded_witness :
  (conjunctive (goal_landmark (mkFact 1 1)) = false /\
   is_true_in_goal (goal_landmark (mkFact 1 1)) = true /\
   ex_task (Exploration_new gripper_task) = gripper_task /\
   has_conditional_effects gripper_task = false /\
   Forall (fact_in_range gripper_task) (task_goals gripper_task) /\
   Forall (fun node => conjunctive (get_landmark node) = false)
          (lg_nodes gripper_graph)) /\
  is_causal_landmark gripper_task (Exploration_new gripper_task)
    (goal_landmark (mkFact 1 1)) = Done (true, Exploration_new gripper_task) /\
  exists exploration',
    discard_noncausal_landmarks gripper_task (Exploration_new gripper_task)
      gripper_graph (mkLog true [])
    = Done ({| lg_nodes := [mkNode 0 (simple_landmark (mkFact 0 1));
                            mkNode 2 (goal_landmark (mkFact 1 1))];
               lg_edges := [(0, 2)] |},
            exploration',
            mkLog true [DiscardedNonCausal 1]).
Proof.
  assert (Hnodes : Forall (fun node => conjunctive (get_landmark node) = false)
                          (lg_nodes gripper_graph)) by (repeat constructor).
  split; [|split].
  - split; [reflexivity |]. split; [reflexivity |]. split; [reflexivity |].
    split; [reflexivity |]. split; [exact gripper_goals_ok | exact Hnodes].
  - exact (proj1 noncausal_landmarks_discarded gripper_task
             (Exploration_new gripper_task) (goal_landmark (mkFact 1 1))
             eq_refl eq_refl).
  - destruct (proj2 noncausal_landmarks_discarded gripper_task
                (Exploration_new gripper_task) gripper_graph (mkLog true [])
                eq_refl eq_refl gripper_goals_ok Hnodes) as (exploration' & Heq).
    exists exploration'. rewrite Heq. vm_compute. reflexivity.
Defined.

(** With conditional effects present the function stops on entry, and a
    silent log receives no line. *)
Example discard_refuses_conditional_effects exploration lm_graph log :
  discard_noncausal_landmarks
    (mkTask [2] [mkOperator "o" 1 [] [mkEffect [mkFact 0 0] (mkFact 0 1)]] [] [0] [])
    exploration lm_graph log
  = Abort Unsupported.
Proof. reflexivity. Qed.

(** C10.  The excluded-action set of the causal-necessity test is built from
    the real operators only: each of its members is the id of an operator
    that has a landmark fact as a precondition.  The rules compiled from
    axioms carry the owner -1, which is no operator id, so for every landmark
    every axiom rule remains enabled during the causal exploration, whatever
    its body mentions. *)
Theorem axioms_stay_enabled_in_causal_test :
  forall (task : Task) (landmark : Landmark),
    (forall z, z ∈ causal_exclude_op_ids task landmark ->
       exists id op, z = Z.of_nat id /\ task_operators task !! id = Some op /\
                     is_landmark_precondition op landmark = true) /\
    (forall r, r ∈ build_unary_operators task -> uo_operator_no r = (-1)%Z ->
       rule_enabled (causal_exclude_op_ids task landmark) r = true) /\
    (forall a e, a ∈ task_axioms task -> e ∈ effects a ->
       compile_effect task (-1)%Z 0%Z a e ∈ build_unary_operators task /\
       rule_enabled (causal_exclude_op_ids task landmark)
                    (compile_effect task (-1)%Z 0%Z a e) = true).
Proof.
  intros task landmark.
  assert (Hids : forall z, z ∈ causal_exclude_op_ids task landmark ->
            exists id op, z = Z.of_nat id /\ task_operators task !! id = Some op /\
                          is_landmark_precondition op landmark = true).
  { intros z Hz. unfold causal_exclude_op_ids in Hz.
    apply insert_op_ids_where_spec in Hz as (id & op & Hin & Ht & ->).
    exists id, op. split; [done |]. split; [by apply elem_of_get_operators | done]. }
  assert (Hen : forall r, uo_operator_no r = (-1)%Z ->
            rule_enabled (causal_exclude_op_ids task landmark) r = true).
  { intros r Hr. unfold rule_enabled. rewrite Hr.
    apply negb_true_iff, bool_decide_eq_false.
    intros Hin. destruct (Hids _ Hin) as (id & _ & Hid & _). lia. }
  split; [done |]. split; [auto |].
  intros a e Ha He. split; [by apply build_unary_operators_axiom | by apply Hen].
Qed.

Lemma axioms_stay_enabled_in_causal_test_witness :
  let a := mkOperator "" 0 [] [mkEffect [mkFact 0 1] (mkFact 1 1)] in
  let e := mkEffect [mkFact 0 1] (mkFact 1 1) in
  (a ∈ task_axioms derived_task /\ e ∈ effects a) /\
  mkFact 0 1 ∈ conditions e /\
  rule_enabled (causal_exclude_op_ids derived_task (simple_landmark (mkFact 0 1)))
               (compile_effect derived_task (-1)%Z 0%Z a e) = true.
Proof.
  intros a e.
  assert (Ha : a ∈ task_axioms derived_task) by (by left).
  assert (He : e ∈ effects a) by (by left).
  split; [by split |]. split; [by left |].
  exact (proj2 (proj2 (proj2 (axioms_stay_enabled_in_causal_test derived_task
                                (simple_landmark (mkFact 0 1)))) a e Ha He)).
Defined.

(** * Further properties *)

(** ** The backward chain: what it marks, flags and prefers *)

Lemma marked_at_same_nodes ps ps' p :
  Forall2 same_node ps ps' -> marked_at ps p -> marked_at ps' p.
Proof.
  intros H (nd & Hnd & Hm).
  destruct (Forall2_lookup_l _ _ _ _ _ H Hnd) as (nd' & Hnd' & (_ & _ & Hmono)).
  exists nd'. split; [done | auto].
Qed.

Lemma achieved_by_evolves state h h' p o :
  evolves state h h' -> achieved_by h' p o -> achieved_by h p o.
Proof.
  intros Hev (nd' & r & Hnd' & Hpos & Hr & Ho).
  destruct (Forall2_lookup_r _ _ _ _ _ (ev_props _ _ _ Hev) Hnd')
    as (nd & Hnd & (_ & Hrb & _)).
  exists nd, r. rewrite <- Hrb. split; [done |]. split; [done |]. split; [|done].
  unfold unary_operators in *. by rewrite <- (ev_task _ _ _ Hev).
Qed.

Lemma chain_effect_refl h : chain_effect h h.
Proof. split; auto. Qed.

Lemma chain_effect_trans state h1 h2 h3 :
  evolves state h1 h2 -> chain_effect h1 h2 ->
  evolves state h2 h3 -> chain_effect h2 h3 ->
  chain_effect h1 h3.
Proof.
  intros Hev12 [K12 N12 PK12 PN12] Hev23 [K23 N23 PK23 PN23]. split.
  - auto.
  - intros o Ho. destruct (N23 o Ho) as [H2 | (p & Hun & Hm & Hach)].
    + destruct (N12 o H2) as [H1 | (p & Hun & Hm & Hach)]; [by left |].
      right. exists p. split; [done |]. split; [|done].
      eapply marked_at_same_nodes; [exact (ev_props _ _ _ Hev23) | done].
    + right. exists p. split; [|split; [done |]].
      * intros H1. apply Hun.
        eapply marked_at_same_nodes; [exact (ev_props _ _ _ Hev12) | done].
      * by eapply achieved_by_evolves.
  - auto.
  - intros o Ho. destruct (PN23 o Ho) as [H2 | H3]; [|by right].
    destruct (PN12 o H2) as [H1 | H2']; [by left | right; auto].
Qed.

Lemma set_marked_chain_effect h g : chain_effect h (set_marked h g).
Proof. split; auto. Qed.

Lemma set_marked_marked_at h g nd :
  propositions h !! g = Some nd -> marked_at (propositions (set_marked h g)) g.
Proof.
  intros Hnd. exists (mkProp (cost nd) (reached_by nd) true). split; [|done].
  unfold set_marked, with_propositions. cbn [propositions].
  by rewrite list_lookup_alter_eq, Hnd.
Qed.

(** Whatever the budget and the object: a chain that returns has marked its
    start proposition, has left an evolution of the object, and its effect on
    the relaxed plan and on the preferred operators is a [chain_effect]. *)
Lemma mark_effect state :
  forall fuel h goal_id,
    ensures (fun h' => evolves state h h' /\ chain_effect h h' /\
                       marked_at (propositions h') goal_id)
            (fun _ => True)
            (mark_preferred_operators_and_relaxed_plan fuel h state goal_id).
Proof.
  induction fuel as [|fuel IH]; intros h goal_id; [done |].
  rewrite mark_unfold.
  eapply ensures_bind; [by apply ensures_at_index |].
  intros goal Hgoal. cbv beta in *.
  destruct (marked goal) eqn:Hm.
  { split; [apply evolves_refl |]. split; [apply chain_effect_refl |]. by exists goal. }
  cbv zeta.
  assert (Hev0 : evolves state h (set_marked h goal_id)) by apply set_marked_evolves.
  assert (Hmk0 : marked_at (propositions (set_marked h goal_id)) goal_id)
    by (by eapply set_marked_marked_at).
  assert (Hun : ~ marked_at (propositions h) goal_id).
  { intros (nd & Hnd & Hmnd). congruence. }
  destruct (Z.eqb_spec (reached_by goal) NO_OP) as [|Hrb].
  { split; [done |]. split; [apply set_marked_chain_effect | done]. }
  eapply ensures_bind; [by apply ensures_at_index_Z |].
  intros unary_op [Hpos Hrule]. cbv beta in *.
  change (unary_operators (set_marked h goal_id)) with (unary_operators h) in Hrule.
  eapply ensures_bind with
    (P := fun st => evolves state (set_marked h goal_id) st.1 /\
                    chain_effect (set_marked h goal_id) st.1).
  { apply for_each_inv; [split; [apply evolves_refl | apply chain_effect_refl] |].
    intros precond [h1 pref] _ [Hev1 Hce1]. cbn [fst] in *.
    eapply ensures_bind; [apply IH |].
    intros h2 (Hev2 & Hce2 & _). cbv beta in *.
    eapply ensures_bind; [by apply ensures_at_index |].
    intros p _. cbn [ensures fst].
    split; [eauto using evolves_trans | by eapply chain_effect_trans]. }
  intros [h1 pref] [Hev1 Hce1]. cbn [fst] in *.
  assert (Hev : evolves state h h1) by eauto using evolves_trans.
  assert (Hce : chain_effect h h1).
  { eapply chain_effect_trans; [exact Hev0 | apply set_marked_chain_effect | done | done]. }
  assert (Hmk1 : marked_at (propositions h1) goal_id).
  { eapply marked_at_same_nodes; [exact (ev_props _ _ _ Hev1) | done]. }
  destruct (Z.eqb_spec (uo_operator_no unary_op) (-1)) as [|Hax]; [done |].
  eapply ensures_bind; [by apply ensures_at_index_Z |].
  intros b [Hopos Hb]. cbv beta zeta in *.
  set (idx := Z.to_nat (uo_operator_no unary_op)) in *.
  set (h2 := with_relaxed_plan h1 _).
  assert (Hev2 : evolves state h h2).
  { eapply evolves_trans; [exact Hev | apply with_relaxed_plan_evolves]. }
  assert (Hidx : flagged h2 idx).
  { unfold flagged, h2. cbn [relaxed_plan with_relaxed_plan].
    apply list_lookup_insert_eq. by eapply lookup_lt_Some. }
  assert (Hce2 : chain_effect h h2).
  { destruct Hce as [K N PK PN]. split.
    - intros o Ho. unfold flagged, h2. cbn [relaxed_plan with_relaxed_plan].
      destruct (decide (idx = o)) as [<-|Hne]; [exact Hidx |].
      rewrite list_lookup_insert_ne by done. by apply K.
    - intros o Ho. destruct (decide (idx = o)) as [<-|Hne].
      + right. exists goal_id. split; [done |]. split; [done |].
        exists goal, unary_op. split; [done |]. split; [done |]. split; [done |].
        unfold idx. by rewrite Z2Nat.id.
      + apply N. unfold flagged, h2 in Ho. cbn [relaxed_plan with_relaxed_plan] in Ho.
        by rewrite list_lookup_insert_ne in Ho.
    - exact PK.
    - intros o Ho. destruct (PN o Ho) as [?|Hf]; [by left |]. right.
      unfold flagged, h2. cbn [relaxed_plan with_relaxed_plan].
      destruct (decide (idx = o)) as [<-|Hne]; [exact Hidx |].
      by rewrite list_lookup_insert_ne. }
  destruct pref; [|done].
  eapply ensures_bind; [by apply ensures_at_index_Z |].
  intros op [_ Hop]. cbv beta in *.
  destruct (is_applicable op state) eqn:Happ; [|done].
  cbn [ensures]. fold idx.
  assert (Hev3 : evolves state h2 (set_preferred h2 idx))
    by (by eapply set_preferred_evolves).
  split; [eauto using evolves_trans |]. split.
  - destruct Hce2 as [K N PK PN]. unfold set_preferred.
    case_bool_decide as Hin; [by split |].
    split; cbn [with_preferred relaxed_plan propositions preferred_operators]; auto.
    + intros o Ho. apply elem_of_app. left. by apply PK.
    + intros o [Ho | Ho]%elem_of_app; [by apply PN |].
      apply list_elem_of_singleton in Ho as ->. by right.
  - eapply marked_at_same_nodes; [exact (ev_props _ _ _ Hev3) | done].
Qed.

Lemma ensures_conj {A : Type} (P Q : A -> Prop) (E : failure -> Prop) (m : outcome A) :
  ensures P E m -> ensures Q E m -> ensures (fun a => P a /\ Q a) E m.
Proof. destruct m; simpl; auto. Qed.

Lemma closed_at_mono state h h' p :
  evolves state h h' ->
  (forall o, flagged h o -> flagged h' o) ->
  (forall nd nd', propositions h !! p = Some nd -> propositions h' !! p = Some nd' ->
                  marked nd' = true -> marked nd = true) ->
  closed_at h p -> closed_at h' p.
Proof.
  intros Hev Hflag Hback Hcl nd' Hnd' Hm'.
  destruct (Forall2_lookup_r _ _ _ _ _ (ev_props _ _ _ Hev) Hnd')
    as (nd & Hnd & (_ & Hrb & _)).
  rewrite Hrb.
  destruct (Hcl nd Hnd (Hback _ _ Hnd Hnd' Hm')) as [?|(r & Hpos & Hr & Hpre & Hown)];
    [by left | right].
  exists r. split; [done |]. split.
  { unfold unary_operators in *. by rewrite (ev_task _ _ _ Hev). }
  split.
  - intros q Hq. eapply marked_at_same_nodes; [exact (ev_props _ _ _ Hev) | auto].
  - intros Hne. destruct (Hown Hne). auto.
Qed.

Lemma closed_except_set_preferred open h o :
  closed_except open h -> closed_except open (set_preferred h o).
Proof. unfold set_preferred. by case_bool_decide. Qed.

(** A chain keeps the marked set justified: the propositions it marks
    are justified when it returns. *)
Lemma mark_closes state :
  forall fuel h goal_id open,
    closed_except open h ->
    ensures (closed_except open) (fun _ => True)
            (mark_preferred_operators_and_relaxed_plan fuel h state goal_id).
Proof.
  induction fuel as [|fuel IH]; intros h goal_id open Hcl; [done |].
  rewrite mark_unfold.
  eapply ensures_bind; [by apply ensures_at_index |].
  intros goal Hgoal. cbv beta in *.
  destruct (marked goal) eqn:Hm; [done |].
  cbv zeta.
  assert (Hev0 : evolves state h (set_marked h goal_id)) by apply set_marked_evolves.
  assert (Hmk0 : marked_at (propositions (set_marked h goal_id)) goal_id)
    by (by eapply set_marked_marked_at).
  assert (Hothers : forall p, p <> goal_id -> closed_at h p ->
                      closed_at (set_marked h goal_id) p).
  { intros p Hne. apply (closed_at_mono state); [done | done |].
    intros nd nd' Hnd Hnd'. unfold set_marked in Hnd'.
    cbn [propositions with_propositions] in Hnd'.
    rewrite list_lookup_alter_ne in Hnd' by done. congruence. }
  assert (Hcl0 : closed_except (goal_id :: open) (set_marked h goal_id)).
  { intros p Hp. apply not_elem_of_cons in Hp as [Hne Hp]. auto. }
  destruct (Z.eqb_spec (reached_by goal) NO_OP) as [Hno|Hrb].
  { intros p Hp. destruct (decide (p = goal_id)) as [->|Hne]; [|auto].
    intros nd Hnd _. left.
    destruct (Forall2_lookup_r _ _ _ _ _ (ev_props _ _ _ Hev0) Hnd)
      as (nd0 & Hnd0 & (_ & Hrb & _)). congruence. }
  eapply ensures_bind; [by apply ensures_at_index_Z |].
  intros unary_op [Hpos Hrule]. cbv beta in *.
  change (unary_operators (set_marked h goal_id)) with (unary_operators h) in Hrule.
  eapply ensures_bind with
    (P := fun st => evolves state (set_marked h goal_id) st.1 /\
                    closed_except (goal_id :: open) st.1 /\
                    forall q, q ∈ uo_preconditions unary_op ->
                              marked_at (propositions st.1) q).
  { eapply ensures_weaken with
      (P := fun st => evolves state (set_marked h goal_id) st.1 /\
                      closed_except (goal_id :: open) st.1 /\
                      forall q, q ∈ [] ++ uo_preconditions unary_op ->
                                marked_at (propositions st.1) q);
      [| by intros | done].
    apply (for_each_prefix _
             (fun pre st => evolves state (set_marked h goal_id) st.1 /\
                            closed_except (goal_id :: open) st.1 /\
                            forall q, q ∈ pre -> marked_at (propositions st.1) q)
             (fun _ => True) (uo_preconditions unary_op) []).
    { split; [apply evolves_refl |]. split; [done |].
      intros q Hq. by apply elem_of_nil in Hq. }
    intros pre precond [h1 pref] _ (Hev1 & Hcl1 & Hpre1). cbn [fst] in *.
    eapply ensures_bind;
      [apply ensures_conj; [apply mark_effect | by apply IH] |].
    intros h2 ((Hev2 & _ & Hmk2) & Hcl2). cbv beta in *.
    eapply ensures_bind; [by apply ensures_at_index |].
    intros p _. cbn [ensures fst].
    split; [eauto using evolves_trans |]. split; [done |].
    intros q [Hq | Hq]%elem_of_app.
    - eapply marked_at_same_nodes; [exact (ev_props _ _ _ Hev2) | auto].
    - by apply list_elem_of_singleton in Hq as ->. }
  intros [h1 pref] (Hev1 & Hcl1 & Hpre1). cbn [fst] in *.
  assert (Hev : evolves state h h1) by eauto using evolves_trans.
  assert (Hrb1 : forall nd, propositions h1 !! goal_id = Some nd ->
                            reached_by nd = reached_by goal).
  { intros nd Hnd.
    destruct (Forall2_lookup_r _ _ _ _ _ (ev_props _ _ _ Hev) Hnd)
      as (nd0 & Hnd0 & (_ & Hrb' & _)). congruence. }
  assert (Hrule1 : unary_operators h1 !! Z.to_nat (reached_by goal) = Some unary_op).
  { unfold unary_operators in *. by rewrite (ev_task _ _ _ Hev). }
  destruct (Z.eqb_spec (uo_operator_no unary_op) (-1)) as [Hax|Hax].
  { intros p Hp. destruct (decide (p = goal_id)) as [->|Hne].
    - intros nd Hnd _. right. rewrite (Hrb1 _ Hnd). exists unary_op.
      split; [done |]. split; [done |]. split; [done | by intros []].
    - apply Hcl1. by apply not_elem_of_cons. }
  eapply ensures_bind; [by apply ensures_at_index_Z |].
  intros b [Hopos Hb]. cbv beta zeta in *.
  set (idx := Z.to_nat (uo_operator_no unary_op)) in *.
  set (h2 := with_relaxed_plan h1 _).
  assert (Hev2 : evolves state h1 h2) by apply with_relaxed_plan_evolves.
  assert (Hkept : forall o, flagged h1 o -> flagged h2 o).
  { intros o Ho. unfold flagged, h2. cbn [relaxed_plan with_relaxed_plan].
    destruct (decide (idx = o)) as [<-|Hne].
    - apply list_lookup_insert_eq. by eapply lookup_lt_Some.
    - by rewrite list_lookup_insert_ne. }
  assert (Hidx : flagged h2 idx).
  { unfold flagged, h2. cbn [relaxed_plan with_relaxed_plan].
    apply list_lookup_insert_eq. by eapply lookup_lt_Some. }
  assert (Hcl2 : closed_except open h2).
  { intros p Hp. destruct (decide (p = goal_id)) as [->|Hne].
    - intros nd Hnd _. right. rewrite (Hrb1 _ Hnd). exists unary_op.
      split; [done |]. split; [done |]. split; [done |]. by intros _.
    - apply (closed_at_mono state h1); [done | done | |].
      + intros nd nd' Hnd Hnd'. change (propositions h2) with (propositions h1) in Hnd'.
        congruence.
      + apply Hcl1. by apply not_elem_of_cons. }
  destruct pref; [|done].
  eapply ensures_bind; [by apply ensures_at_index_Z |].
  intros op _. cbv beta in *.
  destruct (is_applicable op state); [|done].
  cbn [ensures]. by apply closed_except_set_preferred.
Qed.

(** ** The exploration engine: reached facts are backed, marks are clear *)

Section EngineBacking.
Variable rules : list UnaryOperator.
Variable excluded_props : list PropID.
Variable excluded_ops : gset Z.
Variable seeds : list PropID.

Local Abbreviation backed := (backed rules excluded_props excluded_ops seeds).
Local Abbreviation all_backed := (all_backed rules excluded_props excluded_ops seeds).

Lemma backed_reached ps p : backed ps p -> reached ps p.
Proof. intros [p' nd Hnd Hc _ _ _ | p' nd i r Hnd Hc _ _ _ _ _ _]; by exists nd. Qed.

Lemma backed_insert ps p n0 n q :
  ps !! p = Some n0 -> cost n0 = None -> backed ps q -> backed (<[p := n]> ps) q.
Proof.
  intros Hp Hnone. induction 1 as [q nd Hnd Hc Hrb Hal Hseed
                                  | q nd i r Hnd Hc Hrb Hal Hr Heff Hen Hpre IH].
  - assert (Hne : p <> q) by (intros ->; rewrite Hp in Hnd; injection Hnd as <-;
                              rewrite Hnone in Hc; by destruct Hc).
    eapply backed_seed; [by rewrite list_lookup_insert_ne | done..].
  - assert (Hne : p <> q) by (intros ->; rewrite Hp in Hnd; injection Hnd as <-;
                              rewrite Hnone in Hc; by destruct Hc).
    eapply backed_rule; [by rewrite list_lookup_insert_ne | done..].
Qed.

Lemma reach_backed p c by_op e :
  all_backed (fr_props e) ->
  (by_op = NO_OP /\ p ∈ seeds) \/
  (exists i r, by_op = Z.of_nat i /\ rules !! i = Some r /\ uo_effect r = p /\
               rule_enabled excluded_ops r = true /\
               Forall (reached (fr_props e)) (uo_preconditions r)) ->
  all_backed (fr_props (reach excluded_props p c by_op e)).
Proof.
  intros Hb Hwhy. unfold reach.
  destruct (prop_allowed excluded_props p) eqn:Hal; [|done].
  destruct (fr_props e !! p) as [[[cst|] rb m]|] eqn:Hp; [done | | done].
  assert (Hlt : p < length (fr_props e)) by by eapply lookup_lt_Some.
  simpl. intros q Hq. destruct (decide (q = p)) as [->|Hne].
  - destruct Hwhy as [[-> Hseed] | (i & r & -> & Hr & Heff & Hen & Hpre)].
    + eapply backed_seed; [by apply list_lookup_insert_eq | done..].
    + eapply backed_rule; [by apply list_lookup_insert_eq | done..|].
      intros q Hq'. eapply backed_insert; [done | done |].
      rewrite Forall_forall in Hpre. auto.
  - eapply backed_insert; [done | done |]. apply Hb.
    destruct Hq as (n & Hn & Hc). exists n.
    by rewrite list_lookup_insert_ne in Hn.
Qed.

Lemma fire_backed i r acc e :
  all_backed (fr_props e) -> rules !! i = Some r ->
  Forall (reached (fr_props e)) (uo_preconditions r) ->
  all_backed (fr_props (fire excluded_props excluded_ops i r acc e)).
Proof.
  intros Hb Hr Hpre. unfold fire.
  destruct (rule_enabled excluded_ops r) eqn:Hen; [|done].
  apply reach_backed; [done |]. right. by exists i, r.
Qed.

Lemma satisfy_rule_backed done f c k r e :
  rules !! k = Some r -> f ∉ done ->
  queue_inv (f :: done) e ->
  counters_ok rules (sel_upto k f done) (fr_counters e) ->
  all_backed (fr_props e) ->
  all_backed (fr_props (satisfy_rule excluded_props excluded_ops f c k r e)).
Proof.
  intros Hr Hf Hq Hcnt Hb. unfold satisfy_rule.
  destruct (Hcnt k r Hr) as (u0 & a & Hlk & Hlen).
  unfold sel_upto in Hlen. destruct (decide (k < k)) as [?|_]; [lia |].
  case_bool_decide as Hin; [|done].
  rewrite Hlk. pose proof (filter_done_lt f done _ Hin Hf) as Hlt.
  destruct u0 as [|[|u]]; [lia | | done].
  apply fire_backed; [done | done |]. cbn [fr_props].
  eapply (reached_taken (f :: done) e); [done |].
  apply filter_done_nil. lia.
Qed.

Lemma satisfy_from_backed done f c :
  f ∉ done ->
  forall rs k e,
    (forall i r, rs !! i = Some r -> rules !! (k + i) = Some r) ->
    props_inv rules seeds (fr_props e) -> queue_inv (f :: done) e ->
    counters_ok rules (sel_upto k f done) (fr_counters e) ->
    all_backed (fr_props e) ->
    all_backed (fr_props (satisfy_from excluded_props excluded_ops f c k rs e)).
Proof.
  intros Hf. induction rs as [|r rs IH]; intros k e Hrs Hp Hq Hcnt Hb; simpl; [done |].
  assert (Hr : rules !! k = Some r).
  { specialize (Hrs 0 r eq_refl). by rewrite Nat.add_0_r in Hrs. }
  destruct (satisfy_rule_inv rules excluded_props excluded_ops seeds done f c k r e)
    as (Hp1 & Hq1 & Hc1); try done.
  apply IH; try done.
  - intros i r' Hi. replace (S k + i) with (k + S i) by lia. by apply Hrs.
  - by eapply satisfy_rule_backed.
Qed.

Lemma relaxed_exploration_backed fuel :
  forall taken e, engine_inv rules seeds taken e -> all_backed (fr_props e) ->
    all_backed (fr_props (relaxed_exploration rules excluded_props excluded_ops fuel e)).
Proof.
  induction fuel as [|fuel IH]; intros taken e Hinv Hb; simpl; [done |].
  destruct (pop_min (fr_queue e)) as [[[c f] rest]|] eqn:Hpop; [|done].
  destruct Hinv as (Hp & [Hnd Hre] & Hcnt).
  apply pop_min_perm in Hpop.
  assert (Hperm : (fr_queue e).*2 ++ taken ≡ₚ f :: rest.*2 ++ taken).
  { by rewrite Hpop. }
  assert (Hperm' : (fr_queue e).*2 ++ taken ≡ₚ rest.*2 ++ f :: taken).
  { rewrite Hperm. apply Permutation_middle. }
  assert (Hf : f ∉ taken).
  { rewrite Hperm in Hnd. apply NoDup_cons in Hnd as [Hnin _].
    intros Hin. apply Hnin, elem_of_app. by right. }
  set (e0 := {| fr_props := fr_props e; fr_counters := fr_counters e; fr_queue := rest |}).
  assert (Hq0 : queue_inv (f :: taken) e0).
  { split; simpl.
    - by rewrite <- Hperm'.
    - intros p Hin. apply Hre. by rewrite Hperm'. }
  destruct (satisfy_from_inv rules excluded_props excluded_ops seeds taken f c Hf rules 0 e0)
    as (Hp1 & Hq1 & Hc1); try done.
  apply (IH (f :: taken)).
  - split; [done |]. split; [done |].
    intros j r Hr. destruct (Hc1 j r Hr) as (u & a & ? & Hlen). exists u, a.
    split; [done |]. unfold sel_upto in Hlen. simpl in Hlen.
    destruct (decide (j < length rules)) as [|Hge]; [done |].
    apply lookup_lt_Some in Hr. lia.
  - by eapply (satisfy_from_backed taken f c Hf rules 0 e0).
Qed.

Lemma seeding_backed (l : list PropID) :
  forall e, (forall p, p ∈ l -> p ∈ seeds) -> all_backed (fr_props e) ->
    all_backed (fr_props (foldl (fun e p => reach excluded_props p 0%Z NO_OP e) e l)).
Proof.
  induction l as [|p l IH]; intros e Hl Hb; simpl; [done |].
  apply IH; [intros q Hq; apply Hl; by right |].
  apply reach_backed; [done |]. left. split; [done |]. apply Hl. by left.
Qed.

Lemma fire_free_from_backed :
  forall rs k e,
    (forall i r, rs !! i = Some r -> rules !! (k + i) = Some r) ->
    all_backed (fr_props e) ->
    all_backed (fr_props (fire_free_from excluded_props excluded_ops k rs e)).
Proof.
  induction rs as [|r rs IH]; intros k e Hrs Hb; simpl; [done |].
  apply IH.
  { intros i r' Hi. replace (S k + i) with (k + S i) by lia. by apply Hrs. }
  destruct (uo_preconditions r) eqn:Hpre; [|done].
  apply fire_backed; [done | |].
  - specialize (Hrs 0 r eq_refl). by rewrite Nat.add_0_r in Hrs.
  - rewrite Hpre. constructor.
Qed.

Lemma setup_backed n :
  all_backed (fr_props (setup_exploration_queue rules excluded_props excluded_ops n seeds)).
Proof.
  unfold setup_exploration_queue. apply fire_free_from_backed; [done |].
  apply seeding_backed; [done |]. simpl.
  intros p (nd & Hnd & Hc). apply lookup_replicate in Hnd as [-> _]. by destruct Hc.
Qed.

(** Every run of the engine ends in a table that backs each reached
    fact. *)
Lemma explore_backed n :
  all_backed (explore rules excluded_props excluded_ops n seeds).
Proof.
  unfold explore. eapply relaxed_exploration_backed; [apply setup_inv | apply setup_backed].
Qed.

(** *** Marks are clear after a run *)

Lemma reach_clear p c by_op e :
  marks_clear (fr_props e) -> marks_clear (fr_props (reach excluded_props p c by_op e)).
Proof.
  intros Hc. unfold reach. destruct (prop_allowed excluded_props p); [|done].
  destruct (fr_props e !! p) as [[[cst|] rb m]|] eqn:Hp; try done.
  simpl. apply Forall_insert; [done |]. simpl.
  unfold marks_clear in Hc. rewrite Forall_lookup in Hc. apply (Hc _ _ Hp).
Qed.

Lemma fire_clear i r acc e :
  marks_clear (fr_props e) -> marks_clear (fr_props (fire excluded_props excluded_ops i r acc e)).
Proof. unfold fire. destruct (rule_enabled excluded_ops r); [apply reach_clear | done]. Qed.

Lemma satisfy_rule_clear f c i r e :
  marks_clear (fr_props e) ->
  marks_clear (fr_props (satisfy_rule excluded_props excluded_ops f c i r e)).
Proof.
  intros Hc. unfold satisfy_rule. destruct (bool_decide _); [|done].
  destruct (fr_counters e !! i) as [[[|[|u]] a]|]; try done.
  by apply fire_clear.
Qed.

Lemma satisfy_from_clear f c rs :
  forall i e, marks_clear (fr_props e) ->
    marks_clear (fr_props (satisfy_from excluded_props excluded_ops f c i rs e)).
Proof.
  induction rs as [|r rs IH]; intros i e Hc; simpl; [done |].
  by apply IH, satisfy_rule_clear.
Qed.

Lemma relaxed_exploration_clear fuel :
  forall e, marks_clear (fr_props e) ->
    marks_clear (fr_props (relaxed_exploration rules excluded_props excluded_ops fuel e)).
Proof.
  induction fuel as [|fuel IH]; intros e Hc; simpl; [done |].
  destruct (pop_min (fr_queue e)) as [[[c f] rest]|]; [|done].
  by apply IH, satisfy_from_clear.
Qed.

Lemma fire_free_from_clear rs :
  forall i e, marks_clear (fr_props e) ->
    marks_clear (fr_props (fire_free_from excluded_props excluded_ops i rs e)).
Proof.
  induction rs as [|r rs IH]; intros i e Hc; simpl; [done |].
  apply IH. destruct (uo_preconditions r); [by apply fire_clear | done].
Qed.

Lemma explore_clear n : marks_clear (explore rules excluded_props excluded_ops n seeds).
Proof.
  unfold explore. apply relaxed_exploration_clear.
  unfold setup_exploration_queue. apply fire_free_from_clear.
  assert (Hfold : forall l e, marks_clear (fr_props e) ->
            marks_clear (fr_props (foldl (fun e p => reach excluded_props p 0%Z NO_OP e) e l))).
  { induction l as [|p l IH]; intros e Hc; simpl; [done |]. by apply IH, reach_clear. }
  apply Hfold. simpl. by apply Forall_replicate.
Qed.
End EngineBacking.

(** ** The exploration engine: every reachable fact is reached *)

Lemma grows_refl e : grows e e.
Proof. by split. Qed.

Lemma grows_trans e1 e2 e3 : grows e1 e2 -> grows e2 e3 -> grows e1 e3.
Proof. intros [L1 R1] [L2 R2]. split; [congruence | auto]. Qed.

Lemma filter_not_in_nil (l : list PropID) : filter (fun q => q ∉ []) l = l.
Proof.
  induction l as [|x l IH]; [done |]. rewrite filter_cons.
  destruct (decide (x ∉ [])) as [|Hx]; [by rewrite IH |].
  destruct Hx. apply not_elem_of_nil.
Qed.

Lemma count_taken (f : PropID) (taken l : list PropID) :
  NoDup l -> f ∈ l -> f ∉ taken ->
  length (filter (fun q => q ∉ taken) l)
  = S (length (filter (fun q => q ∉ f :: taken) l)).
Proof.
  induction 1 as [|x l Hx Hnd IH]; intros Hin Hf; [by apply elem_of_nil in Hin |].
  rewrite !filter_cons. destruct (decide (x = f)) as [->|Hne].
  - destruct (decide (f ∉ taken)); [|done].
    destruct (decide (f ∉ f :: taken)) as [H1|_]; [destruct H1; by left |].
    simpl. by rewrite filter_done_skip.
  - apply elem_of_cons in Hin as [?|Hin]; [by subst |].
    specialize (IH Hin Hf).
    destruct (decide (x ∉ taken)) as [H1|H1];
      destruct (decide (x ∉ f :: taken)) as [H2|H2]; simpl; try lia.
    + destruct H2. by intros [?|?]%elem_of_cons.
    + destruct H1. intros ?. apply H2. by right.
Qed.

Section EngineCompleteness.
Variable rules : list UnaryOperator.
Variable excluded_props : list PropID.
Variable excluded_ops : gset Z.
Variable seeds : list PropID.
Hypothesis rules_nodup : Forall (fun r => NoDup (uo_preconditions r)) rules.

Local Abbreviation do_reach := (reach excluded_props).
Local Abbreviation do_fire := (fire excluded_props excluded_ops).
Local Abbreviation do_satisfy_rule := (satisfy_rule excluded_props excluded_ops).
Local Abbreviation do_satisfy_from := (satisfy_from excluded_props excluded_ops).
Local Abbreviation fired := (fired rules excluded_props excluded_ops).
Local Abbreviation tight := (tight rules excluded_props excluded_ops).
Local Abbreviation counters_exact := (counters_exact rules).

(** *** The table only grows *)

Lemma reach_grows p c by_op e : grows e (do_reach p c by_op e).
Proof.
  unfold reach. destruct (prop_allowed excluded_props p); [|apply grows_refl].
  destruct (fr_props e !! p) as [[[cst|] rb m]|] eqn:Hp; try apply grows_refl.
  split; simpl; [apply length_insert |]. intros q. by apply reached_insert.
Qed.

Lemma reach_counters p c by_op e : fr_counters (do_reach p c by_op e) = fr_counters e.
Proof.
  unfold reach. destruct (prop_allowed excluded_props p); [|done].
  by destruct (fr_props e !! p) as [[[cst|] rb m]|].
Qed.

Lemma reach_reaches p c by_op e :
  prop_allowed excluded_props p = true -> p < length (fr_props e) ->
  reached (fr_props (do_reach p c by_op e)) p.
Proof.
  intros Hal Hlt. unfold reach. rewrite Hal.
  destruct (lookup_lt_is_Some_2 _ _ Hlt) as [[[cst|] rb m] Hp]; rewrite Hp.
  - exists (mkProp (Some cst) rb m). split; [done | by eexists].
  - simpl. eexists. split; [by apply list_lookup_insert_eq | by eexists].
Qed.

Lemma reach_listed taken p c by_op e :
  reached_listed taken e -> reached_listed taken (do_reach p c by_op e).
Proof.
  intros Hl. unfold reach. destruct (prop_allowed excluded_props p); [|done].
  destruct (fr_props e !! p) as [[[cst|] rb m]|] eqn:Hp; try done.
  intros q (nd & Hnd & Hc). simpl in *. rewrite fmap_app. simpl.
  destruct (decide (q = p)) as [->|Hne].
  - apply elem_of_app. left. apply elem_of_app. right. by left.
  - rewrite list_lookup_insert_ne in Hnd by done.
    assert (Hq : q ∈ (fr_queue e).*2 ++ taken) by (apply Hl; by exists nd).
    apply elem_of_app in Hq as [Hq|Hq]; apply elem_of_app; [left | by right].
    apply elem_of_app. by left.
Qed.

Lemma fire_grows i r acc e : grows e (do_fire i r acc e).
Proof.
  unfold fire. destruct (rule_enabled excluded_ops r);
    [apply reach_grows | apply grows_refl].
Qed.

Lemma fire_counters i r acc e : fr_counters (do_fire i r acc e) = fr_counters e.
Proof.
  unfold fire. destruct (rule_enabled excluded_ops r); [apply reach_counters | done].
Qed.

Lemma fire_listed taken i r acc e :
  reached_listed taken e -> reached_listed taken (do_fire i r acc e).
Proof.
  unfold fire. destruct (rule_enabled excluded_ops r); [apply reach_listed | done].
Qed.

Lemma fire_reaches i r acc e :
  rule_enabled excluded_ops r = true ->
  prop_allowed excluded_props (uo_effect r) = true ->
  uo_effect r < length (fr_props e) ->
  reached (fr_props (do_fire i r acc e)) (uo_effect r).
Proof.
  intros Hen Hal Hlt. unfold fire. rewrite Hen. by apply reach_reaches.
Qed.

Lemma fired_grows k e e' :
  grows e e' -> fr_counters e' = fr_counters e -> fired k e -> fired k e'.
Proof.
  intros [Hlen Hre] Hcs Hf j r a Hj Hr Hc Hen Hal Hlt.
  rewrite Hcs in Hc. rewrite Hlen in Hlt. eauto.
Qed.

Lemma satisfy_rule_grows f c i r e : grows e (do_satisfy_rule f c i r e).
Proof.
  unfold satisfy_rule. destruct (bool_decide _); [|apply grows_refl].
  destruct (fr_counters e !! i) as [[[|[|u]] a]|]; try apply grows_refl; [|by split].
  eapply grows_trans; [|apply fire_grows]. by split.
Qed.

Lemma satisfy_from_grows f c rs :
  forall i e, grows e (do_satisfy_from f c i rs e).
Proof.
  induction rs as [|r rs IH]; intros i e; simpl; [apply grows_refl |].
  eapply grows_trans; [apply satisfy_rule_grows | apply IH].
Qed.

Lemma relaxed_exploration_grows fuel :
  forall e, grows e (relaxed_exploration rules excluded_props excluded_ops fuel e).
Proof.
  induction fuel as [|fuel IH]; intros e; simpl; [apply grows_refl |].
  destruct (pop_min (fr_queue e)) as [[[c f] rest]|]; [|apply grows_refl].
  eapply grows_trans; [|apply IH].
  eapply grows_trans; [|apply satisfy_from_grows]. by split.
Qed.

Lemma fire_free_from_grows rs :
  forall i e, grows e (fire_free_from excluded_props excluded_ops i rs e).
Proof.
  induction rs as [|r rs IH]; intros i e; simpl; [apply grows_refl |].
  eapply grows_trans; [|apply IH].
  destruct (uo_preconditions r); [apply fire_grows | apply grows_refl].
Qed.

Lemma seeding_grows (l : list PropID) :
  forall e, grows e (foldl (fun e p => do_reach p 0%Z NO_OP e) e l).
Proof.
  induction l as [|p l IH]; intros e; simpl; [apply grows_refl |].
  eapply grows_trans; [apply reach_grows | apply IH].
Qed.

Lemma seeding_reaches (l : list PropID) :
  forall e p, p ∈ l -> prop_allowed excluded_props p = true -> p < length (fr_props e) ->
    reached (fr_props (foldl (fun e p => do_reach p 0%Z NO_OP e) e l)) p.
Proof.
  induction l as [|q l IH]; intros e p Hin Hal Hlt; [by apply elem_of_nil in Hin |].
  simpl. destruct (decide (p = q)) as [->|Hne].
  - apply (seeding_grows l). by apply reach_reaches.
  - apply elem_of_cons in Hin as [?|Hin]; [done |].
    apply IH; [done | done |]. by rewrite (proj1 (reach_grows q 0%Z NO_OP e)).
Qed.

(** *** Counters are exact, and a counter that runs out fires its rule *)

Lemma satisfy_rule_tight taken f c k r e :
  rules !! k = Some r -> f ∉ taken ->
  tight (length rules) (sel_upto k f taken) (f :: taken) e ->
  tight (length rules) (sel_upto (S k) f taken) (f :: taken) (do_satisfy_rule f c k r e).
Proof using rules_nodup.
  intros Hr Hf (Hl & Hc & Hfd). unfold satisfy_rule.
  assert (Hnd : NoDup (uo_preconditions r)).
  { rewrite Forall_forall in rules_nodup. apply rules_nodup.
    apply list_elem_of_lookup. eauto. }
  destruct (Hc k r Hr) as (a & Hlk).
  unfold sel_upto in Hlk. destruct (decide (k < k)) as [?|_]; [lia |].
  assert (Hsel : forall j, j <> k -> sel_upto (S k) f taken j = sel_upto k f taken j).
  { intros j Hj. unfold sel_upto.
    destruct (decide (j < S k)); destruct (decide (j < k)); try done; lia. }
  case_bool_decide as Hin.
  - rewrite Hlk, (count_taken f taken _ Hnd Hin Hf).
    set (u := length (filter (fun q => q ∉ f :: taken) (uo_preconditions r))).
    set (e1 := {| fr_props := fr_props e;
                  fr_counters := <[k := (u, (a + c)%Z)]> (fr_counters e);
                  fr_queue := fr_queue e |}).
    assert (Hc1 : counters_exact (sel_upto (S k) f taken) (fr_counters e1)).
    { intros j r' Hr'. destruct (decide (j = k)) as [->|Hne].
      - assert (r' = r) as -> by congruence. exists (a + c)%Z. simpl.
        rewrite list_lookup_insert_eq by (by eapply lookup_lt_Some).
        unfold sel_upto. destruct (decide (k < S k)); [done | lia].
      - destruct (Hc j r' Hr') as (a' & Hlk'). exists a'. simpl.
        rewrite list_lookup_insert_ne by done. by rewrite Hsel. }
    assert (Hother : forall (e' : Frontier),
              grows e e' -> fr_counters e' = fr_counters e1 ->
              forall j r' a', j <> k -> rules !! j = Some r' ->
                fr_counters e' !! j = Some (0, a') ->
                rule_enabled excluded_ops r' = true ->
                prop_allowed excluded_props (uo_effect r') = true ->
                uo_effect r' < length (fr_props e') ->
                reached (fr_props e') (uo_effect r')).
    { intros e' [Hlen Hre] Hcs j r' a' Hne Hr' Hlk' Hen Hal Hlt.
      rewrite Hcs in Hlk'. simpl in Hlk'. rewrite list_lookup_insert_ne in Hlk' by done.
      apply Hre. apply (Hfd j r' a'); try done.
      - by eapply lookup_lt_Some.
      - by rewrite <- Hlen. }
    destruct u as [|u'] eqn:Hu.
    + split; [by apply fire_listed |]. split; [by rewrite fire_counters |].
      intros j r' a' Hj Hr' Hlk' Hen Hal Hlt. destruct (decide (j = k)) as [->|Hne].
      * assert (r' = r) as -> by congruence.
        apply fire_reaches; [done | done |].
        by rewrite (proj1 (fire_grows k r (a + c)%Z e1)) in Hlt.
      * apply (Hother _ (fire_grows k r (a + c)%Z e1) (fire_counters _ _ _ _) j r' a');
          done.
    + split; [done |]. split; [done |].
      intros j r' a' Hj Hr' Hlk' Hen Hal Hlt. destruct (decide (j = k)) as [->|Hne].
      * simpl in Hlk'. rewrite list_lookup_insert_eq in Hlk' by (by eapply lookup_lt_Some).
        done.
      * by apply (Hother e1 (grows_refl e) eq_refl j r' a').
  - split; [done |]. split; [|done].
    intros j r' Hr'. destruct (decide (j = k)) as [->|Hne].
    + assert (r' = r) as -> by congruence. exists a. rewrite Hlk.
      unfold sel_upto. destruct (decide (k < S k)); [|lia].
      by rewrite filter_done_skip.
    + destruct (Hc j r' Hr') as (a' & Hlk'). exists a'. by rewrite Hsel.
Qed.

Lemma satisfy_from_tight taken f c :
  f ∉ taken ->
  forall rs k e,
    (forall i r, rs !! i = Some r -> rules !! (k + i) = Some r) ->
    tight (length rules) (sel_upto k f taken) (f :: taken) e ->
    tight (length rules) (sel_upto (k + length rs) f taken) (f :: taken)
          (do_satisfy_from f c k rs e).
Proof using rules_nodup.
  intros Hf. induction rs as [|r rs IH]; intros k e Hrs Ht; simpl.
  - by rewrite Nat.add_0_r.
  - replace (k + S (length rs)) with (S k + length rs) by lia.
    apply IH.
    + intros i r' Hi. replace (S k + i) with (k + S i) by lia. by apply Hrs.
    + apply satisfy_rule_tight; [|done | done].
      specialize (Hrs 0 r eq_refl). by rewrite Nat.add_0_r in Hrs.
Qed.

Lemma relaxed_exploration_tight fuel :
  forall taken e,
    engine_inv rules seeds taken e ->
    tight (length rules) (fun _ => taken) taken e ->
    exists taken',
      tight (length rules) (fun _ => taken') taken'
            (relaxed_exploration rules excluded_props excluded_ops fuel e).
Proof using rules_nodup.
  induction fuel as [|fuel IH]; intros taken e Hinv Ht; simpl; [eauto |].
  destruct (pop_min (fr_queue e)) as [[[c f] rest]|] eqn:Hpop; [|eauto].
  destruct Hinv as (Hp & [Hnd Hre] & Hcnt). destruct Ht as (Hl & Hc & Hfd).
  apply pop_min_perm in Hpop.
  assert (Hperm : (fr_queue e).*2 ++ taken ≡ₚ f :: rest.*2 ++ taken).
  { by rewrite Hpop. }
  assert (Hperm' : (fr_queue e).*2 ++ taken ≡ₚ rest.*2 ++ f :: taken).
  { rewrite Hperm. apply Permutation_middle. }
  assert (Hf : f ∉ taken).
  { rewrite Hperm in Hnd. apply NoDup_cons in Hnd as [Hnin _].
    intros Hin. apply Hnin, elem_of_app. by right. }
  set (e0 := {| fr_props := fr_props e; fr_counters := fr_counters e; fr_queue := rest |}).
  assert (Hq0 : queue_inv (f :: taken) e0).
  { split; simpl.
    - by rewrite <- Hperm'.
    - intros p Hin. apply Hre. by rewrite Hperm'. }
  assert (Ht0 : tight (length rules) (sel_upto 0 f taken) (f :: taken) e0).
  { split; [|split; [|done]].
    - intros p Hp'. simpl. rewrite <- Hperm'. by apply Hl.
    - intros j r Hr. destruct (Hc j r Hr) as (a & Hlk). exists a.
      unfold sel_upto. by destruct (decide (j < 0)); [lia |]. }
  destruct (satisfy_from_inv rules excluded_props excluded_ops seeds taken f c Hf rules 0 e0)
    as (Hp1 & Hq1 & Hc1); try done.
  pose proof (satisfy_from_tight taken f c Hf rules 0 e0 ltac:(done) Ht0)
    as (Hl1 & Hx1 & Hfd1).
  apply (IH (f :: taken)).
  - split; [done |]. split; [done |].
    intros j r Hr. destruct (Hc1 j r Hr) as (u & a & ? & Hlen). exists u, a.
    split; [done |]. unfold sel_upto in Hlen. simpl in Hlen.
    destruct (decide (j < length rules)) as [|Hge]; [done |].
    apply lookup_lt_Some in Hr. lia.
  - split; [done |]. split; [|done].
    intros j r Hr. destruct (Hx1 j r Hr) as (a & Hlk). exists a. rewrite Hlk.
    unfold sel_upto. simpl. destruct (decide (j < length rules)) as [|Hge]; [done |].
    apply lookup_lt_Some in Hr. lia.
Qed.

Lemma fire_free_from_tight :
  forall rs k e,
    (forall i r, rs !! i = Some r -> rules !! (k + i) = Some r) ->
    tight k (fun _ => []) [] e ->
    tight (k + length rs) (fun _ => []) [] (fire_free_from excluded_props excluded_ops k rs e).
Proof.
  induction rs as [|r rs IH]; intros k e Hrs (Hl & Hc & Hfd); simpl.
  - by rewrite Nat.add_0_r.
  - replace (k + S (length rs)) with (S k + length rs) by lia.
    assert (Hr : rules !! k = Some r).
    { specialize (Hrs 0 r eq_refl). by rewrite Nat.add_0_r in Hrs. }
    apply IH.
    { intros i r' Hi. replace (S k + i) with (k + S i) by lia. by apply Hrs. }
    destruct (Hc k r Hr) as (a & Hlk). rewrite filter_not_in_nil in Hlk.
    destruct (uo_preconditions r) as [|q pre] eqn:Hpre.
    + split; [by apply fire_listed |]. split; [by rewrite fire_counters |].
      intros j r' a' Hj Hr' Hlk' Hen Hal Hlt. destruct (decide (j = k)) as [->|Hne].
      * assert (r' = r) as -> by congruence. apply fire_reaches; [done | done |].
        by rewrite (proj1 (fire_grows k r 0%Z e)) in Hlt.
      * eapply (fired_grows k e); [apply fire_grows | apply fire_counters | done | ..];
          try done. lia.
    + split; [done |]. split; [done |].
      intros j r' a' Hj Hr' Hlk' Hen Hal Hlt. destruct (decide (j = k)) as [->|Hne].
      * rewrite Hlk in Hlk'. done.
      * apply (Hfd j r' a'); try done. lia.
Qed.

Lemma setup_tight n :
  tight (length rules) (fun _ => []) []
        (setup_exploration_queue rules excluded_props excluded_ops n seeds).
Proof.
  unfold setup_exploration_queue.
  apply (fire_free_from_tight rules 0); [done |].
  assert (Hfold : forall l e, tight 0 (fun _ => []) [] e ->
            tight 0 (fun _ => []) [] (foldl (fun e p => do_reach p 0%Z NO_OP e) e l)).
  { induction l as [|p l IH]; intros e (Hl & Hc & Hfd); simpl; [done |].
    apply IH. split; [by apply reach_listed |]. split; [by rewrite reach_counters |].
    intros j r a Hj. lia. }
  apply Hfold. split; [|split].
  - intros p (nd & Hnd & Hcost). simpl in Hnd.
    apply lookup_replicate in Hnd as [-> _]. by destruct Hcost.
  - intros j r Hr. exists 0%Z. simpl. by rewrite list_lookup_fmap, Hr, filter_not_in_nil.
  - intros j r a Hj. lia.
Qed.

Lemma length_explore n : length (explore rules excluded_props excluded_ops n seeds) = n.
Proof.
  unfold explore, setup_exploration_queue.
  rewrite (proj1 (relaxed_exploration_grows _ _)).
  rewrite (proj1 (fire_free_from_grows _ _ _)).
  rewrite (proj1 (seeding_grows _ _)). simpl. apply length_replicate.
Qed.

(** Every proposition that is reachable in the relaxed task is reached by
    the run. *)
Lemma explore_complete n p :
  derivable_within rules excluded_props excluded_ops seeds n p ->
  reached (explore rules excluded_props excluded_ops n seeds) p.
Proof using rules_nodup.
  pose proof (length_explore n) as Hlen.
  pose proof (explore_exhausts rules excluded_props excluded_ops seeds n) as Hempty.
  destruct (relaxed_exploration_tight (S n) [] _
              (setup_inv rules excluded_props excluded_ops seeds n) (setup_tight n))
    as (taken & Hl & Hc & Hfd).
  unfold explore in *.
  set (e := relaxed_exploration rules excluded_props excluded_ops (S n)
              (setup_exploration_queue rules excluded_props excluded_ops n seeds)) in *.
  induction 1 as [p Hseed Hal Hlt | p r Hr Heff Hen Hal Hlt Hpre IH].
  - apply (relaxed_exploration_grows (S n)).
    unfold setup_exploration_queue. apply (fire_free_from_grows rules 0).
    apply seeding_reaches; [done | done |]. simpl. by rewrite length_replicate.
  - apply list_elem_of_lookup in Hr as [j Hj].
    destruct (Hc j r Hj) as (a & Hlk).
    assert (Hnone : filter (fun q => q ∉ taken) (uo_preconditions r) = []).
    { apply length_zero_iff_nil, Nat.le_0_r, Nat.nlt_ge. intros Hpos.
      destruct (filter _ _) as [|q l] eqn:Hfil; [simpl in Hpos; lia |].
      assert (Hq : q ∈ filter (fun q => q ∉ taken) (uo_preconditions r))
        by (rewrite Hfil; by left).
      apply list_elem_of_filter in Hq as [Hnot Hq]. apply Hnot.
      specialize (Hl q (IH q Hq)). rewrite Hempty in Hl. by simpl in Hl. }
    rewrite Hnone in Hlk. simpl in Hlk. subst p.
    apply (Hfd j r a); try done.
    + by eapply lookup_lt_Some.
    + by rewrite Hlen.
Qed.

Lemma backed_within n p :
  backed rules excluded_props excluded_ops seeds
         (explore rules excluded_props excluded_ops n seeds) p ->
  derivable_within rules excluded_props excluded_ops seeds n p.
Proof.
  pose proof (length_explore n) as Hlen.
  induction 1 as [p nd Hnd Hc Hrb Hal Hseed
                 | p nd i r Hnd Hc Hrb Hal Hr Heff Hen Hpre IH].
  - apply within_seed; [done | done |]. apply lookup_lt_Some in Hnd. lia.
  - apply (within_rule _ _ _ _ n p r); try done.
    + apply list_elem_of_lookup. eauto.
    + apply lookup_lt_Some in Hnd. lia.
Qed.

(** A run reaches exactly the propositions that are reachable in the
    relaxed task with its exclusions. *)
Lemma explore_exact n p :
  reached (explore rules excluded_props excluded_ops n seeds) p <->
  derivable_within rules excluded_props excluded_ops seeds n p.
Proof using rules_nodup.
  split; [|apply explore_complete].
  intros Hp. by apply backed_within, explore_backed.
Qed.
End EngineCompleteness.

(** ** The relaxed plan of an evaluation *)

Lemma mark_goals_effect h state :
  ensures (fun hm => evolves state h hm /\ chain_effect h hm /\
                     forall g, g ∈ goal_propositions h -> marked_at (propositions hm) g)
          (fun _ => True) (mark_goals h state).
Proof.
  unfold mark_goals.
  eapply ensures_weaken with
    (P := fun hm => evolves state h hm /\ chain_effect h hm /\
                    forall g, g ∈ [] ++ goal_propositions h ->
                              marked_at (propositions hm) g);
    [| by intros | done].
  apply (for_each_prefix _
           (fun pre hm => evolves state h hm /\ chain_effect h hm /\
                          forall g, g ∈ pre -> marked_at (propositions hm) g)
           (fun _ => True) (goal_propositions h) []).
  { split; [apply evolves_refl |]. split; [apply chain_effect_refl |].
    intros g Hg. by apply elem_of_nil in Hg. }
  intros pre g h1 _ (Hev & Hce & Hpre).
  eapply ensures_weaken; [apply mark_effect | | done].
  intros h2 (Hev2 & Hce2 & Hmk). cbv beta.
  split; [eauto using evolves_trans |]. split; [by eapply chain_effect_trans |].
  intros g' [Hg' | Hg']%elem_of_app.
  - eapply marked_at_same_nodes; [exact (ev_props _ _ _ Hev2) | auto].
  - by apply list_elem_of_singleton in Hg' as ->.
Qed.

Lemma mark_goals_closes h state :
  closed_except [] h ->
  ensures (closed_except []) (fun _ => True) (mark_goals h state).
Proof.
  intros Hcl. unfold mark_goals. apply for_each_inv; [done |].
  intros g h1 _ Hcl1. by apply mark_closes.
Qed.

Lemma marks_clear_closed open h : marks_clear (propositions h) -> closed_except open h.
Proof.
  intros Hclear p _ nd Hnd Hm. unfold marks_clear in Hclear.
  rewrite Forall_lookup in Hclear. specialize (Hclear _ _ Hnd). congruence.
Qed.

Lemma flagged_plan_ops h o : flagged h o <-> o ∈ plan_ops (relaxed_plan h).
Proof.
  unfold flagged, plan_ops. rewrite list_elem_of_filter, elem_of_seq. split.
  - intros Ho. split; [done |]. apply lookup_lt_Some in Ho. lia.
  - by intros [Ho _].
Qed.

(** The loop over the relaxed plan touches neither the list of preferred
    operators nor the task, whether or not it runs to its end. *)
Lemma tally_plan_keeps h :
  ensures (fun st => preferred_operators st.1.1 = preferred_operators h /\
                     propositions st.1.1 = propositions h /\
                     ff_task st.1.1 = ff_task h)
          (fun _ => True) (tally_plan h).
Proof.
  unfold tally_plan. apply for_each_inv; [done |].
  intros x [[h1 h_ff] adj] _ (Hp & Hps & Ht). cbn [fst] in *. unfold tally.
  eapply ensures_bind; [by apply ensures_at_index |].
  intros [] _; [|done]. cbv zeta.
  eapply ensures_bind; [by apply ensures_at_index |].
  intros op _. cbn [with_relaxed_plan use_learned_weights op_weights].
  destruct (use_learned_weights h1); [|done].
  by destruct (map_subscript _ _).
Qed.

(** An evaluation that returns went through the dead-end exit, or through
    both loops. *)
Lemma compute_heuristic_Done h state hf v :
  compute_heuristic h state = Done (hf, v) ->
  ((compute_add_and_ff h state).2 = DEAD_END /\ hf = (compute_add_and_ff h state).1) \/
  exists hm st,
    mark_goals (compute_add_and_ff h state).1 state = Done hm /\
    tally_plan hm = Done st /\ hf = st.1.1.
Proof.
  unfold compute_heuristic, convert_ancestor_state.
  destruct (compute_add_and_ff h state) as [h1 h_add]. cbn [fst snd].
  destruct (Z.eqb_spec h_add DEAD_END) as [->|_].
  { intros [= <- <-]. by left. }
  destruct (mark_goals h1 state) as [hm|e] eqn:Hm; [|done].
  rewrite bind_Done.
  destruct (tally_plan hm) as [[[h2 h_ff] adj]|e] eqn:Ht; [|done].
  rewrite bind_Done. intros Hres. right. exists hm, (h2, h_ff, adj).
  split; [done |]. split; [done |]. cbn [fst].
  destruct (use_learned_weights h2); [destruct (ceil_to_int adj) |]; congruence.
Qed.

Lemma backed_marked_derivable h1 hm state :
  evolves state h1 hm -> closed_except [] hm ->
  forall p,
    backed (unary_operators h1) [] ∅ (state_props (ff_task h1) state) (propositions h1) p ->
    marked_at (propositions hm) p ->
    derivable (unary_operators h1) (state_props (ff_task h1) state)
      (fun o => o = (-1)%Z \/ (0 <= o)%Z /\ flagged hm (Z.to_nat o)) p.
Proof.
  intros Hev Hcl. induction 1 as [p nd Hnd Hc Hrb Hal Hseed
                                 | p nd i r Hnd Hc Hrb Hal Hr Heff Hen Hpre IH];
    intros (nd' & Hnd' & Hm').
  { by apply derivable_seed. }
  destruct (Forall2_lookup_l _ _ _ _ _ (ev_props _ _ _ Hev) Hnd)
    as (nd'' & Hnd'' & (_ & Hrb' & _)).
  assert (nd'' = nd') as -> by congruence.
  destruct (Hcl p ltac:(apply not_elem_of_nil) nd' Hnd' Hm')
    as [Hno | (r' & _ & Hr' & Hpre' & Hown)].
  { rewrite Hrb', Hrb in Hno. unfold NO_OP in Hno. lia. }
  rewrite Hrb', Hrb, Nat2Z.id in Hr'.
  assert (r' = r) as ->.
  { unfold unary_operators in *. rewrite (ev_task _ _ _ Hev) in Hr'. congruence. }
  apply (derivable_rule _ _ _ p r).
  - apply list_elem_of_lookup. eauto.
  - done.
  - destruct (decide (uo_operator_no r = (-1)%Z)) as [|Hne]; [by left |].
    right. by apply Hown.
  - intros q Hq. apply IH; [done | by apply Hpre'].
Qed.

Lemma derivable_weaken rules seeds (P Q : Z -> Prop) p :
  (forall o, P o -> Q o) -> derivable rules seeds P p -> derivable rules seeds Q p.
Proof.
  intros HPQ. induction 1 as [p Hp | p r Hr Heff Hal Hpre IH].
  - by apply derivable_seed.
  - eapply derivable_rule; eauto.
Qed.

Lemma circular_closed : closed_except [] circular_heuristic.
Proof.
  intros p _ nd Hnd Hm.
  destruct p as [|[|[|[|p]]]]; simpl in Hnd; try discriminate;
    injection Hnd as <-; discriminate.
Qed.

(** X1.  The backward chain and the relaxed plan: a chain that returns has
    cleared no flag of the relaxed plan; every flag it has set belongs to the
    operator that owns the first achiever of a proposition the chain has
    marked (so no axiom and no other operator enters the plan); it has removed
    no preferred operator, and every operator it has made preferred is flagged
    in the relaxed plan. *)
Theorem chain_flags_first_achievers :
  forall (fuel : nat) (h : FFHeuristic) (state : State) (goal_id : PropID)
         (h' : FFHeuristic),
    mark_preferred_operators_and_relaxed_plan fuel h state goal_id = Done h' ->
    (forall o, flagged h o -> flagged h' o) /\
    (forall o, flagged h' o ->
       flagged h o \/
       exists p, ~ marked_at (propositions h) p /\ marked_at (propositions h') p /\
                 achieved_by h p o) /\
    (forall o, o ∈ preferred_operators h -> o ∈ preferred_operators h') /\
    (forall o, o ∈ preferred_operators h' -> o ∈ preferred_operators h \/ flagged h' o).
Proof.
  intros fuel h state goal_id h' Hrun.
  pose proof (mark_effect state fuel h goal_id) as H. rewrite Hrun in H.
  destruct H as (_ & [K N PK PN] & _). auto.
Qed.

Lemma chain_flags_first_achievers_witness :
  exists h',
    mark_preferred_operators_and_relaxed_plan 5 circular_heuristic [0; 0] 3 = Done h' /\
    relaxed_plan h' = [true; true] /\
    (forall o, flagged circular_heuristic o -> flagged h' o) /\
    (forall o, flagged h' o ->
       flagged circular_heuristic o \/
       exists p, ~ marked_at (propositions circular_heuristic) p /\
                 marked_at (propositions h') p /\
                 achieved_by circular_heuristic p o) /\
    (forall o, o ∈ preferred_operators circular_heuristic -> o ∈ preferred_operators h') /\
    (forall o, o ∈ preferred_operators h' ->
       o ∈ preferred_operators circular_heuristic \/ flagged h' o).
Proof.
  eexists. split; [vm_compute; reflexivity |]. split; [reflexivity |].
  apply (chain_flags_first_achievers 5 circular_heuristic [0; 0] 3).
  vm_compute. reflexivity.
Defined.

(** X2.  What a backward chain leaves alone: a chain that returns has marked
    the proposition it started from, has changed no cost and no first
    achiever, has taken back no mark, and has touched neither the task, the
    mode, the weight table nor the size of the relaxed-plan array. *)
Theorem chain_changes_marks_only :
  forall (fuel : nat) (h : FFHeuristic) (state : State) (goal_id : PropID)
         (h' : FFHeuristic),
    mark_preferred_operators_and_relaxed_plan fuel h state goal_id = Done h' ->
    marked_at (propositions h') goal_id /\
    Forall2 same_node (propositions h) (propositions h') /\
    ff_task h' = ff_task h /\
    use_learned_weights h' = use_learned_weights h /\
    op_weights h' = op_weights h /\
    length (relaxed_plan h') = length (relaxed_plan h).
Proof.
  intros fuel h state goal_id h' Hrun.
  pose proof (mark_effect state fuel h goal_id) as H. rewrite Hrun in H.
  destruct H as ([Ht Hl Hw Hp Hlen _] & _ & Hmk). auto 10.
Qed.

Lemma chain_changes_marks_only_witness :
  exists h',
    mark_preferred_operators_and_relaxed_plan 5 circular_heuristic [0; 0] 3 = Done h' /\
    map marked (propositions h') = [false; true; false; true] /\
    marked_at (propositions h') 3 /\
    Forall2 same_node (propositions circular_heuristic) (propositions h') /\
    ff_task h' = ff_task circular_heuristic /\
    use_learned_weights h' = use_learned_weights circular_heuristic /\
    op_weights h' = op_weights circular_heuristic /\
    length (relaxed_plan h') = length (relaxed_plan circular_heuristic).
Proof.
  eexists. split; [vm_compute; reflexivity |]. split; [reflexivity |].
  apply (chain_changes_marks_only 5 circular_heuristic [0; 0] 3).
  vm_compute. reflexivity.
Defined.

(** X3.  The marked set stays justified: if, before a chain, every marked
    proposition either has no achiever or has all preconditions of its
    achiever marked and the operator owning the achiever flagged, then the
    same holds when the chain returns, for the propositions it has marked too. *)
Theorem chain_justifies_marked_set :
  forall (fuel : nat) (h : FFHeuristic) (state : State) (goal_id : PropID)
         (h' : FFHeuristic),
    closed_except [] h ->
    mark_preferred_operators_and_relaxed_plan fuel h state goal_id = Done h' ->
    closed_except [] h'.
Proof.
  intros fuel h state goal_id h' Hcl Hrun.
  pose proof (mark_closes state fuel h goal_id [] Hcl) as H. by rewrite Hrun in H.
Qed.

Lemma chain_justifies_marked_set_witness :
  closed_except [] circular_heuristic /\
  exists h',
    mark_preferred_operators_and_relaxed_plan 5 circular_heuristic [0; 0] 3 = Done h' /\
    closed_except [] h'.
Proof.
  split; [exact circular_closed |].
  eexists. split; [vm_compute; reflexivity |].
  apply (chain_justifies_marked_set 5 circular_heuristic [0; 0] 3 _ circular_closed).
  vm_compute. reflexivity.
Defined.

(** X4.  Preferred operators come from the relaxed plan: an evaluation that
    returns removes no operator from the preferred list, and every operator it
    adds is an operator of the relaxed plan of that evaluation. *)
Theorem preferred_operators_in_relaxed_plan :
  forall (h : FFHeuristic) (state : State) (hf : FFHeuristic) (v : Z),
    compute_heuristic h state = Done (hf, v) ->
    (forall o, o ∈ preferred_operators h -> o ∈ preferred_operators hf) /\
    (forall o, o ∈ preferred_operators hf ->
       o ∈ preferred_operators h \/ o ∈ relaxed_plan_of h state).
Proof.
  intros h state hf v Hres.
  destruct (compute_heuristic_Done _ _ _ _ Hres) as [[_ ->] | (hm & st & Hm & Ht & ->)].
  { split; intros o Ho; [done | by left]. }
  pose proof (mark_goals_effect (compute_add_and_ff h state).1 state) as Hge.
  rewrite Hm in Hge. destruct Hge as (_ & [_ _ PK PN] & _).
  pose proof (tally_plan_keeps hm) as Hk. rewrite Ht in Hk. destruct Hk as (Hp & _ & _).
  rewrite Hp. unfold relaxed_plan_of. rewrite Hm. split.
  - intros o Ho. by apply PK.
  - intros o Ho. destruct (PN o Ho) as [?|Hf]; [by left |].
    right. by apply flagged_plan_ops.
Qed.

Lemma preferred_operators_in_relaxed_plan_witness :
  exists hf v,
    compute_heuristic gripper_structural [0; 0] = Done (hf, v) /\
    preferred_operators hf = [0] /\
    relaxed_plan_of gripper_structural [0; 0] = [0; 1] /\
    (forall o, o ∈ preferred_operators gripper_structural -> o ∈ preferred_operators hf) /\
    (forall o, o ∈ preferred_operators hf ->
       o ∈ preferred_operators gripper_structural \/
       o ∈ relaxed_plan_of gripper_structural [0; 0]).
Proof.
  eexists _, _. split; [vm_compute; reflexivity |]. split; [reflexivity |].
  split; [vm_compute; reflexivity |].
  eapply (preferred_operators_in_relaxed_plan gripper_structural [0; 0]).
  vm_compute. reflexivity.
Defined.

(** X5.  The relaxed plan is a plan of the relaxed task: when no goal fact is
    unreached, every goal proposition can be derived from the facts of the
    evaluated state by unary rules that belong to axioms or to operators of
    the relaxed plan of the evaluation. *)
Theorem relaxed_plan_supports_goals :
  forall (h : FFHeuristic) (state : State),
    task_ok (ff_task h) -> state_in_range (ff_task h) state ->
    length (relaxed_plan h) = length (task_operators (ff_task h)) ->
    (compute_add_and_ff h state).2 <> DEAD_END ->
    Forall (derivable (unary_operators h) (state_props (ff_task h) state)
              (fun o => o = (-1)%Z \/
                        (0 <= o)%Z /\ Z.to_nat o ∈ relaxed_plan_of h state))
           (goal_propositions h).
Proof.
  intros h state Hok Hst Hlen Halive.
  destruct (compute_heuristic_alive h state Hok Hst Hlen Halive)
    as (hm & hf & h_ff & adj & Hm & Hev & _ & _).
  set (h1 := (compute_add_and_ff h state).1) in *.
  assert (Hback : all_backed (unary_operators h1) [] ∅ (state_props (ff_task h1) state)
                             (propositions h1)) by apply explore_backed.
  assert (Hclear : marks_clear (propositions h1)) by apply explore_clear.
  pose proof (mark_goals_effect h1 state) as Hge. rewrite Hm in Hge.
  destruct Hge as (_ & _ & Hgoals).
  pose proof (mark_goals_closes h1 state (marks_clear_closed [] h1 Hclear)) as Hcl.
  rewrite Hm in Hcl. cbn [ensures] in Hcl.
  pose proof (compute_add_and_ff_alive h state Halive) as Hreached.
  apply Forall_forall. intros g Hg.
  rewrite Forall_forall in Hreached.
  eapply derivable_weaken;
    [| apply (backed_marked_derivable h1 hm state Hev Hcl g);
       [apply Hback, Hreached, Hg | apply Hgoals, Hg]].
  intros o [-> | [Hpos Hf]]; [by left | right]. split; [done |].
  unfold relaxed_plan_of. fold h1. rewrite Hm. by apply flagged_plan_ops.
Qed.

Lemma relaxed_plan_supports_goals_witness :
  (task_ok gripper_task /\ state_in_range gripper_task [0; 0] /\
   length (relaxed_plan gripper_structural) = length (task_operators gripper_task) /\
   (compute_add_and_ff gripper_structural [0; 0]).2 <> DEAD_END) /\
  relaxed_plan_of gripper_structural [0; 0] = [0; 1] /\
  Forall (derivable (unary_operators gripper_structural)
            (state_props gripper_task [0; 0])
            (fun o => o = (-1)%Z \/
                      (0 <= o)%Z /\
                      Z.to_nat o ∈ relaxed_plan_of gripper_structural [0; 0]))
         (goal_propositions gripper_structural).
Proof.
  assert (Halive : (compute_add_and_ff gripper_structural [0; 0]).2 <> DEAD_END)
    by (vm_compute; discriminate).
  split; [|split].
  - split; [exact gripper_task_ok |]. split; [exact gripper_state_ok |]. by split.
  - vm_compute. reflexivity.
  - exact (relaxed_plan_supports_goals gripper_structural [0; 0]
             gripper_task_ok gripper_state_ok eq_refl Halive).
Defined.

(** ** The value of a structural evaluation, and the growth of the table *)

Lemma table_after_snoc task m l x k :
  table_after task m (l ++ [x]) k
  = match table_after task m l k with
    | Some w => Some w
    | None => if bool_decide (k = family task x) then Some 0%float else None
    end.
Proof.
  unfold table_after. destruct (m !! k); [done |].
  rewrite List.map_app. cbn [map].
  destruct (decide (k ∈ map (family task) l)) as [H1|H1].
  - rewrite !bool_decide_eq_true_2; [done | done |]. apply elem_of_app. by left.
  - rewrite (bool_decide_eq_false_2 _ H1).
    destruct (decide (k = family task x)) as [H2|H2].
    + rewrite !bool_decide_eq_true_2; [done | done |]. apply elem_of_app. right.
      by apply list_elem_of_singleton.
    + rewrite !bool_decide_eq_false_2; [done | done |].
      intros [?|Hin]%elem_of_app; [done |]. by apply list_elem_of_singleton in Hin.
Qed.

Lemma tally_step_table h0 pre x st :
  x ∉ pre ->
  use_learned_weights h0 = true ->
  tallied h0 pre st ->
  (forall k, op_weights st.1.1 !! k
             = table_after (ff_task h0) (op_weights h0)
                 (filter (fun i => relaxed_plan h0 !! i = Some true) pre) k) ->
  ensures (fun st' => forall k, op_weights st'.1.1 !! k
             = table_after (ff_task h0) (op_weights h0)
                 (filter (fun i => relaxed_plan h0 !! i = Some true) (pre ++ [x])) k)
          (fun _ => True) (tally st x).
Proof.
  intros Hfresh Hlearned [Ht _ _ Hl _ _ Hre _ _ _ _] Hw.
  destruct st as [[h h_ff] adj]. cbn [fst snd] in *. unfold tally.
  eapply ensures_bind; [by apply ensures_at_index |].
  intros b Hb. cbv beta in *. rewrite (Hre x Hfresh) in Hb.
  destruct b.
  - cbv zeta. cbn [with_relaxed_plan ff_task use_learned_weights op_weights].
    eapply ensures_bind; [by apply ensures_at_index |].
    intros op Hop. cbv beta in *. rewrite Ht in Hop. rewrite Hl, Hlearned.
    assert (Hkey : family (ff_task h0) x = up_to_blank (name op)).
    { unfold family, operator_at. by rewrite Hop. }
    rewrite filter_snoc_True by done.
    unfold map_subscript.
    destruct (op_weights h !! up_to_blank (name op)) as [w|] eqn:Hlk; cbn [ensures fst];
      cbn [with_op_weights op_weights]; intros k;
      rewrite table_after_snoc, <- Hw, Hkey.
    + destruct (op_weights h !! k) eqn:Hk; [done |].
      case_bool_decide as Heq; [|done]. congruence.
    + destruct (decide (k = up_to_blank (name op))) as [->|Hne].
      * by rewrite lookup_insert_eq, Hlk, bool_decide_eq_true_2.
      * rewrite lookup_insert_ne by done.
        destruct (op_weights h !! k); [done |]. by rewrite bool_decide_eq_false_2.
  - cbn [ensures fst]. rewrite filter_snoc_False by congruence. exact Hw.
Qed.

Lemma tally_plan_table h :
  length (relaxed_plan h) = length (task_operators (ff_task h)) ->
  use_learned_weights h = true ->
  ensures (fun st => forall k, op_weights st.1.1 !! k
             = table_after (ff_task h) (op_weights h) (plan_ops (relaxed_plan h)) k)
          (fun _ => True) (tally_plan h).
Proof.
  intros Hops Hlearned. unfold tally_plan, plan_ops.
  eapply ensures_weaken with
    (P := fun st => tallied h (seq 0 (length (relaxed_plan h))) st /\
                    forall k, op_weights st.1.1 !! k
                      = table_after (ff_task h) (op_weights h)
                          (filter (fun i => relaxed_plan h !! i = Some true)
                                  (seq 0 (length (relaxed_plan h)))) k);
    [| by intros st [_ ?] | done].
  apply (for_each_split tally
           (fun pre st => tallied h pre st /\
              forall k, op_weights st.1.1 !! k
                = table_after (ff_task h) (op_weights h)
                    (filter (fun i => relaxed_plan h !! i = Some true) pre) k)
           (fun _ => True) (seq 0 (length (relaxed_plan h))) _ []); [done | |].
  - split.
    + split; cbn [fst snd]; try done.
      * intros i Hi. by apply elem_of_nil in Hi.
      * by destruct (use_learned_weights h).
    + intros k. cbn [fst]. unfold table_after. simpl.
      by destruct (op_weights h !! k).
  - intros pre x suf st Hseq [Hst Hw].
    assert (Hfresh : x ∉ pre).
    { pose proof (NoDup_seq 0 (length (relaxed_plan h))) as Hnd.
      rewrite Hseq in Hnd. apply NoDup_app in Hnd as (_ & Hdisj & _).
      intros Hin. apply (Hdisj x Hin). by left. }
    apply ensures_conj.
    + eapply ensures_weaken; [by eapply tally_step | done | done].
    + by apply tally_step_table.
Qed.

(** X6.  The structural value: without learned weights, an evaluation of a
    state whose goal facts are all reached returns the sum of the costs of the
    operators of the relaxed plan, each counted once, added in operator order
    in [int] arithmetic, and leaves the weight table as it found it; when the
    operator costs are non-negative and fit into an [int] together, the value
    is their sum as a number. *)
Theorem structural_estimate_is_plan_cost :
  forall (h : FFHeuristic) (state : State),
    task_ok (ff_task h) -> state_in_range (ff_task h) state ->
    length (relaxed_plan h) = length (task_operators (ff_task h)) ->
    use_learned_weights h = false ->
    (compute_add_and_ff h state).2 <> DEAD_END ->
    exists hf,
      compute_heuristic h state
      = Done (hf, cost_sum (ff_task h) (relaxed_plan_of h state)) /\
      op_weights hf = op_weights h /\
      (costs_fit (ff_task h) ->
       cost_sum (ff_task h) (relaxed_plan_of h state)
       = cost_total (ff_task h) (relaxed_plan_of h state)).
Proof.
  intros h state Hok Hst Hlen Hoff Halive.
  destruct (compute_heuristic_alive h state Hok Hst Hlen Halive)
    as (hm & hf & h_ff & adj & Hm & Hev & Htl & Hres).
  rewrite Hres, Hoff. exists hf.
  pose proof (tl_cost _ _ _ Htl) as Hc. cbn [fst snd] in Hc.
  assert (Htask : ff_task hm = ff_task h) by apply (ev_task _ _ _ Hev).
  assert (Hplan : relaxed_plan_of h state = plan_ops (relaxed_plan hm)).
  { unfold relaxed_plan_of. by rewrite Hm. }
  rewrite Hplan. split; [|split].
  - unfold plan_ops. by rewrite Hc, Htask.
  - pose proof (tl_weights_off _ _ _ Htl) as Hw. cbn [fst] in Hw. rewrite Hw.
    + apply (ev_weights _ _ _ Hev).
    + by rewrite (ev_learned _ _ _ Hev).
  - intros Hfit. apply plan_cost_fits; [done |].
    by rewrite (ev_plan _ _ _ Hev).
Qed.

Lemma structural_estimate_is_plan_cost_witness :
  (task_ok gripper_task /\ state_in_range gripper_task [0; 0] /\
   length (relaxed_plan gripper_structural) = length (task_operators gripper_task) /\
   use_learned_weights gripper_structural = false /\
   (compute_add_and_ff gripper_structural [0; 0]).2 <> DEAD_END) /\
  cost_sum gripper_task (relaxed_plan_of gripper_structural [0; 0]) = 2%Z /\
  exists hf,
    compute_heuristic gripper_structural [0; 0]
    = Done (hf, cost_sum (ff_task gripper_structural)
                  (relaxed_plan_of gripper_structural [0; 0])) /\
    op_weights hf = op_weights gripper_structural /\
    (costs_fit (ff_task gripper_structural) ->
     cost_sum (ff_task gripper_structural) (relaxed_plan_of gripper_structural [0; 0])
     = cost_total (ff_task gripper_structural)
         (relaxed_plan_of gripper_structural [0; 0])).
Proof.
  assert (Halive : (compute_add_and_ff gripper_structural [0; 0]).2 <> DEAD_END)
    by (vm_compute; discriminate).
  split; [|split].
  - split; [exact gripper_task_ok |]. split; [exact gripper_state_ok |]. by repeat split.
  - vm_compute. reflexivity.
  - exact (structural_estimate_is_plan_cost gripper_structural [0; 0]
             gripper_task_ok gripper_state_ok eq_refl eq_refl Halive).
Defined.

(** X7.  The weight table only gains zero entries: an evaluation that returns
    leaves the table as it was when it took the dead-end exit or ran without
    learned weights; in learned-weight mode it keeps every entry, and the keys
    it adds are the family keys of the operators of the relaxed plan that had
    no entry, each with the weight [0.0]. *)
Theorem learned_table_gains_zero_entries :
  forall (h : FFHeuristic) (state : State) (hf : FFHeuristic) (v : Z),
    task_ok (ff_task h) -> state_in_range (ff_task h) state ->
    length (relaxed_plan h) = length (task_operators (ff_task h)) ->
    compute_heuristic h state = Done (hf, v) ->
    ((compute_add_and_ff h state).2 = DEAD_END \/ use_learned_weights h = false ->
     op_weights hf = op_weights h) /\
    ((compute_add_and_ff h state).2 <> DEAD_END -> use_learned_weights h = true ->
     forall k, op_weights hf !! k
               = table_after (ff_task h) (op_weights h) (relaxed_plan_of h state) k).
Proof.
  intros h state hf v Hok Hst Hlen Hres. split.
  - intros Hwhy.
    destruct (decide ((compute_add_and_ff h state).2 = DEAD_END)) as [Hdead|Halive].
    { rewrite (compute_heuristic_dead _ _ Hdead) in Hres. by injection Hres as <- _. }
    destruct Hwhy as [?|Hoff]; [done |].
    destruct (compute_heuristic_alive h state Hok Hst Hlen Halive)
      as (hm & hf' & h_ff & adj & Hm & Hev & Htl & Hres').
    rewrite Hres', Hoff in Hres. injection Hres as <- _.
    pose proof (tl_weights_off _ _ _ Htl) as Hw. cbn [fst] in Hw. rewrite Hw.
    + apply (ev_weights _ _ _ Hev).
    + by rewrite (ev_learned _ _ _ Hev).
  - intros Halive Hlearned.
    destruct (compute_heuristic_alive h state Hok Hst Hlen Halive)
      as (hm & hf' & h_ff & adj & Hm & Hev & Htl & Hres').
    assert (Hlenm : length (relaxed_plan hm) = length (task_operators (ff_task hm))).
    { by rewrite (ev_plan _ _ _ Hev), (ev_task _ _ _ Hev). }
    assert (Hlm : use_learned_weights hm = true) by (by rewrite (ev_learned _ _ _ Hev)).
    pose proof (tally_plan_table hm Hlenm Hlm) as Htab.
    destruct (compute_heuristic_Done _ _ _ _ Hres) as [[? _] | (hm' & st & Hm' & Ht & ->)];
      [done |].
    assert (hm' = hm) as -> by congruence.
    rewrite Ht in Htab. cbn [ensures] in Htab. intros k. rewrite Htab.
    unfold relaxed_plan_of. rewrite Hm.
    by rewrite (ev_task _ _ _ Hev), (ev_weights _ _ _ Hev).
Qed.

Lemma learned_table_gains_zero_entries_witness :
  (task_ok gripper_task /\ state_in_range gripper_task [0; 0] /\
   length (relaxed_plan gripper_partial) = length (task_operators gripper_task)) /\
  exists hf v,
    compute_heuristic gripper_partial [0; 0] = Done (hf, v) /\
    op_weights gripper_partial !! "put-down" = None /\
    op_weights hf !! "put-down" = Some 0%float /\
    ((compute_add_and_ff gripper_partial [0; 0]).2 = DEAD_END \/
     use_learned_weights gripper_partial = false ->
     op_weights hf = op_weights gripper_partial) /\
    ((compute_add_and_ff gripper_partial [0; 0]).2 <> DEAD_END ->
     use_learned_weights gripper_partial = true ->
     forall k, op_weights hf !! k
               = table_after (ff_task gripper_partial) (op_weights gripper_partial)
                   (relaxed_plan_of gripper_partial [0; 0]) k).
Proof.
  split.
  - split; [exact gripper_task_ok |]. split; [exact gripper_state_ok | reflexivity].
  - eexists _, _. split; [vm_compute; reflexivity |].
    split; [vm_compute; reflexivity |]. split; [vm_compute; reflexivity |].
    eapply (learned_table_gains_zero_entries gripper_partial [0; 0] _ _
              gripper_task_ok gripper_state_ok eq_refl).
    vm_compute. reflexivity.
Defined.

(** ** An estimate does not depend on what was evaluated before *)

Lemma rel_bind {A A' B B' : Type} (R : A -> A' -> Prop) (Q : B -> B' -> Prop)
    (m : outcome A) (m' : outcome A') (f : A -> outcome B) (f' : A' -> outcome B') :
  rel_outcome R m m' ->
  (forall a a', R a a' -> rel_outcome Q (f a) (f' a')) ->
  rel_outcome Q (m ≫= f) (m' ≫= f').
Proof. destruct m, m'; simpl; auto; done. Qed.

Lemma rel_same {A : Type} (m : outcome A) : rel_outcome eq m m.
Proof. by destruct m. Qed.

Lemma rel_for_each {A S S' : Type} (R : S -> S' -> Prop)
    (body : S -> A -> outcome S) (body' : S' -> A -> outcome S') (xs : list A) :
  (forall x s s', R s s' -> rel_outcome R (body s x) (body' s' x)) ->
  forall s s', R s s' -> rel_outcome R (for_each body xs s) (for_each body' xs s').
Proof.
  intros Hbody. induction xs as [|x xs IH]; intros s s' Hs; simpl; [done |].
  eapply rel_bind; [by apply Hbody | done].
Qed.

Lemma alike_set_marked h h' g : alike h h' -> alike (set_marked h g) (set_marked h' g).
Proof.
  intros [[Ht Hp Hl Hw] Hps]. split; [by split |].
  unfold set_marked. cbn [propositions with_propositions]. by rewrite Hps.
Qed.

Lemma alike_set_preferred h h' o : alike h h' -> alike (set_preferred h o) (set_preferred h' o).
Proof.
  intros [[Ht Hp Hl Hw] Hps]. unfold set_preferred.
  do 2 case_bool_decide; by split.
Qed.

(** Backward chains on two objects that agree on the task, the table and
    the relaxed plan end alike. *)
Lemma mark_alike state :
  forall fuel h h' goal_id,
    alike h h' ->
    rel_outcome alike
      (mark_preferred_operators_and_relaxed_plan fuel h state goal_id)
      (mark_preferred_operators_and_relaxed_plan fuel h' state goal_id).
Proof.
  induction fuel as [|fuel IH]; intros h h' goal_id Hal; [done |].
  rewrite !mark_unfold.
  eapply rel_bind with (R := eq).
  { unfold get_proposition. rewrite (proj2 Hal). apply rel_same. }
  intros goal ? <-. destruct (marked goal); [done |]. cbv zeta.
  pose proof (alike_set_marked h h' goal_id Hal) as Hal0.
  destruct (reached_by goal =? NO_OP)%Z; [done |].
  eapply rel_bind with (R := eq).
  { unfold get_operator, unary_operators.
    change (ff_task (set_marked h' goal_id)) with (ff_task h').
    change (ff_task (set_marked h goal_id)) with (ff_task h).
    rewrite (sm_task _ _ (proj1 Hal)). apply rel_same. }
  intros unary_op ? <-.
  eapply rel_bind with
    (R := fun st st' : FFHeuristic * bool => alike st.1 st'.1 /\ st'.2 = st.2).
  { apply rel_for_each; [|done].
    intros precond [h1 p1] [h1' p1'] [Hal1 Hp]. cbn [fst snd] in *. subst p1'.
    eapply rel_bind; [by apply IH |].
    intros h2 h2' Hal2. eapply rel_bind with (R := eq).
    { unfold get_proposition. rewrite (proj2 Hal2). apply rel_same. }
    intros p ? <-. by split. }
  intros [h1 pref] [h1' pref'] [Hal1 Hp]. cbn [fst snd] in *. subst pref'.
  destruct (uo_operator_no unary_op =? -1)%Z; [done |].
  destruct Hal1 as [[Ht1 Hp1 Hl1 Hw1] Hps1].
  eapply rel_bind with (R := eq).
  { rewrite Hp1. apply rel_same. }
  intros b ? <-. cbv zeta. rewrite Hp1.
  set (rp := <[Z.to_nat (uo_operator_no unary_op) := true]> (relaxed_plan h1)).
  assert (Hal2 : alike (with_relaxed_plan h1 rp) (with_relaxed_plan h1' rp)).
  { by split; [split |]. }
  destruct pref; [|done].
  eapply rel_bind with (R := eq).
  { cbn [ff_task with_relaxed_plan]. rewrite Ht1. apply rel_same. }
  intros op ? <-. destruct (is_applicable op state); [|done].
  by apply alike_set_preferred.
Qed.

Lemma mark_goals_alike state h h' :
  alike h h' -> rel_outcome alike (mark_goals h state) (mark_goals h' state).
Proof.
  intros Hal. unfold mark_goals, goal_propositions.
  rewrite (sm_task _ _ (proj1 Hal)).
  apply rel_for_each; [|done].
  intros g h1 h1' Hal1. rewrite (proj2 Hal1). by apply mark_alike.
Qed.

Lemma tally_alike x (st st' : FFHeuristic * Z * float) :
  alike st.1.1 st'.1.1 -> st'.1.2 = st.1.2 -> st'.2 = st.2 ->
  rel_outcome (fun r r' : FFHeuristic * Z * float =>
                 alike r.1.1 r'.1.1 /\ r'.1.2 = r.1.2 /\ r'.2 = r.2)
              (tally st x) (tally st' x).
Proof.
  destruct st as [[h h_ff] adj], st' as [[h' h_ff'] adj']. cbn [fst snd].
  intros [[Ht Hp Hl Hw] Hps] -> ->. unfold tally.
  eapply rel_bind with (R := eq).
  { rewrite Hp. apply rel_same. }
  intros b ? <-. destruct b; [|by split; [split; [split |] |]]. cbv zeta.
  cbn [ff_task with_relaxed_plan use_learned_weights op_weights].
  eapply rel_bind with (R := eq).
  { rewrite Ht. apply rel_same. }
  intros op ? <-. rewrite Hl, Hp.
  destruct (use_learned_weights h) eqn:Hlh.
  2: { split; [split; [split |] |];
         cbn [with_op_weights ff_task relaxed_plan use_learned_weights op_weights
              propositions with_relaxed_plan fst snd]; try done; congruence. }
  destruct (map_subscript_spec (op_weights h) (up_to_blank (name op))) as [Hw1 Hw2].
  destruct (map_subscript_spec (op_weights h') (up_to_blank (name op))) as [Hw1' Hw2'].
  destruct (map_subscript (op_weights h) _) as [w m].
  destruct (map_subscript (op_weights h') _) as [w' m'].
  cbn [fst snd rel_outcome] in *.
  split; [split; [split |] |]; cbn [with_op_weights ff_task relaxed_plan
    use_learned_weights op_weights propositions with_relaxed_plan];
    try done; try congruence; try (intros k; by rewrite Hw2', Hw2).
  split; [done |]. by rewrite Hw1, Hw1', Hw.
Qed.

(** Evaluations on two similar objects end alike: with the same value and
    similar objects, or in the same failure. *)
Lemma compute_heuristic_similar h h' state :
  similar h h' ->
  rel_outcome (fun r r' : FFHeuristic * Z => similar r.1 r'.1 /\ r'.2 = r.2)
              (compute_heuristic h state) (compute_heuristic h' state).
Proof.
  intros [Ht Hp Hl Hw].
  assert (Hal : alike (compute_add_and_ff h state).1 (compute_add_and_ff h' state).1).
  { split; [by split |]. unfold compute_add_and_ff, unary_operators.
    cbn [fst propositions with_propositions]. by rewrite Ht. }
  assert (Hadd : (compute_add_and_ff h' state).2 = (compute_add_and_ff h state).2).
  { unfold compute_add_and_ff, unary_operators, goal_propositions.
    cbn [snd]. by rewrite Ht. }
  unfold compute_heuristic, convert_ancestor_state.
  destruct (compute_add_and_ff h state) as [h1 h_add],
           (compute_add_and_ff h' state) as [h1' h_add'].
  cbn [fst snd] in *. subst h_add'.
  destruct (h_add =? DEAD_END)%Z; [by split; [apply Hal |] |].
  eapply rel_bind; [by apply mark_goals_alike |].
  intros hm hm' Halm.
  eapply rel_bind with
    (R := fun r r' : FFHeuristic * Z * float =>
            alike r.1.1 r'.1.1 /\ r'.1.2 = r.1.2 /\ r'.2 = r.2).
  { unfold tally_plan. rewrite (sm_plan _ _ (proj1 Halm)).
    apply rel_for_each; [|by split].
    intros x st st' (H1 & H2 & H3). by apply tally_alike. }
  intros [[hf h_ff] adj] [[hf' h_ff'] adj'] (Half & H2 & H3).
  cbn [fst snd] in *. subst.
  rewrite (sm_learned _ _ (proj1 Half)).
  destruct (use_learned_weights hf); [|by split; [apply Half |]].
  destruct (ceil_to_int adj); [by split; [apply Half |] | done].
Qed.

Lemma rel_outcome_estimate (R : FFHeuristic -> FFHeuristic -> Prop)
    (o o' : outcome (FFHeuristic * Z)) :
  rel_outcome (fun r r' : FFHeuristic * Z => R r.1 r'.1 /\ r'.2 = r.2) o o' ->
  estimate o' = estimate o.
Proof.
  destruct o as [[h v]|e], o' as [[h' v']|e']; simpl; try done.
  - by intros [_ ->].
  - by intros ->.
Qed.

Lemma similar_refl h : similar h h.
Proof. by split. Qed.

Lemma similar_trans h1 h2 h3 : similar h1 h2 -> similar h2 h3 -> similar h1 h3.
Proof.
  intros [T1 P1 L1 W1] [T2 P2 L2 W2].
  split; first [congruence | intros k; by rewrite W2].
Qed.

Lemma all_false_eq (l l' : list bool) :
  length l' = length l -> Forall (fun b => b = false) l -> Forall (fun b => b = false) l' ->
  l' = l.
Proof.
  intros Hlen Hl Hl'. apply list_eq_same_length with (length l); [done | done |].
  intros i b b' _ Hb' Hb.
  rewrite Forall_lookup in Hl. rewrite Forall_lookup in Hl'.
  by rewrite (Hl _ _ Hb), (Hl' _ _ Hb').
Qed.

(** One evaluation on a cleared object leaves a similar object. *)
Lemma compute_heuristic_keeps_similar h state :
  task_ok (ff_task h) -> state_in_range (ff_task h) state ->
  length (relaxed_plan h) = length (task_operators (ff_task h)) ->
  Forall (fun b => b = false) (relaxed_plan h) ->
  ensures (fun r => similar h r.1 /\ Forall (fun b => b = false) (relaxed_plan r.1))
          (fun _ => True) (compute_heuristic h state).
Proof.
  intros Hok Hst Hlen Hclear.
  destruct (decide ((compute_add_and_ff h state).2 = DEAD_END)) as [Hdead|Halive].
  { rewrite (compute_heuristic_dead _ _ Hdead). by split. }
  destruct (compute_heuristic_alive h state Hok Hst Hlen Halive)
    as (hm & hf & h_ff & adj & Hm & Hev & Htl & Hres).
  rewrite Hres.
  assert (Hfalse : Forall (fun b => b = false) (relaxed_plan hf))
    by apply (tallied_all_false _ _ Htl).
  assert (Hsim : similar h hf).
  { pose proof (tl_task _ _ _ Htl) as H1. pose proof (tl_learned _ _ _ Htl) as H2.
    pose proof (tl_len _ _ _ Htl) as H3. pose proof (tl_weights _ _ _ Htl) as H4.
    cbn [fst] in *. split.
    - rewrite H1. apply (ev_task _ _ _ Hev).
    - apply all_false_eq; [|done | done]. rewrite H3. apply (ev_plan _ _ _ Hev).
    - rewrite H2. apply (ev_learned _ _ _ Hev).
    - intros k. rewrite H4. by rewrite (ev_weights _ _ _ Hev). }
  destruct (use_learned_weights h); [|by split].
  by destruct (ceil_to_int adj).
Qed.

(** X8.  The estimate is a function of the task, the mode, the relaxed-plan
    array and the weights read with [0.0] for a missing key: two objects that
    agree on these return the same value for every state, or fail alike,
    whatever their proposition tables and preferred operators hold. *)
Theorem estimate_ignores_table_and_preferred :
  forall (h h' : FFHeuristic) (state : State),
    ff_task h' = ff_task h ->
    relaxed_plan h' = relaxed_plan h ->
    use_learned_weights h' = use_learned_weights h ->
    (forall k, default 0%float (op_weights h' !! k) = default 0%float (op_weights h !! k)) ->
    estimate (compute_heuristic h' state) = estimate (compute_heuristic h state).
Proof.
  intros h h' state Ht Hp Hl Hw.
  eapply rel_outcome_estimate, compute_heuristic_similar. by split.
Qed.

Lemma estimate_ignores_table_and_preferred_witness :
  (ff_task (set_preferred (set_marked gripper_partial 3) 1) = ff_task gripper_partial /\
   relaxed_plan (set_preferred (set_marked gripper_partial 3) 1)
   = relaxed_plan gripper_partial /\
   use_learned_weights (set_preferred (set_marked gripper_partial 3) 1)
   = use_learned_weights gripper_partial /\
   (forall k, default 0%float
                (op_weights (set_preferred (set_marked gripper_partial 3) 1) !! k)
              = default 0%float (op_weights gripper_partial !! k))) /\
  estimate (compute_heuristic (set_preferred (set_marked gripper_partial 3) 1) [0; 0])
  = estimate (compute_heuristic gripper_partial [0; 0]).
Proof.
  split.
  - split; [reflexivity |]. split; [reflexivity |]. split; [reflexivity |].
    intros k. reflexivity.
  - apply (estimate_ignores_table_and_preferred gripper_partial
             (set_preferred (set_marked gripper_partial 3) 1) [0; 0]);
      reflexivity.
Defined.

(** X9.  Evaluations do not influence later ones: on an object whose relaxed
    plan is cleared (as the constructor leaves it), after any sequence of
    evaluations that returns, the estimate of every state is the one the
    object would have given before them. *)
Theorem estimate_independent_of_history :
  forall (h : FFHeuristic) (states : list State) (h' : FFHeuristic) (state : State),
    task_ok (ff_task h) ->
    Forall (state_in_range (ff_task h)) states ->
    length (relaxed_plan h) = length (task_operators (ff_task h)) ->
    Forall (fun b => b = false) (relaxed_plan h) ->
    evaluate_all h states = Done h' ->
    estimate (compute_heuristic h' state) = estimate (compute_heuristic h state).
Proof.
  intros h states h' state Hok Hsts Hlen Hclear Hrun.
  eapply rel_outcome_estimate, compute_heuristic_similar.
  assert (Hall : ensures (fun h1 => similar h h1 /\
                                    Forall (fun b => b = false) (relaxed_plan h1))
                         (fun _ => True) (evaluate_all h states)).
  { unfold evaluate_all. apply for_each_inv; [by split |].
    intros s h1 Hs [Hsim Hfalse]. rewrite Forall_forall in Hsts.
    destruct Hsim as [T P L W].
    eapply ensures_bind.
    - apply (compute_heuristic_keeps_similar h1 s).
      + by rewrite T.
      + rewrite T. by apply Hsts.
      + by rewrite P, T.
      + done.
    - intros [h2 v] [Hsim2 Hfalse2]. cbn [ensures fst] in *.
      split; [|done]. eapply similar_trans; [|exact Hsim2]. by split. }
  rewrite Hrun in Hall. apply Hall.
Qed.

Lemma estimate_independent_of_history_witness :
  (task_ok gripper_task /\
   Forall (state_in_range gripper_task) [[0; 0]; [1; 0]] /\
   length (relaxed_plan gripper_partial) = length (task_operators gripper_task) /\
   Forall (fun b => b = false) (relaxed_plan gripper_partial)) /\
  exists h',
    evaluate_all gripper_partial [[0; 0]; [1; 0]] = Done h' /\
    preferred_operators h' = [0; 1] /\
    op_weights h' !! "put-down" = Some 0%float /\
    estimate (compute_heuristic h' [0; 0])
    = estimate (compute_heuristic gripper_partial [0; 0]).
Proof.
  assert (Hstates : Forall (state_in_range gripper_task) [[0; 0]; [1; 0]]).
  { constructor; [solve_state_range |]. constructor; [solve_state_range | constructor]. }
  assert (Hclear : Forall (fun b => b = false) (relaxed_plan gripper_partial)).
  { repeat constructor. }
  split.
  - split; [exact gripper_task_ok |]. split; [exact Hstates |]. split; [reflexivity |].
    exact Hclear.
  - eexists. split; [vm_compute; reflexivity |].
    split; [vm_compute; reflexivity |]. split; [vm_compute; reflexivity |].
    apply (estimate_independent_of_history gripper_partial [[0; 0]; [1; 0]] _ [0; 0]
             gripper_task_ok Hstates eq_refl Hclear).
    vm_compute. reflexivity.
Defined.

(** ** The constructor and its weight table *)







(** ** The family key of an operator *)

(** X11.  The key [name.substr(0, name.find(" "))] under which the weight of
    an operator is looked up holds no blank and is the part of the name before
    its first blank: the name is the key, followed by nothing or by a blank
    and the rest; a name without blank is its own key. *)
Theorem family_key_is_first_word :
  forall s : string,
    (forall c, In c (String.list_ascii_of_string (up_to_blank s)) -> c <> " "%char) /\
    (exists rest, s = (up_to_blank s ++ rest)%string /\
                  (rest = EmptyString \/ exists r, rest = String " "%char r)) /\
    ((forall c, In c (String.list_ascii_of_string s) -> c <> " "%char) -> up_to_blank s = s).
Proof.
  induction s as [|a s (IH1 & (rest & IH2 & IH3) & IH4)].
  - split; [by intros c [] |]. split; [|done]. exists EmptyString. split; [done | by left].
  - cbn [up_to_blank]. destruct (Ascii.eqb_spec a " "%char) as [->|Hne].
    + split; [by intros c [] |]. split.
      * exists (String " "%char s). split; [done |]. right. by exists s.
      * intros Hall. by destruct (Hall " "%char (or_introl eq_refl)).
    + split; [|split].
      * intros c [<-|Hc]; [done | by apply IH1].
      * exists rest. split; [|done]. change (String a (up_to_blank s) +:+ rest)
          with (String a (up_to_blank s +:+ rest)). by rewrite <- IH2.
      * intros Hall. f_equal. apply IH4. intros c Hc. apply Hall. by right.
Qed.

(** ** Which operators become preferred *)

Lemma achieved_directly_same h h' p o :
  ff_task h' = ff_task h -> Forall2 same_node (propositions h) (propositions h') ->
  achieved_directly h p o <-> achieved_directly h' p o.
Proof.
  intros Ht Hps. unfold achieved_directly, unary_operators. rewrite Ht. split.
  - intros (nd & r & Hnd & Hpos & Hr & Ho & Hpre).
    destruct (Forall2_lookup_l _ _ _ _ _ Hps Hnd) as (nd' & Hnd' & (_ & Hrb & _)).
    exists nd', r. rewrite Hrb. repeat split; try done.
    intros q Hq. destruct (Hpre q Hq) as (nq & Hnq & Hno).
    destruct (Forall2_lookup_l _ _ _ _ _ Hps Hnq) as (nq' & Hnq' & (_ & Hrb' & _)).
    exists nq'. split; [done | congruence].
  - intros (nd' & r & Hnd' & Hpos & Hr & Ho & Hpre).
    destruct (Forall2_lookup_r _ _ _ _ _ Hps Hnd') as (nd & Hnd & (_ & Hrb & _)).
    exists nd, r. rewrite <- Hrb. repeat split; try done.
    intros q Hq. destruct (Hpre q Hq) as (nq' & Hnq' & Hno).
    destruct (Forall2_lookup_r _ _ _ _ _ Hps Hnq') as (nq & Hnq & (_ & Hrb' & _)).
    exists nq. split; [done | congruence].
Qed.

Lemma achieved_directly_evolves state h h' p o :
  evolves state h h' -> achieved_directly h p o <-> achieved_directly h' p o.
Proof. intros [Ht _ _ Hps _ _]. by apply achieved_directly_same. Qed.

Lemma marked_at_dec ps p : marked_at ps p \/ ~ marked_at ps p.
Proof.
  destruct (ps !! p) as [nd|] eqn:Hnd.
  - destruct (marked nd) eqn:Hm; [left; by exists nd | right].
    intros (nd' & Hnd' & Hm'). congruence.
  - right. intros (nd' & Hnd' & _). congruence.
Qed.

Lemma preferred_effect_refl h : preferred_effect h h.
Proof. split; [by left | done]. Qed.

Lemma preferred_effect_trans state h1 h2 h3 :
  evolves state h1 h2 -> preferred_effect h1 h2 ->
  evolves state h2 h3 -> chain_effect h2 h3 -> preferred_effect h2 h3 ->
  preferred_effect h1 h3.
Proof.
  intros Hev12 [N12 A12] Hev23 Hce23 [N23 A23]. split.
  - intros o Ho. destruct (N23 o Ho) as [H2 | (p & Hun & Hm & Hach)].
    + destruct (N12 o H2) as [H1 | (p & Hun & Hm & Hach)]; [by left |].
      right. exists p. split; [done |]. split; [|done].
      eapply marked_at_same_nodes; [exact (ev_props _ _ _ Hev23) | done].
    + right. exists p. split; [|split; [done |]].
      * intros H1. apply Hun.
        eapply marked_at_same_nodes; [exact (ev_props _ _ _ Hev12) | done].
      * by apply (achieved_directly_evolves state h1 h2).
  - intros p o Hun Hm Hach. destruct (marked_at_dec (propositions h2) p) as [H2|H2].
    + apply (ce_pref_kept _ _ Hce23). by apply (A12 p).
    + apply (A23 p); [done | done |]. by apply (achieved_directly_evolves state h1 h2).
Qed.

(** A chain that returns has made preferred exactly the operators that
    directly achieve a proposition it has marked. *)
Lemma mark_preferred_effect state :
  forall fuel h goal_id,
    ensures (preferred_effect h) (fun _ => True)
            (mark_preferred_operators_and_relaxed_plan fuel h state goal_id).
Proof.
  induction fuel as [|fuel IH]; intros h goal_id; [done |].
  rewrite mark_unfold.
  eapply ensures_bind; [by apply ensures_at_index |].
  intros goal Hgoal. cbv beta in *.
  destruct (marked goal) eqn:Hm; [apply preferred_effect_refl |].
  cbv zeta.
  set (h0 := set_marked h goal_id).
  assert (Hev0 : evolves state h h0) by apply set_marked_evolves.
  assert (Hun : ~ marked_at (propositions h) goal_id).
  { intros (nd & Hnd & Hmnd). congruence. }
  assert (Hother : forall p, p <> goal_id -> marked_at (propositions h0) p ->
                             marked_at (propositions h) p).
  { intros p Hne (nd & Hnd & Hmnd). unfold h0, set_marked in Hnd.
    cbn [propositions with_propositions] in Hnd.
    rewrite list_lookup_alter_ne in Hnd by done. by exists nd. }
  assert (Hno_achiever : forall o, (reached_by goal = NO_OP \/
            exists r, unary_operators h !! Z.to_nat (reached_by goal) = Some r /\
                      uo_operator_no r = (-1)%Z) ->
            ~ achieved_directly h goal_id o).
  { intros o Hwhy (nd & r & Hnd & Hpos & Hr & Ho & _).
    assert (nd = goal) as -> by congruence.
    destruct Hwhy as [Hno | (r' & Hr' & Hax)].
    - rewrite Hno in Hpos. unfold NO_OP in Hpos. lia.
    - assert (r' = r) as -> by congruence. lia. }
  (* what follows from the effect of the nested chains alone *)
  assert (Hlift : forall h1 : FFHeuristic,
            evolves state h0 h1 -> preferred_effect h0 h1 ->
            (forall o, o ∈ preferred_operators h1 ->
               o ∈ preferred_operators h \/
               exists p, ~ marked_at (propositions h) p /\
                         marked_at (propositions h1) p /\ achieved_directly h p o) /\
            (forall p o, p <> goal_id -> ~ marked_at (propositions h) p ->
               marked_at (propositions h1) p -> achieved_directly h p o ->
               o ∈ preferred_operators h1)).
  { intros h1 Hev1 [N A]. split.
    - intros o Ho. destruct (N o Ho) as [?|(p & Hunp & Hmp & Hach)]; [by left |].
      right. exists p. split; [|split; [done |]].
      + intros Hp. apply Hunp.
        eapply marked_at_same_nodes; [exact (ev_props _ _ _ Hev0) | done].
      + by apply (achieved_directly_evolves state h h0).
    - intros p o Hne Hunp Hmp Hach. apply (A p); [| done |].
      + intros Hp. by apply Hunp, Hother.
      + by apply (achieved_directly_evolves state h h0). }
  destruct (Z.eqb_spec (reached_by goal) NO_OP) as [Hno|Hrb].
  { cbn [ensures]. split; [by left |].
    intros p o Hunp Hmp Hach. destruct (decide (p = goal_id)) as [->|Hne].
    - destruct (Hno_achiever o); [by left | done].
    - destruct Hunp. by apply Hother. }
  eapply ensures_bind; [by apply ensures_at_index_Z |].
  intros unary_op [Hpos Hrule]. cbv beta in *.
  change (unary_operators h0) with (unary_operators h) in Hrule.
  eapply ensures_bind with
    (P := fun st : FFHeuristic * bool =>
            evolves state h0 st.1 /\ preferred_effect h0 st.1 /\
            (st.2 = true <->
             forall q, q ∈ uo_preconditions unary_op ->
                       exists nq, propositions h !! q = Some nq /\
                                  reached_by nq = NO_OP)).
  { eapply ensures_weaken with
      (P := fun st : FFHeuristic * bool =>
              evolves state h0 st.1 /\ preferred_effect h0 st.1 /\
              (st.2 = true <->
               forall q, q ∈ [] ++ uo_preconditions unary_op ->
                         exists nq, propositions h !! q = Some nq /\
                                    reached_by nq = NO_OP));
      [| by intros | done].
    apply (for_each_prefix _
             (fun pre (st : FFHeuristic * bool) =>
                evolves state h0 st.1 /\ preferred_effect h0 st.1 /\
                (st.2 = true <->
                 forall q, q ∈ pre ->
                           exists nq, propositions h !! q = Some nq /\
                                      reached_by nq = NO_OP))
             (fun _ => True) (uo_preconditions unary_op) []).
    { split; [apply evolves_refl |]. split; [apply preferred_effect_refl |].
      split; [|done]. intros _ q Hq. by apply elem_of_nil in Hq. }
    intros pre precond [h1 pref] _ (Hev1 & Hpe1 & Hflag). cbn [fst snd] in *.
    eapply ensures_bind;
      [apply ensures_conj; [apply mark_effect | apply IH] |].
    intros h2 ((Hev2 & Hce2 & _) & Hpe2). cbv beta in *.
    eapply ensures_bind; [by apply ensures_at_index |].
    intros p Hp. cbn [ensures fst snd].
    assert (Hev02 : evolves state h h2) by eauto using evolves_trans.
    split; [eauto using evolves_trans |].
    split; [by eapply preferred_effect_trans |].
    destruct (Forall2_lookup_r _ _ _ _ _ (ev_props _ _ _ Hev02) Hp)
      as (np & Hnp & (_ & Hrbp & _)).
    split.
    - intros Htrue q [Hq | Hq]%elem_of_app.
      + apply Hflag; [|done]. by destruct (reached_by p =? NO_OP)%Z.
      + apply list_elem_of_singleton in Hq as ->. exists np. split; [done |].
        destruct (Z.eqb_spec (reached_by p) NO_OP); [congruence | done].
    - intros Hall.
      destruct (Hall precond) as (nq & Hnq & Hnoq).
      { apply elem_of_app. right. by apply list_elem_of_singleton. }
      assert (nq = np) as -> by congruence.
      rewrite Hrbp, Hnoq. simpl. apply Hflag. intros q Hq. apply Hall.
      apply elem_of_app. by left. }
  intros [h1 pref] (Hev1 & Hpe1 & Hflag). cbn [fst snd] in *.
  destruct (Hlift h1 Hev1 Hpe1) as [Hnew Hall].
  destruct (Z.eqb_spec (uo_operator_no unary_op) (-1)) as [Hax|Hax].
  { cbn [ensures]. split; [done |].
    intros p o Hunp Hmp Hach. destruct (decide (p = goal_id)) as [->|Hne]; [|eauto].
    destruct (Hno_achiever o); [right; by exists unary_op | done]. }
  eapply ensures_bind; [by apply ensures_at_index_Z |].
  intros b [Hopos Hb]. cbv beta zeta in *.
  set (idx := Z.to_nat (uo_operator_no unary_op)) in *.
  set (h2 := with_relaxed_plan h1 _).
  assert (Hdirect : forall o, achieved_directly h goal_id o ->
            o = idx /\ forall q, q ∈ uo_preconditions unary_op ->
                         exists nq, propositions h !! q = Some nq /\
                                    reached_by nq = NO_OP).
  { intros o (nd & r & Hnd & _ & Hr & Ho & Hpre).
    assert (nd = goal) as -> by congruence.
    assert (r = unary_op) as -> by congruence.
    split; [|done]. unfold idx. rewrite Ho. by rewrite Nat2Z.id. }
  destruct pref.
  - eapply ensures_bind; [by apply ensures_at_index_Z |].
    intros op _. cbv beta in *.
    destruct (is_applicable op state); [|done].
    cbn [ensures]. fold idx. unfold set_preferred.
    case_bool_decide as Hin.
    + split; [done |].
      intros p o Hunp Hmp Hach. destruct (decide (p = goal_id)) as [->|Hne]; [|eauto].
      by destruct (Hdirect o Hach) as [-> _].
    + cbn [with_preferred preferred_operators propositions]. split.
      * intros o [Ho | Ho]%elem_of_app; [auto |].
        apply list_elem_of_singleton in Ho as ->. right. exists goal_id.
        split; [done |]. split.
        { eapply marked_at_same_nodes; [exact (ev_props _ _ _ Hev1) |].
          by eapply set_marked_marked_at. }
        exists goal, unary_op. split; [done |]. split; [done |]. split; [done |].
        split; [unfold idx; by rewrite Z2Nat.id | by apply Hflag].
      * intros p o Hunp Hmp Hach. apply elem_of_app.
        destruct (decide (p = goal_id)) as [->|Hne]; [|left; eauto].
        right. destruct (Hdirect o Hach) as [-> _]. by apply list_elem_of_singleton.
  - cbn [ensures]. split; [done |].
    intros p o Hunp Hmp Hach. destruct (decide (p = goal_id)) as [->|Hne]; [|eauto].
    destruct (Hdirect o Hach) as [_ Hpre]. apply Hflag in Hpre. done.
Qed.

Lemma mark_goals_preferred_effect h state :
  ensures (preferred_effect h) (fun _ => True) (mark_goals h state).
Proof.
  unfold mark_goals.
  eapply ensures_weaken with
    (P := fun hm => evolves state h hm /\ preferred_effect h hm); [| by intros ? [] | done].
  apply for_each_inv; [split; [apply evolves_refl | apply preferred_effect_refl] |].
  intros g h1 _ [Hev Hpe].
  eapply ensures_weaken;
    [apply ensures_conj; [apply mark_effect | apply mark_preferred_effect] | | done].
  intros h2 [(Hev2 & Hce2 & _) Hpe2]. cbv beta.
  split; [eauto using evolves_trans | by eapply preferred_effect_trans].
Qed.

(** X17.  The operators an evaluation makes preferred: when no goal fact is
    unreached, an evaluation that returns leaves as preferred the operators
    that were preferred before, and exactly those operators that own the
    first achiever of a proposition marked by the backward chains and whose
    achiever has only preconditions without achiever (facts of the evaluated
    state). *)
Theorem preferred_operators_achieve_directly :
  forall (h : FFHeuristic) (state : State) (hf : FFHeuristic) (v : Z),
    (compute_add_and_ff h state).2 <> DEAD_END ->
    compute_heuristic h state = Done (hf, v) ->
    forall o, o ∈ preferred_operators hf <->
              o ∈ preferred_operators h \/
              exists p, marked_at (propositions hf) p /\ achieved_directly hf p o.
Proof.
  intros h state hf v Halive Hres o.
  destruct (compute_heuristic_Done _ _ _ _ Hres) as [[? _] | (hm & st & Hm & Ht & ->)];
    [done |].
  set (h1 := (compute_add_and_ff h state).1) in *.
  pose proof (mark_goals_effect h1 state) as Hge. rewrite Hm in Hge.
  destruct Hge as (Hev & Hce & _).
  pose proof (mark_goals_preferred_effect h1 state) as Hpe. rewrite Hm in Hpe.
  destruct Hpe as [Hnew Hall].
  pose proof (tally_plan_keeps hm) as Hk. rewrite Ht in Hk.
  destruct Hk as (Hpref & Hprops & Htask).
  assert (Hclear : forall p, ~ marked_at (propositions h1) p).
  { intros p (nd & Hnd & Hmk).
    pose proof (explore_clear (unary_operators h) [] ∅
                  (state_props (ff_task h) state) (num_propositions (ff_task h))) as Hc.
    unfold marks_clear in Hc. rewrite Forall_lookup in Hc.
    specialize (Hc p nd Hnd). congruence. }
  assert (Hsame : forall p, achieved_directly st.1.1 p o <-> achieved_directly h1 p o).
  { intros p. symmetry. apply achieved_directly_same.
    - rewrite Htask. apply (ev_task _ _ _ Hev).
    - rewrite Hprops. apply (ev_props _ _ _ Hev). }
  rewrite Hpref, Hprops. change (preferred_operators h) with (preferred_operators h1).
  split.
  - intros Ho. destruct (Hnew o Ho) as [?|(p & _ & Hmp & Hach)]; [by left |].
    right. exists p. split; [done |]. by apply Hsame.
  - intros [Ho | (p & Hmp & Hach)].
    + by apply (ce_pref_kept _ _ Hce).
    + apply (Hall p); [apply Hclear | done | by apply Hsame].
Qed.

Lemma preferred_operators_achieve_directly_witness :
  (compute_add_and_ff gripper_structural [0; 0]).2 <> DEAD_END /\
  exists hf v,
    compute_heuristic gripper_structural [0; 0] = Done (hf, v) /\
    preferred_operators hf = [0] /\
    (0 ∈ preferred_operators hf <->
     0 ∈ preferred_operators gripper_structural \/
     exists p, marked_at (propositions hf) p /\ achieved_directly hf p 0) /\
    (1 ∈ preferred_operators hf <->
     1 ∈ preferred_operators gripper_structural \/
     exists p, marked_at (propositions hf) p /\ achieved_directly hf p 1).
Proof.
  assert (Halive : (compute_add_and_ff gripper_structural [0; 0]).2 <> DEAD_END)
    by (vm_compute; discriminate).
  split; [exact Halive |].
  eexists _, _. split; [vm_compute; reflexivity |]. split; [reflexivity |].
  split.
  - eapply (preferred_operators_achieve_directly gripper_structural [0; 0] _ _ Halive).
    vm_compute. reflexivity.
  - eapply (preferred_operators_achieve_directly gripper_structural [0; 0] _ _ Halive).
    vm_compute. reflexivity.
Defined.

(** ** The relaxed plan as a backward closure *)

Lemma needed_same h h' starts p :
  ff_task h' = ff_task h -> Forall2 same_node (propositions h) (propositions h') ->
  needed h' starts p -> needed h starts p.
Proof.
  intros Ht Hps. induction 1 as [g Hg | p nd' r q _ IH Hnd' Hpos Hr Hq].
  - by apply needed_start.
  - destruct (Forall2_lookup_r _ _ _ _ _ Hps Hnd') as (nd & Hnd & (_ & Hrb & _)).
    apply (needed_pre h starts p nd r q); try done.
    + by rewrite <- Hrb.
    + unfold unary_operators in *. by rewrite <- Hrb, <- Ht.
Qed.

Lemma needed_from h starts starts' p :
  (forall g, g ∈ starts -> needed h starts' g) ->
  needed h starts p -> needed h starts' p.
Proof.
  intros Hsub. induction 1 as [g Hg | p nd r q _ IH Hnd Hpos Hr Hq]; [auto |].
  by apply (needed_pre h starts' p nd r q).
Qed.

(** A chain marks only what it needs. *)
Lemma mark_only_needed state :
  forall fuel h goal_id,
    ensures (fun h' => forall p, ~ marked_at (propositions h) p ->
                                 marked_at (propositions h') p ->
                                 needed h [goal_id] p)
            (fun _ => True)
            (mark_preferred_operators_and_relaxed_plan fuel h state goal_id).
Proof.
  induction fuel as [|fuel IH]; intros h goal_id; [done |].
  rewrite mark_unfold.
  eapply ensures_bind; [by apply ensures_at_index |].
  intros goal Hgoal. cbv beta in *.
  destruct (marked goal) eqn:Hm; [by intros p Hun Hmk |].
  cbv zeta.
  set (h0 := set_marked h goal_id).
  assert (Hev0 : evolves state h h0) by apply set_marked_evolves.
  assert (Hstart : needed h [goal_id] goal_id).
  { apply needed_start. by left. }
  assert (Hother : forall p, p <> goal_id -> marked_at (propositions h0) p ->
                             marked_at (propositions h) p).
  { intros p Hne (nd & Hnd & Hmnd). unfold h0, set_marked in Hnd.
    cbn [propositions with_propositions] in Hnd.
    rewrite list_lookup_alter_ne in Hnd by done. by exists nd. }
  assert (Hlift : forall h1 : FFHeuristic,
            (forall p, ~ marked_at (propositions h0) p -> marked_at (propositions h1) p ->
                       needed h [goal_id] p) ->
            forall p, ~ marked_at (propositions h) p -> marked_at (propositions h1) p ->
                      needed h [goal_id] p).
  { intros h1 H1 p Hun Hmk. destruct (decide (p = goal_id)) as [->|Hne]; [done |].
    apply H1; [|done]. intros H0. by apply Hun, Hother. }
  destruct (Z.eqb_spec (reached_by goal) NO_OP) as [Hno|Hrb].
  { cbn [ensures]. apply Hlift. by intros p Hun Hmk. }
  eapply ensures_bind; [by apply ensures_at_index_Z |].
  intros unary_op [Hpos Hrule]. cbv beta in *.
  change (unary_operators h0) with (unary_operators h) in Hrule.
  eapply ensures_weaken with
    (P := fun h' => forall p, ~ marked_at (propositions h0) p ->
                              marked_at (propositions h') p -> needed h [goal_id] p);
    [| exact Hlift | done].
  eapply ensures_bind with
    (P := fun st : FFHeuristic * bool =>
            evolves state h0 st.1 /\
            forall p, ~ marked_at (propositions h0) p -> marked_at (propositions st.1) p ->
                      needed h [goal_id] p).
  { apply for_each_inv; [split; [apply evolves_refl | by intros p Hun Hmk] |].
    intros precond [h1 pref] Hpre [Hev1 Hneed1]. cbn [fst] in *.
    eapply ensures_bind;
      [apply ensures_conj; [apply mark_effect | apply IH] |].
    intros h2 ((Hev2 & _ & _) & Hneed2). cbv beta in *.
    eapply ensures_bind; [by apply ensures_at_index |].
    intros p' _. cbn [ensures fst].
    split; [eauto using evolves_trans |].
    intros p Hun Hmk. destruct (marked_at_dec (propositions h1) p) as [H1|H1]; [auto |].
    assert (Hev01 : evolves state h h1) by eauto using evolves_trans.
    eapply needed_from; [| eapply (needed_same h h1);
      [apply (ev_task _ _ _ Hev01) | apply (ev_props _ _ _ Hev01) | by apply Hneed2]].
    intros g Hg. apply list_elem_of_singleton in Hg as ->.
    by apply (needed_pre h [goal_id] goal_id goal unary_op precond). }
  intros [h1 pref] [Hev1 Hneed1]. cbn [fst] in *.
  destruct (Z.eqb_spec (uo_operator_no unary_op) (-1)) as [Hax|Hax]; [done |].
  eapply ensures_bind; [by apply ensures_at_index_Z |].
  intros b _. cbv beta zeta in *.
  destruct pref; [|done].
  eapply ensures_bind; [by apply ensures_at_index_Z |].
  intros op _. cbv beta in *.
  destruct (is_applicable op state); [|done].
  cbn [ensures]. unfold set_preferred. by case_bool_decide.
Qed.

Lemma mark_goals_only_needed h state :
  ensures (fun hm => forall p, ~ marked_at (propositions h) p ->
                               marked_at (propositions hm) p ->
                               needed h (goal_propositions h) p)
          (fun _ => True) (mark_goals h state).
Proof.
  unfold mark_goals.
  eapply ensures_weaken with
    (P := fun hm => evolves state h hm /\
                    forall p, ~ marked_at (propositions h) p ->
                              marked_at (propositions hm) p ->
                              needed h (goal_propositions h) p);
    [| by intros ? [] | done].
  apply for_each_inv; [split; [apply evolves_refl | by intros p Hun Hmk] |].
  intros g h1 Hg [Hev Hneed].
  eapply ensures_weaken;
    [apply ensures_conj; [apply mark_effect | apply mark_only_needed] | | done].
  intros h2 [(Hev2 & _ & _) Hneed2]. cbv beta.
  split; [eauto using evolves_trans |].
  intros p Hun Hmk. destruct (marked_at_dec (propositions h1) p) as [H1|H1]; [auto |].
  eapply needed_from; [| eapply (needed_same h h1);
    [apply (ev_task _ _ _ Hev) | apply (ev_props _ _ _ Hev) | by apply Hneed2]].
  intros g' Hg'. apply list_elem_of_singleton in Hg' as ->. by apply needed_start.
Qed.

(** X18.  The relaxed plan is the backward closure of the goals: when no
    goal fact is unreached and the relaxed-plan array is cleared on entry, an
    evaluation that returns has marked exactly the propositions needed from
    the goals (the goals, and the preconditions of the first achiever of each
    needed proposition), and its relaxed plan holds exactly the operators
    that own the first achiever of a needed proposition. *)
Theorem relaxed_plan_is_backward_closure :
  forall (h : FFHeuristic) (state : State) (hf : FFHeuristic) (v : Z),
    Forall (fun b => b = false) (relaxed_plan h) ->
    (compute_add_and_ff h state).2 <> DEAD_END ->
    compute_heuristic h state = Done (hf, v) ->
    (forall p, marked_at (propositions hf) p <->
               needed (compute_add_and_ff h state).1 (goal_propositions h) p) /\
    (forall o, o ∈ relaxed_plan_of h state <->
               exists p, needed (compute_add_and_ff h state).1 (goal_propositions h) p /\
                         achieved_by (compute_add_and_ff h state).1 p o).
Proof.
  intros h state hf v Hfalse Halive Hres.
  destruct (compute_heuristic_Done _ _ _ _ Hres) as [[? _] | (hm & st & Hm & Ht & ->)];
    [done |].
  set (h1 := (compute_add_and_ff h state).1) in *.
  pose proof (mark_goals_effect h1 state) as Hge. rewrite Hm in Hge.
  destruct Hge as (Hev & [_ Hflag _ _] & Hgoals).
  pose proof (mark_goals_only_needed h1 state) as Hneed. rewrite Hm in Hneed.
  cbn [ensures] in Hneed.
  pose proof (tally_plan_keeps hm) as Hk. rewrite Ht in Hk.
  destruct Hk as (_ & Hprops & _).
  assert (Hclear : forall p, ~ marked_at (propositions h1) p).
  { intros p (nd & Hnd & Hmk).
    pose proof (explore_clear (unary_operators h) [] ∅
                  (state_props (ff_task h) state) (num_propositions (ff_task h))) as Hc.
    unfold marks_clear in Hc. rewrite Forall_lookup in Hc.
    specialize (Hc p nd Hnd). congruence. }
  pose proof (mark_goals_closes h1 state
                (marks_clear_closed [] h1
                   (explore_clear (unary_operators h) [] ∅
                      (state_props (ff_task h) state) (num_propositions (ff_task h)))))
    as Hcl.
  rewrite Hm in Hcl. cbn [ensures] in Hcl.
  change (goal_propositions h) with (goal_propositions h1).
  assert (Hmarked : forall p, needed h1 (goal_propositions h1) p ->
                              marked_at (propositions hm) p).
  { induction 1 as [g Hg | p nd r q _ IH Hnd Hpos Hr Hq]; [auto |].
    destruct IH as (nd' & Hnd' & Hmk).
    destruct (Forall2_lookup_l _ _ _ _ _ (ev_props _ _ _ Hev) Hnd)
      as (nd'' & Hnd'' & (_ & Hrb & _)).
    assert (nd'' = nd') as -> by congruence.
    destruct (Hcl p ltac:(apply not_elem_of_nil) nd' Hnd' Hmk)
      as [Hno | (r' & _ & Hr' & Hpre & _)].
    { rewrite Hrb in Hno. unfold NO_OP in Hno. lia. }
    rewrite Hrb in Hr'. unfold unary_operators in *.
    rewrite (ev_task _ _ _ Hev) in Hr'.
    assert (r' = r) as -> by congruence. auto. }
  split.
  - intros p. rewrite Hprops. split; [|auto].
    intros Hmk. by apply Hneed.
  - intros o. unfold relaxed_plan_of. fold h1. rewrite Hm, <- flagged_plan_ops. split.
    + intros Ho. destruct (Hflag o Ho) as [Hold | (p & _ & Hmk & Hach)].
      * exfalso. unfold flagged in Hold.
        change (relaxed_plan h1) with (relaxed_plan h) in Hold.
        rewrite Forall_lookup in Hfalse. by specialize (Hfalse _ _ Hold).
      * exists p. split; [|done]. by apply Hneed.
    + intros (p & Hp & (nd & r & Hnd & Hpos & Hr & Ho)).
      destruct (Hmarked p Hp) as (nd' & Hnd' & Hmk).
      destruct (Forall2_lookup_l _ _ _ _ _ (ev_props _ _ _ Hev) Hnd)
        as (nd'' & Hnd'' & (_ & Hrb & _)).
      assert (nd'' = nd') as -> by congruence.
      destruct (Hcl p ltac:(apply not_elem_of_nil) nd' Hnd' Hmk)
        as [Hno | (r' & _ & Hr' & _ & Hown)].
      { rewrite Hrb in Hno. unfold NO_OP in Hno. lia. }
      rewrite Hrb in Hr'. unfold unary_operators in *.
      rewrite (ev_task _ _ _ Hev) in Hr'.
      assert (r' = r) as -> by congruence.
      destruct Hown as [_ Hf]; [lia |]. by rewrite Ho, Nat2Z.id in Hf.
Qed.

Lemma relaxed_plan_is_backward_closure_witness :
  (Forall (fun b => b = false) (relaxed_plan gripper_structural) /\
   (compute_add_and_ff gripper_structural [0; 0]).2 <> DEAD_END) /\
  exists hf v,
    compute_heuristic gripper_structural [0; 0] = Done (hf, v) /\
    map marked (propositions hf) = [true; true; false; true] /\
    relaxed_plan_of gripper_structural [0; 0] = [0; 1] /\
    (forall p, marked_at (propositions hf) p <->
               needed (compute_add_and_ff gripper_structural [0; 0]).1
                      (goal_propositions gripper_structural) p) /\
    (forall o, o ∈ relaxed_plan_of gripper_structural [0; 0] <->
               exists p, needed (compute_add_and_ff gripper_structural [0; 0]).1
                                (goal_propositions gripper_structural) p /\
                         achieved_by (compute_add_and_ff gripper_structural [0; 0]).1 p o).
Proof.
  assert (Hfalse : Forall (fun b => b = false) (relaxed_plan gripper_structural))
    by (by repeat constructor).
  assert (Halive : (compute_add_and_ff gripper_structural [0; 0]).2 <> DEAD_END)
    by (vm_compute; discriminate).
  split; [by split |].
  eexists _, _. split; [vm_compute; reflexivity |]. split; [reflexivity |].
  split; [vm_compute; reflexivity |].
  eapply (relaxed_plan_is_backward_closure gripper_structural [0; 0] _ _ Hfalse Halive).
  vm_compute. reflexivity.
Defined.

(** ** What the verdicts of the landmark tests mean *)

Lemma backed_derivable rules exf exo seeds ps p :
  backed rules exf exo seeds ps p ->
  derivable rules seeds (fun o => o ∉ exo) p.
Proof.
  induction 1 as [p nd Hnd Hc Hrb Hal Hseed
                 | p nd i r Hnd Hc Hrb Hal Hr Heff Hen Hpre IH].
  - by apply derivable_seed.
  - apply (derivable_rule _ _ _ p r); [| done | | done].
    + apply list_elem_of_lookup. eauto.
    + unfold rule_enabled in Hen. by apply negb_true_iff, bool_decide_eq_false in Hen.
Qed.

Lemma backed_allowed rules exf exo seeds ps p :
  backed rules exf exo seeds ps p -> p ∉ exf.
Proof.
  intros Hb.
  assert (Hal : prop_allowed exf p = true) by (by destruct Hb).
  unfold prop_allowed in Hal. by apply negb_true_iff, bool_decide_eq_false in Hal.
Qed.

(** In a table that an exploration of the task has filled from scratch, a
    fact has a level other than [INT_MAX] only if the exploration backs it. *)
Lemma run_level_backed task exploration exf exo f :
  ex_task exploration = task -> fact_in_range task f ->
  let run := compute_reachability_with_excludes exploration
               (resize_lvl_var task []) exf exo in
  level_of run.2 f <> Some INT_MAX ->
  backed (build_unary_operators task) (map (get_prop_id task) exf) exo
         (state_props task (task_initial_state task))
         (ex_props run.1) (get_prop_id task f).
Proof.
  intros Hex Hf run Hlvl.
  destruct (run_levels task exploration [] exf exo f Hf) as (old & Hold & Hrun).
  rewrite (level_of_fresh task f Hf) in Hold. injection Hold as <-.
  fold run in Hrun. rewrite Hrun, Hex in Hlvl.
  assert (Hprops : ex_props run.1
            = explore (build_unary_operators task) (map (get_prop_id task) exf) exo
                (num_propositions task) (state_props task (task_initial_state task))).
  { unfold run, compute_reachability_with_excludes. cbn [fst ex_props]. by rewrite Hex. }
  rewrite Hprops in *. apply explore_backed.
  destruct (explore _ _ _ _ _ !! get_prop_id task f) as [nd|] eqn:Hnd; [|done].
  exists nd. split; [done |]. simpl in Hlvl. destruct (cost nd); [by eexists | done].
Qed.

Lemma run_level_excluded task exploration exf exo f :
  ex_task exploration = task -> fact_in_range task f -> f ∈ exf ->
  level_of (compute_reachability_with_excludes exploration
              (resize_lvl_var task []) exf exo).2 f = Some INT_MAX.
Proof.
  intros Hex Hf Hin.
  destruct (decide (level_of (compute_reachability_with_excludes exploration
              (resize_lvl_var task []) exf exo).2 f = Some INT_MAX)) as [|Hne]; [done |].
  exfalso. eapply backed_allowed; [by apply (run_level_backed task exploration exf exo f) |].
  apply list_elem_of_In, in_map, list_elem_of_In, Hin.
Qed.

(** X12.  The solvability test from an empty level table: the call returns;
    every fact of the excluded landmark keeps the level [INT_MAX]; a landmark
    that holds a goal fact makes the verdict false; and when the verdict is
    true, every goal fact can be derived from the initial state by rules of
    axioms and of operators that do not achieve a landmark fact
    unconditionally. *)
Theorem solvability_test_meaning :
  forall (task : Task) (exploration : Exploration) (exclude : Landmark),
    ex_task exploration = task ->
    Forall (fact_in_range task) (task_goals task) ->
    exists b lvl_var exploration',
      relaxed_task_solvable task exploration [] exclude = Done (b, lvl_var, exploration') /\
      relaxed_task_solvable_3 task exploration exclude = Done (b, exploration') /\
      (forall f, f ∈ facts exclude -> fact_in_range task f ->
                 level_of lvl_var f = Some INT_MAX) /\
      ((exists g, g ∈ task_goals task /\ g ∈ facts exclude) -> b = false) /\
      (b = true ->
       forall g, g ∈ task_goals task ->
         derivable (build_unary_operators task)
           (state_props task (task_initial_state task))
           (fun o => ~ exists id op, o = Z.of_nat id /\
                       task_operators task !! id = Some op /\
                       achieves_non_conditional op exclude = true)
           (get_prop_id task g)).
Proof.
  intros task exploration exclude Hex Hgoals.
  set (ids := insert_op_ids_where (fun op => achieves_non_conditional op exclude)
                (get_operators task)).
  assert (Hrun : exists b,
    relaxed_task_solvable task exploration [] exclude
    = Done (b,
            (compute_reachability_with_excludes exploration
               (resize_lvl_var task []) (facts exclude) ids).2,
            (compute_reachability_with_excludes exploration
               (resize_lvl_var task []) (facts exclude) ids).1) /\
    (b = true <-> forall g, g ∈ task_goals task ->
       level_of (compute_reachability_with_excludes exploration
                   (resize_lvl_var task []) (facts exclude) ids).2 g <> Some INT_MAX)).
  { unfold relaxed_task_solvable. cbv zeta. rewrite app_nil_l. fold ids.
    destruct (first_goal_at_max_spec _ _
                (levels_defined_after_run task exploration [] (facts exclude) ids Hgoals))
      as (hit & Hhit & Hspec).
    destruct (compute_reachability_with_excludes exploration
                (resize_lvl_var task []) (facts exclude) ids)
      as [exploration' lvl_var'] eqn:Hrun.
    cbn [fst snd] in *. rewrite Hhit, bind_Done.
    destruct hit as [g|].
    - exists false. split; [done |]. split; [done |].
      intros Hall. destruct Hspec as [Hg Hmax]. by destruct (Hall g Hg).
    - exists true. split; [done |]. by split. }
  destruct Hrun as (b & Hrun & Hb).
  eexists b, _, _. split; [exact Hrun |]. split; [|split; [|split]].
  - unfold relaxed_task_solvable_3. by rewrite Hrun.
  - intros f Hf Hrange. by apply run_level_excluded.
  - intros (g & Hg & Hin). destruct b; [|done]. exfalso.
    apply (proj1 Hb eq_refl g Hg). apply run_level_excluded; [done | | done].
    rewrite Forall_forall in Hgoals. auto.
  - intros -> g Hg. rewrite Forall_forall in Hgoals.
    eapply derivable_weaken;
      [| eapply backed_derivable, (run_level_backed task exploration (facts exclude) ids g);
         [done | by apply Hgoals | by apply (proj1 Hb eq_refl)]].
    intros o Ho (id & op & -> & Hop & Hach). apply Ho.
    apply insert_op_ids_where_spec. exists id, op.
    split; [by apply elem_of_get_operators | done].
Qed.

Lemma solvability_test_meaning_witness :
  (ex_task (Exploration_new gripper_task) = gripper_task /\
   Forall (fact_in_range gripper_task) (task_goals gripper_task)) /\
  outcome_map fst
    (relaxed_task_solvable_3 gripper_task (Exploration_new gripper_task)
       (simple_landmark (mkFact 1 1))) = Done false /\
  outcome_map fst
    (relaxed_task_solvable_3 gripper_task (Exploration_new gripper_task)
       (simple_landmark (mkFact 1 0))) = Done true /\
  exists b lvl_var exploration',
    relaxed_task_solvable gripper_task (Exploration_new gripper_task) []
      (simple_landmark (mkFact 1 0)) = Done (b, lvl_var, exploration') /\
    relaxed_task_solvable_3 gripper_task (Exploration_new gripper_task)
      (simple_landmark (mkFact 1 0)) = Done (b, exploration') /\
    (forall f, f ∈ facts (simple_landmark (mkFact 1 0)) ->
               fact_in_range gripper_task f ->
               level_of lvl_var f = Some INT_MAX) /\
    ((exists g, g ∈ task_goals gripper_task /\
                g ∈ facts (simple_landmark (mkFact 1 0))) -> b = false) /\
    (b = true ->
     forall g, g ∈ task_goals gripper_task ->
       derivable (build_unary_operators gripper_task)
         (state_props gripper_task (task_initial_state gripper_task))
         (fun o => ~ exists id op, o = Z.of_nat id /\
                     task_operators gripper_task !! id = Some op /\
                     achieves_non_conditional op (simple_landmark (mkFact 1 0)) = true)
         (get_prop_id gripper_task g)).
Proof.
  split; [|split; [|split]].
  - split; [reflexivity | exact gripper_goals_ok].
  - vm_compute. reflexivity.
  - vm_compute. reflexivity.
  - exact (solvability_test_meaning gripper_task (Exploration_new gripper_task)
             (simple_landmark (mkFact 1 0)) eq_refl gripper_goals_ok).
Defined.

(** X13.  The causal test answers "not causal" only with a reason: when it
    returns false, every goal fact can be derived from the initial state by
    rules of axioms and of operators that have no fact of the landmark as a
    precondition. *)
Theorem noncausal_verdict_has_relaxed_plan :
  forall (task : Task) (exploration exploration' : Exploration) (landmark : Landmark),
    ex_task exploration = task ->
    Forall (fact_in_range task) (task_goals task) ->
    is_causal_landmark task exploration landmark = Done (false, exploration') ->
    forall g, g ∈ task_goals task ->
      derivable (build_unary_operators task)
        (state_props task (task_initial_state task))
        (fun o => ~ exists id op, o = Z.of_nat id /\
                    task_operators task !! id = Some op /\
                    exists pre, pre ∈ preconditions op /\ pre ∈ facts landmark)
        (get_prop_id task g).
Proof.
  intros task exploration exploration' landmark Hex Hgoals Hrun g Hg.
  unfold is_causal_landmark in Hrun.
  destruct (conjunctive landmark); [done |].
  destruct (is_true_in_goal landmark); [done |]. cbv zeta in Hrun.
  set (ids := causal_exclude_op_ids task landmark) in *.
  destruct (first_goal_at_max_spec _ _
              (levels_defined_after_run task exploration [] [] ids Hgoals))
    as (hit & Hhit & Hspec).
  pose proof (run_level_backed task exploration [] ids g Hex) as Hback.
  destruct (compute_reachability_with_excludes exploration (resize_lvl_var task []) [] ids)
    as [exploration1 lvl_var1] eqn:Hcomp.
  cbn [fst snd] in *. rewrite Hhit, bind_Done in Hrun.
  destruct hit as [g'|]; [done |].
  rewrite Forall_forall in Hgoals.
  eapply derivable_weaken;
    [| eapply backed_derivable, Hback; [by apply Hgoals | by apply Hspec]].
  intros o Ho (id & op & -> & Hop & Hpre). apply Ho.
  apply insert_op_ids_where_spec. exists id, op.
  split; [by apply elem_of_get_operators |].
  split; [by apply is_landmark_precondition_spec | done].
Qed.

Lemma noncausal_verdict_has_relaxed_plan_witness :
  (ex_task (Exploration_new gripper_task) = gripper_task /\
   Forall (fact_in_range gripper_task) (task_goals gripper_task)) /\
  exists exploration',
    is_causal_landmark gripper_task (Exploration_new gripper_task)
      (simple_landmark (mkFact 1 0)) = Done (false, exploration') /\
    forall g, g ∈ task_goals gripper_task ->
      derivable (build_unary_operators gripper_task)
        (state_props gripper_task (task_initial_state gripper_task))
        (fun o => ~ exists id op, o = Z.of_nat id /\
                    task_operators gripper_task !! id = Some op /\
                    exists pre, pre ∈ preconditions op /\
                                pre ∈ facts (simple_landmark (mkFact 1 0)))
        (get_prop_id gripper_task g).
Proof.
  split; [split; [reflexivity | exact gripper_goals_ok] |].
  eexists. split; [vm_compute; reflexivity |].
  eapply (noncausal_verdict_has_relaxed_plan gripper_task (Exploration_new gripper_task)
            _ (simple_landmark (mkFact 1 0)) eq_refl gripper_goals_ok).
  vm_compute. reflexivity.
Defined.

(** ** Discarding: what is refused, what survives *)

Lemma has_conditional_effects_spec task :
  has_conditional_effects task = true <->
  exists op e, op ∈ task_operators task /\ e ∈ effects op /\ conditions e <> [].
Proof.
  unfold has_conditional_effects. rewrite existsb_exists. split.
  - intros (op & Hop & He). apply existsb_exists in He as (e & He & Hc).
    exists op, e. rewrite <- !list_elem_of_In in *. split; [done |]. split; [done |].
    by apply negb_true_iff, bool_decide_eq_false in Hc.
  - intros (op & e & Hop & He & Hc). exists op. rewrite <- list_elem_of_In.
    split; [done |]. apply existsb_exists. exists e. rewrite <- list_elem_of_In.
    split; [done |]. by apply negb_true_iff, bool_decide_eq_false.
Qed.

Lemma keep_unless_conjunctive task :
  Forall (fact_in_range task) (task_goals task) ->
  forall nodes exploration,
    ex_task exploration = task ->
    (exists node, node ∈ nodes /\ conjunctive (get_landmark node) = true) ->
    keep_unless
      (fun exploration node =>
         '(causal, exploration) ←
           is_causal_landmark task exploration (get_landmark node);
         Done (negb causal, exploration))
      nodes exploration
    = Abort AssertionFailed.
Proof.
  intros Hgoals. induction nodes as [|node nodes IH]; intros exploration Hex (n & Hn & Hc).
  - by apply elem_of_nil in Hn.
  - simpl. destruct (conjunctive (get_landmark node)) eqn:Hnode.
    + unfold is_causal_landmark. by rewrite Hnode.
    + apply elem_of_cons in Hn as [->|Hn]; [congruence |].
      destruct (is_causal_landmark_verdict task exploration (get_landmark node)
                  Hex Hgoals Hnode) as (exploration1 & -> & Hex1).
      rewrite !bind_Done. rewrite (IH exploration1 Hex1); [done |]. by exists n.
Qed.

(** X14.  What [discard_noncausal_landmarks] refuses: a task with a
    conditional effect ends the call at the entry check, whatever the graph
    holds; on a task without conditional effects, a graph with a conjunctive
    landmark ends the call at the assertion of the causal test. *)
Theorem discard_refuses_unsupported_input :
  forall (task : Task) (exploration : Exploration) (lm_graph : LandmarkGraph) (log : Log),
    ((exists op e, op ∈ task_operators task /\ e ∈ effects op /\ conditions e <> []) ->
     discard_noncausal_landmarks task exploration lm_graph log = Abort Unsupported) /\
    ((forall op e, op ∈ task_operators task -> e ∈ effects op -> conditions e = []) ->
     ex_task exploration = task ->
     Forall (fact_in_range task) (task_goals task) ->
     (exists node, node ∈ lg_nodes lm_graph /\ conjunctive (get_landmark node) = true) ->
     discard_noncausal_landmarks task exploration lm_graph log = Abort AssertionFailed).
Proof.
  intros task exploration lm_graph log. split.
  - intros Hcond. apply has_conditional_effects_spec in Hcond.
    unfold discard_noncausal_landmarks. by rewrite Hcond.
  - intros Hnone Hex Hgoals Hconj.
    assert (Hcond : has_conditional_effects task = false).
    { destruct (has_conditional_effects task) eqn:Hc; [|done].
      apply has_conditional_effects_spec in Hc as (op & e & Hop & He & Hne).
      by destruct Hne; apply (Hnone op e). }
    unfold discard_noncausal_landmarks, remove_node_if. rewrite Hcond.
    by rewrite (keep_unless_conjunctive task Hgoals _ _ Hex Hconj).
Qed.

Lemma discard_refuses_unsupported_input_witness :
  discard_noncausal_landmarks
    (mkTask [2] [mkOperator "o" 1 [] [mkEffect [mkFact 0 0] (mkFact 0 1)]] [] [0] [])
    (Exploration_new gripper_task) gripper_graph (mkLog true [])
  = Abort Unsupported /\
  discard_noncausal_landmarks gripper_task (Exploration_new gripper_task)
    (mkGraph [mkNode 0 (simple_landmark (mkFact 0 1));
              mkNode 1 (mkLandmark [mkFact 0 1; mkFact 1 1] false true false false ∅ ∅)]
             [(0, 1)])
    (mkLog true [])
  = Abort AssertionFailed.
Proof.
  split.
  - apply (proj1 (discard_refuses_unsupported_input _ _ _ _)).
    eexists _, _. split; [by left |]. split; [by left | done].
  - apply (proj2 (discard_refuses_unsupported_input _ _ _ _)).
    + intros op e Hop He. apply list_elem_of_In in Hop. simpl in Hop.
      destruct Hop as [<-|[<-|[]]]; apply list_elem_of_In in He; simpl in He;
        destruct He as [<-|[]]; reflexivity.
    + reflexivity.
    + exact gripper_goals_ok.
    + eexists. split; [right; left |]. reflexivity.
Defined.

Lemma causal_verdict_goal task landmark :
  conjunctive landmark = false -> is_true_in_goal landmark = true ->
  causal_verdict task landmark = true.
Proof.
  intros Hc Hg. unfold causal_verdict, is_causal_landmark. by rewrite Hc, Hg.
Qed.

Lemma filter_filter_same {A : Type} (P : A -> Prop) `{forall a, Decision (P a)}
    (l : list A) :
  filter P (filter P l) = filter P l.
Proof.
  induction l as [|a l IH]; [done |]. rewrite filter_cons.
  destruct (decide (P a)) as [Ha|Ha]; [|done].
  rewrite filter_cons. destruct (decide (P a)); [by rewrite IH | done].
Qed.

Lemma discard_result task exploration lm_graph log :
  ex_task exploration = task ->
  has_conditional_effects task = false ->
  Forall (fact_in_range task) (task_goals task) ->
  Forall (fun node => conjunctive (get_landmark node) = false) (lg_nodes lm_graph) ->
  exists exploration',
    ex_task exploration' = task /\
    discard_noncausal_landmarks task exploration lm_graph log
    = Done ({| lg_nodes := filter (fun node => causal_verdict task (get_landmark node) = true)
                                  (lg_nodes lm_graph);
               lg_edges :=
                 filter (fun e =>
                           e.1 ∈ map node_key
                                   (filter (fun node =>
                                              causal_verdict task (get_landmark node) = true)
                                           (lg_nodes lm_graph)) /\
                           e.2 ∈ map node_key
                                   (filter (fun node =>
                                              causal_verdict task (get_landmark node) = true)
                                           (lg_nodes lm_graph)))
                        (lg_edges lm_graph) |},
            exploration',
            if is_at_least_normal log
            then mkLog true
                   (log_lines log ++
                    [DiscardedNonCausal
                       (Z.of_nat (length (lg_nodes lm_graph)) -
                        Z.of_nat (length (filter (fun node =>
                                     causal_verdict task (get_landmark node) = true)
                                   (lg_nodes lm_graph))))])
            else log).
Proof.
  intros Hex Hcond Hgoals Hnodes.
  unfold discard_noncausal_landmarks, remove_node_if. rewrite Hcond.
  destruct (keep_unless_causal task Hgoals (lg_nodes lm_graph) exploration Hex Hnodes)
    as (exploration' & -> & Hex').
  rewrite !bind_Done. exists exploration'. split; [done |]. cbv zeta. f_equal. f_equal.
  unfold get_num_landmarks. cbn [lg_nodes].
  by destruct (is_at_least_normal log) eqn:Hlog.
Qed.

(** X15.  What survives [discard_noncausal_landmarks]: on a task without
    conditional effects and a graph without conjunctive landmarks the call
    returns a graph whose nodes and edges are sublists of the given ones, that
    keeps every landmark that is true in the goal, and whose edges all join
    kept nodes; the exploration object still belongs to the task; and
    discarding once more removes nothing and logs the count 0. *)
Theorem discard_keeps_goal_landmarks_and_settles :
  forall (task : Task) (exploration : Exploration) (lm_graph : LandmarkGraph) (log : Log),
    ex_task exploration = task ->
    has_conditional_effects task = false ->
    Forall (fact_in_range task) (task_goals task) ->
    Forall (fun node => conjunctive (get_landmark node) = false) (lg_nodes lm_graph) ->
    exists lm_graph' exploration' log',
      discard_noncausal_landmarks task exploration lm_graph log
      = Done (lm_graph', exploration', log') /\
      ex_task exploration' = task /\
      sublist (lg_nodes lm_graph') (lg_nodes lm_graph) /\
      sublist (lg_edges lm_graph') (lg_edges lm_graph) /\
      (forall node, node ∈ lg_nodes lm_graph ->
                    is_true_in_goal (get_landmark node) = true ->
                    node ∈ lg_nodes lm_graph') /\
      (forall e, e ∈ lg_edges lm_graph' ->
                 e.1 ∈ map node_key (lg_nodes lm_graph') /\
                 e.2 ∈ map node_key (lg_nodes lm_graph')) /\
      exists exploration'',
        discard_noncausal_landmarks task exploration' lm_graph' log'
        = Done (lm_graph', exploration'',
                if is_at_least_normal log'
                then mkLog true (log_lines log' ++ [DiscardedNonCausal 0])
                else log').
Proof.
  intros task exploration lm_graph log Hex Hcond Hgoals Hnodes.
  destruct (discard_result task exploration lm_graph log Hex Hcond Hgoals Hnodes)
    as (exploration' & Hex' & Hrun).
  eexists _, exploration', _. split; [exact Hrun |]. cbn [lg_nodes lg_edges].
  split; [done |]. split; [apply sublist_filter |]. split; [apply sublist_filter |].
  split; [|split].
  - intros node Hn Hg. apply list_elem_of_filter. split; [|done].
    apply causal_verdict_goal; [|done].
    rewrite Forall_forall in Hnodes. auto.
  - intros e He. by apply list_elem_of_filter in He as [He _].
  - set (kept := filter (fun node => causal_verdict task (get_landmark node) = true)
                        (lg_nodes lm_graph)).
    set (log' := if is_at_least_normal log then _ else log).
    set (lm_graph' := {| lg_nodes := kept; lg_edges := _ |}).
    assert (Hkept : Forall (fun node => conjunctive (get_landmark node) = false)
                           (lg_nodes lm_graph')).
    { apply Forall_forall. intros node Hn. cbn [lm_graph' lg_nodes] in Hn.
      apply list_elem_of_filter in Hn as [_ Hn]. rewrite Forall_forall in Hnodes. auto. }
    destruct (discard_result task exploration' lm_graph' log' Hex' Hcond Hgoals Hkept)
      as (exploration'' & _ & Hrun').
    exists exploration''. rewrite Hrun'. cbn [lm_graph' lg_nodes lg_edges].
    unfold kept. rewrite !filter_filter_same. fold kept.
    rewrite Z.sub_diag. done.
Qed.

Lemma gripper_no_conjunctive :
  Forall (fun node => conjunctive (get_landmark node) = false) (lg_nodes gripper_graph).
Proof. by repeat constructor. Qed.

Lemma discard_keeps_goal_landmarks_and_settles_witness :
  (ex_task (Exploration_new gripper_task) = gripper_task /\
   has_conditional_effects gripper_task = false /\
   Forall (fact_in_range gripper_task) (task_goals gripper_task) /\
   Forall (fun node => conjunctive (get_landmark node) = false) (lg_nodes gripper_graph)) /\
  exists lm_graph' exploration' log',
    discard_noncausal_landmarks gripper_task (Exploration_new gripper_task)
      gripper_graph (mkLog true [])
    = Done (lm_graph', exploration', log') /\
    ex_task exploration' = gripper_task /\
    sublist (lg_nodes lm_graph') (lg_nodes gripper_graph) /\
    sublist (lg_edges lm_graph') (lg_edges gripper_graph) /\
    (forall node, node ∈ lg_nodes gripper_graph ->
                  is_true_in_goal (get_landmark node) = true ->
                  node ∈ lg_nodes lm_graph') /\
    (forall e, e ∈ lg_edges lm_graph' ->
               e.1 ∈ map node_key (lg_nodes lm_graph') /\
               e.2 ∈ map node_key (lg_nodes lm_graph')) /\
    exists exploration'',
      discard_noncausal_landmarks gripper_task exploration' lm_graph' log'
      = Done (lm_graph', exploration'',
              if is_at_least_normal log'
              then mkLog true (log_lines log' ++ [DiscardedNonCausal 0])
              else log').
Proof.
  split.
  - split; [reflexivity |]. split; [reflexivity |]. split; [exact gripper_goals_ok |].
    exact gripper_no_conjunctive.
  - exact (discard_keeps_goal_landmarks_and_settles gripper_task
             (Exploration_new gripper_task) gripper_graph (mkLog true [])
             eq_refl eq_refl gripper_goals_ok gripper_no_conjunctive).
Defined.

(** ** Achievers *)

Section AchieversFacts.
Variable get_operators_including_eff : FactPair -> list Z.
Variable get_operator_or_axiom : Task -> Z -> outcome Operator.
Variable possibly_reaches_lm : Operator -> list (list Z) -> Landmark -> bool.
Variable variable_is_derived : nat -> bool.

Local Abbreviation fact_step :=
  (note_fact get_operators_including_eff variable_is_derived).
Local Abbreviation achiever_step :=
  (note_achiever get_operator_or_axiom possibly_reaches_lm).
Local Abbreviation node_step :=
  (calc_achievers_node get_operators_including_eff get_operator_or_axiom
     possibly_reaches_lm variable_is_derived).
Local Abbreviation run_calc_achievers :=
  (calc_achievers get_operators_including_eff get_operator_or_axiom
     possibly_reaches_lm variable_is_derived).
Local Abbreviation added :=
  (achievers_added get_operators_including_eff get_operator_or_axiom
     possibly_reaches_lm variable_is_derived).

Lemma elem_of_ascending (s : gset Z) (z : Z) : z ∈ ascending s <-> z ∈ s.
Proof. unfold ascending. by rewrite merge_sort_Permutation, elem_of_elements. Qed.

Lemma existsb_snoc {A : Type} (f : A -> bool) (l : list A) (x : A) :
  existsb f (l ++ [x]) = existsb f l || f x.
Proof. rewrite existsb_app. simpl. by rewrite orb_false_r. Qed.

(** The loop over the facts of a landmark. *)
Lemma note_facts_spec task lm fs :
  ensures (fun lm' =>
             facts lm' = facts lm /\ disjunctive lm' = disjunctive lm /\
             conjunctive lm' = conjunctive lm /\
             is_true_in_goal lm' = is_true_in_goal lm /\
             first_achievers lm' = first_achievers lm /\
             is_derived lm'
             = is_derived lm || existsb (fun f => variable_is_derived (var f)) fs /\
             forall z, z ∈ possible_achievers lm' <->
                       z ∈ possible_achievers lm \/
                       exists f, f ∈ fs /\ z ∈ get_operators_including_eff f)
          (fun _ => True)
          (for_each (fact_step task) fs lm).
Proof.
  apply (for_each_prefix _
           (fun pre lm' =>
              facts lm' = facts lm /\ disjunctive lm' = disjunctive lm /\
              conjunctive lm' = conjunctive lm /\
              is_true_in_goal lm' = is_true_in_goal lm /\
              first_achievers lm' = first_achievers lm /\
              is_derived lm'
              = is_derived lm || existsb (fun f => variable_is_derived (var f)) pre /\
              forall z, z ∈ possible_achievers lm' <->
                        z ∈ possible_achievers lm \/
                        exists f, f ∈ pre /\ z ∈ get_operators_including_eff f)
           (fun _ => True) fs []).
  { repeat split; try done.
    - simpl. by rewrite orb_false_r.
    - by left.
    - intros [?|(f & Hf & _)]; [done |]. by apply elem_of_nil in Hf. }
  intros pre f lm1 _ (Hf & Hd & Hc & Hg & Hfa & Hder & Hpos).
  unfold note_fact. cbv zeta.
  eapply ensures_bind; [by apply ensures_at_index |].
  intros d _. cbv beta.
  assert (Hpos' : forall z,
            z ∈ list_to_set (get_operators_including_eff f) ∪ possible_achievers lm1 <->
            z ∈ possible_achievers lm \/
            exists f', f' ∈ pre ++ [f] /\ z ∈ get_operators_including_eff f').
  { intros z. rewrite elem_of_union, elem_of_list_to_set, Hpos. split.
    - intros [Hz | [Hz | (f' & Hf' & Hz)]].
      + right. exists f. split; [|done]. apply elem_of_app. right.
        by apply list_elem_of_singleton.
      + by left.
      + right. exists f'. split; [|done]. apply elem_of_app. by left.
    - intros [Hz | (f' & [Hf' | Hf']%elem_of_app & Hz)].
      + right. by left.
      + right. right. by exists f'.
      + apply list_elem_of_singleton in Hf' as ->. by left. }
  rewrite existsb_snoc, orb_assoc, <- Hder.
  destruct (variable_is_derived (var f)); cbn [ensures];
    cbn [set_is_derived add_possible_achievers facts disjunctive conjunctive
         is_true_in_goal is_derived possible_achievers first_achievers];
    repeat (split; [done |]); split; try done.
  - by rewrite orb_true_r.
  - by rewrite orb_false_r.
Qed.

(** The loop over the possible achievers of a landmark. *)
Lemma note_achievers_spec task lvl_var lm ids :
  ensures (fun lm' =>
             facts lm' = facts lm /\ disjunctive lm' = disjunctive lm /\
             conjunctive lm' = conjunctive lm /\
             is_true_in_goal lm' = is_true_in_goal lm /\
             is_derived lm' = is_derived lm /\
             possible_achievers lm' = possible_achievers lm /\
             (forall z, z ∈ first_achievers lm -> z ∈ first_achievers lm') /\
             forall z, z ∈ first_achievers lm' ->
               z ∈ first_achievers lm \/
               (z ∈ ids /\
                exists op lm2, get_operator_or_axiom task z = Done op /\
                               facts lm2 = facts lm /\
                               possibly_reaches_lm op lvl_var lm2 = true))
          (fun _ => True)
          (for_each (achiever_step task lvl_var) ids lm).
Proof.
  apply for_each_inv.
  { repeat split; try done. by left. }
  intros z lm1 Hz (Hf & Hd & Hc & Hg & Hder & Hpos & Hkept & Hnew).
  unfold note_achiever.
  destruct (get_operator_or_axiom task z) as [op|e] eqn:Hop; [|done].
  rewrite bind_Done.
  destruct (possibly_reaches_lm op lvl_var lm1) eqn:Hreach; cbn [ensures]; [|done].
  cbn [add_first_achiever facts disjunctive conjunctive is_true_in_goal is_derived
       possible_achievers first_achievers].
  repeat (split; [done |]). split.
  - intros z' Hz'. apply elem_of_union. right. auto.
  - intros z' [Hz' | Hz']%elem_of_union; [|auto].
    apply elem_of_singleton in Hz' as ->. right. split; [done |].
    by exists op, lm1.
Qed.

Lemma relaxed_task_solvable_task task exploration lvl_var exclude b lvl_var' exploration' :
  relaxed_task_solvable task exploration lvl_var exclude = Done (b, lvl_var', exploration') ->
  ex_task exploration' = ex_task exploration.
Proof.
  unfold relaxed_task_solvable. cbv zeta.
  pose proof (compute_reachability_task exploration (resize_lvl_var task lvl_var)
                ([] ++ facts exclude)
                (insert_op_ids_where (fun op => achieves_non_conditional op exclude)
                   (get_operators task))) as Ht.
  destruct (compute_reachability_with_excludes _ _ _ _) as [e1 l1]. cbn [fst] in Ht.
  destruct (first_goal_at_max l1 (task_goals task)) as [[g|]|]; simpl; congruence.
Qed.

(** One node of the graph. *)
Lemma calc_achievers_node_spec task handled exploration lm_node :
  ensures (fun st =>
             ex_task st.2 = ex_task exploration /\
             exists lm', st.1 = handled ++ [mkNode (node_key lm_node) lm'] /\
                         added task (get_landmark lm_node) lm')
          (fun _ => True)
          (node_step task (handled, exploration) lm_node).
Proof.
  unfold calc_achievers_node. cbv zeta.
  eapply ensures_bind; [apply (note_facts_spec task _ (facts (get_landmark lm_node))) |].
  intros lm1 (Hf & Hd & Hc & Hg & Hfa & Hder & Hpos). cbv beta.
  destruct (relaxed_task_solvable task exploration [] lm1)
    as [[[b lvl_var] exploration1]|e] eqn:Hrun; [|done].
  rewrite bind_Done.
  eapply ensures_bind; [apply note_achievers_spec |].
  intros lm2 (Hf2 & Hd2 & Hc2 & Hg2 & Hder2 & Hpos2 & Hkept & Hnew). cbn [ensures fst snd].
  split; [by eapply relaxed_task_solvable_task |].
  exists lm2. split; [done |]. split; try congruence.
  - intros z. rewrite Hpos2. apply Hpos.
  - intros z Hz. apply Hkept. by rewrite Hfa.
  - intros z Hz. destruct (Hnew z Hz) as [Hold | (Hin & op & lm3 & Hop & Hf3 & Hreach)].
    + left. by rewrite <- Hfa.
    + right. split; [by rewrite Hpos2; apply elem_of_ascending |].
      exists op, b, lvl_var, exploration, exploration1, lm1, lm3.
      repeat split; try done; congruence.
Qed.

(** X16.  [calc_achievers] runs once: a call on a factory whose achievers are
    calculated stops at the assertion, and a call that returns has set the
    flag, so that the next call stops there.  A call that returns has kept the
    edges of the graph, the keys and the order of its nodes and the task of
    the exploration object, and has changed each landmark only by adding
    achievers as [achievers_added] describes. *)
Theorem calc_achievers_runs_once_and_adds :
  forall (task : Task) (exploration : Exploration) (lm_graph : LandmarkGraph),
    calc_achievers get_operators_including_eff get_operator_or_axiom
      possibly_reaches_lm variable_is_derived task exploration lm_graph true
    = Abort AssertionFailed /\
    forall lm_graph' exploration' flag,
      calc_achievers get_operators_including_eff get_operator_or_axiom
        possibly_reaches_lm variable_is_derived task exploration lm_graph false
      = Done (lm_graph', exploration', flag) ->
      flag = true /\
      calc_achievers get_operators_including_eff get_operator_or_axiom
        possibly_reaches_lm variable_is_derived task exploration' lm_graph' flag
      = Abort AssertionFailed /\
      lg_edges lm_graph' = lg_edges lm_graph /\
      ex_task exploration' = ex_task exploration /\
      Forall2 (fun node node' =>
                 node_key node' = node_key node /\
                 achievers_added get_operators_including_eff get_operator_or_axiom
                   possibly_reaches_lm variable_is_derived task
                   (get_landmark node) (get_landmark node'))
              (lg_nodes lm_graph) (lg_nodes lm_graph').
Proof.
  intros task exploration lm_graph. split; [done |].
  intros lm_graph' exploration' flag. unfold calc_achievers.
  pose proof (for_each_prefix (node_step task)
                (fun pre st =>
                   ex_task st.2 = ex_task exploration /\
                   Forall2 (fun node node' =>
                              node_key node' = node_key node /\
                              added task (get_landmark node) (get_landmark node'))
                           pre st.1)
                (fun _ => True) (lg_nodes lm_graph) [] ([], exploration)) as Hloop.
  destruct (for_each (node_step task) (lg_nodes lm_graph) ([], exploration))
    as [[nodes exploration1]|e]; [|done].
  rewrite bind_Done. intros [= <- <- <-]. cbn [lg_edges lg_nodes].
  split; [done |]. split; [done |]. split; [done |].
  apply Hloop; [by split |].
  intros pre node [handled e1] _ [Hex Hall]. cbn [fst snd] in *.
  eapply ensures_weaken; [apply calc_achievers_node_spec | | done].
  intros [handled' e2] (Hex2 & lm' & -> & Hadded). cbn [fst snd] in *.
  split; [congruence |]. apply Forall2_app; [done |].
  constructor; [by split | constructor].
Qed.
End AchieversFacts.

Lemma calc_achievers_runs_once_and_adds_witness :
  outcome_map
    (fun r : LandmarkGraph * Exploration * bool =>
       map (fun n => (elements (possible_achievers (get_landmark n)),
                      elements (first_achievers (get_landmark n)),
                      is_derived (get_landmark n)))
           (lg_nodes r.1.1))
    (calc_achievers
       (fun f => if bool_decide (f = mkFact 1 1) then [1%Z]
                 else if bool_decide (f = mkFact 0 1) then [0%Z] else [])
       (fun task id => at_index_Z (task_operators task) id)
       (fun op lvl_var lm => bool_decide (level_of lvl_var (mkFact 0 1) = Some 1%Z))
       (fun v => bool_decide (v = 1))
       gripper_task (Exploration_new gripper_task) gripper_graph false)
  = Done [([0%Z], [], false); ([], [], true); ([1%Z], [1%Z], true)] /\
  match calc_achievers
          (fun f => if bool_decide (f = mkFact 1 1) then [1%Z]
                    else if bool_decide (f = mkFact 0 1) then [0%Z] else [])
          (fun task id => at_index_Z (task_operators task) id)
          (fun op lvl_var lm => bool_decide (level_of lvl_var (mkFact 0 1) = Some 1%Z))
          (fun v => bool_decide (v = 1))
          gripper_task (Exploration_new gripper_task) gripper_graph false
  with
  | Done (lm_graph', exploration', flag) =>
      flag = true /\
      calc_achievers
        (fun f => if bool_decide (f = mkFact 1 1) then [1%Z]
                  else if bool_decide (f = mkFact 0 1) then [0%Z] else [])
        (fun task id => at_index_Z (task_operators task) id)
        (fun op lvl_var lm => bool_decide (level_of lvl_var (mkFact 0 1) = Some 1%Z))
        (fun v => bool_decide (v = 1))
        gripper_task exploration' lm_graph' flag = Abort AssertionFailed
  | Abort _ => False
  end.
Proof.
  split; [vm_compute; reflexivity |].
  pose proof (proj2 (calc_achievers_runs_once_and_adds
                (fun f => if bool_decide (f = mkFact 1 1) then [1%Z]
                          else if bool_decide (f = mkFact 0 1) then [0%Z] else [])
                (fun task id => at_index_Z (task_operators task) id)
                (fun op lvl_var lm =>
                   bool_decide (level_of lvl_var (mkFact 0 1) = Some 1%Z))
                (fun v => bool_decide (v = 1))
                gripper_task (Exploration_new gripper_task) gripper_graph)) as H.
  destruct (calc_achievers _ _ _ _ gripper_task (Exploration_new gripper_task)
              gripper_graph false) as [[[lm_graph' exploration'] flag]|e] eqn:Hrun.
  - destruct (H _ _ _ eq_refl) as (Hflag & Hagain & _). by split.
  - vm_compute in Hrun. discriminate Hrun.
Defined.

(** ** Dead ends and verdicts are exact *)

Lemma build_unary_operators_nodup task :
  Forall (fun r => NoDup (uo_preconditions r)) (build_unary_operators task).
Proof.
  apply Forall_forall. intros r.
  unfold build_unary_operators. intros [Hr | Hr]%elem_of_app.
  - apply elem_of_concat in Hr as (l & Hl & Hr).
    apply elem_of_lookup_imap in Hl as (o & op & -> & Hop).
    apply list_elem_of_fmap in Hr as (e & -> & He). apply NoDup_remove_dups.
  - apply elem_of_concat in Hr as (l & Hl & Hr).
    apply list_elem_of_fmap in Hl as (a & -> & Ha).
    apply list_elem_of_fmap in Hr as (e & -> & He). apply NoDup_remove_dups.
Qed.

Lemma stuck_task_ok : task_ok stuck_task.
Proof.
  split.
  - repeat constructor; solve_fact_range.
  - constructor.
  - solve_state_range.
  - repeat constructor; solve_fact_range.
Qed.

Lemma stuck_state_ok : state_in_range stuck_task [0; 0].
Proof. solve_state_range. Qed.

Lemma stuck_costs_fit : costs_fit stuck_task.
Proof. split; [by repeat constructor | by vm_compute]. Qed.

(** X19.  Dead ends are exact: a state from which some goal proposition
    cannot be reached in the relaxed task (from the facts of the state, by
    the unary rules) is reported as a dead end in either mode; and without
    learned weights, when the operator costs are non-negative and fit into an
    [int] together, a dead end is reported for such states only. *)
Theorem dead_end_iff_relaxed_unsolvable :
  forall (h : FFHeuristic) (state : State),
    task_ok (ff_task h) -> state_in_range (ff_task h) state ->
    length (relaxed_plan h) = length (task_operators (ff_task h)) ->
    costs_fit (ff_task h) ->
    ((exists g, g ∈ goal_propositions h /\
                ~ derivable_within (unary_operators h) [] ∅
                    (state_props (ff_task h) state)
                    (num_propositions (ff_task h)) g) ->
     estimate (compute_heuristic h state) = Done DEAD_END) /\
    (use_learned_weights h = false ->
     estimate (compute_heuristic h state) = Done DEAD_END ->
     exists g, g ∈ goal_propositions h /\
               ~ derivable_within (unary_operators h) [] ∅
                   (state_props (ff_task h) state)
                   (num_propositions (ff_task h)) g).
Proof.
  intros h state Hok Hst Hlen Hfit.
  assert (Hexact : forall g,
            reached (propositions (compute_add_and_ff h state).1) g <->
            derivable_within (unary_operators h) [] ∅ (state_props (ff_task h) state)
              (num_propositions (ff_task h)) g).
  { intros g. apply explore_exact, build_unary_operators_nodup. }
  split.
  - intros (g & Hg & Hun). apply (unreached_goal_is_dead_end h state g Hg).
    by rewrite Hexact.
  - intros Hoff Hdead.
    destruct (structural_estimate_sound h state Hok Hst Hlen Hoff Hfit) as [_ Hiff].
    destruct (proj1 Hiff Hdead) as (g & Hg & Hun).
    exists g. split; [done |]. by rewrite <- Hexact.
Qed.

Lemma dead_end_iff_relaxed_unsolvable_witness :
  (task_ok stuck_task /\ state_in_range stuck_task [0; 0] /\
   length (relaxed_plan (fresh_heuristic stuck_task false ∅))
   = length (task_operators stuck_task) /\
   costs_fit stuck_task) /\
  estimate (compute_heuristic (fresh_heuristic stuck_task false ∅) [0; 0])
  = Done DEAD_END /\
  exists g, g ∈ goal_propositions (fresh_heuristic stuck_task false ∅) /\
            ~ derivable_within (unary_operators (fresh_heuristic stuck_task false ∅))
                [] ∅ (state_props stuck_task [0; 0]) (num_propositions stuck_task) g.
Proof.
  assert (Hdead : estimate (compute_heuristic (fresh_heuristic stuck_task false ∅) [0; 0])
                  = Done DEAD_END) by (vm_compute; reflexivity).
  split; [|split].
  - split; [exact stuck_task_ok |]. split; [exact stuck_state_ok |].
    split; [reflexivity | exact stuck_costs_fit].
  - exact Hdead.
  - exact (proj2 (dead_end_iff_relaxed_unsolvable (fresh_heuristic stuck_task false ∅)
                    [0; 0] stuck_task_ok stuck_state_ok eq_refl stuck_costs_fit)
             eq_refl Hdead).
Defined.

(** The goal facts that keep the level [INT_MAX] in a fresh table are those
    the run does not reach, unless a goal is reached at the cost
    [INT_MAX]. *)
Lemma run_goal_at_max task exploration exf exo g :
  ex_task exploration = task -> fact_in_range task g ->
  let run := compute_reachability_with_excludes exploration
               (resize_lvl_var task []) exf exo in
  (forall nd, ex_props run.1 !! get_prop_id task g = Some nd -> cost nd <> Some INT_MAX) ->
  level_of run.2 g = Some INT_MAX <->
  ~ derivable_within (build_unary_operators task) (map (get_prop_id task) exf) exo
      (state_props task (task_initial_state task)) (num_propositions task)
      (get_prop_id task g).
Proof.
  intros Hex Hg run Hmax.
  destruct (run_levels task exploration [] exf exo g Hg) as (old & Hold & Hrun).
  rewrite (level_of_fresh task g Hg) in Hold. injection Hold as <-.
  fold run in Hrun. rewrite Hrun, Hex.
  assert (Hprops : ex_props run.1
            = explore (build_unary_operators task) (map (get_prop_id task) exf) exo
                (num_propositions task) (state_props task (task_initial_state task))).
  { unfold run, compute_reachability_with_excludes. cbn [fst ex_props]. by rewrite Hex. }
  rewrite <- (explore_exact _ _ _ _ (build_unary_operators_nodup task)), <- Hprops.
  destruct (ex_props run.1 !! get_prop_id task g) as [nd|] eqn:Hnd; simpl.
  - specialize (Hmax nd eq_refl). destruct (cost nd) as [c|] eqn:Hc; simpl.
    + split; [intros [= ->]; by destruct Hmax |].
      intros Hun. destruct Hun. exists nd. by rewrite Hc.
    + split; [|done]. intros _ (nd' & Hnd' & Hc').
      assert (nd' = nd) as -> by congruence. rewrite Hc in Hc'. by destruct Hc'.
  - split; [|done]. intros _ (nd' & Hnd' & _). congruence.
Qed.

(** A goal fact with a level other than [INT_MAX] in a fresh table is
    reachable in the relaxed task. *)
Lemma run_goal_below_max task exploration exf exo g :
  ex_task exploration = task -> fact_in_range task g ->
  level_of (compute_reachability_with_excludes exploration
              (resize_lvl_var task []) exf exo).2 g <> Some INT_MAX ->
  derivable_within (build_unary_operators task) (map (get_prop_id task) exf) exo
    (state_props task (task_initial_state task)) (num_propositions task)
    (get_prop_id task g).
Proof.
  intros Hex Hg Hlvl.
  pose proof (run_level_backed task exploration exf exo g Hex Hg Hlvl) as Hback.
  apply backed_within.
  unfold compute_reachability_with_excludes in Hback. cbn [fst ex_props] in Hback.
  by rewrite Hex in Hback.
Qed.

(** X20.  The verdict of the causal test is exact: for a landmark that is
    not true in the goal, when no goal fact is reached at the cost [INT_MAX],
    the test returns true exactly when some goal fact cannot be reached in
    the relaxed task from the initial state without the operators that have
    a fact of the landmark as a precondition. *)
Theorem causal_verdict_exact :
  forall (task : Task) (exploration exploration' : Exploration) (landmark : Landmark)
         (b : bool),
    ex_task exploration = task ->
    Forall (fact_in_range task) (task_goals task) ->
    is_true_in_goal landmark = false ->
    is_causal_landmark task exploration landmark = Done (b, exploration') ->
    (forall g nd, g ∈ task_goals task ->
       ex_props exploration' !! get_prop_id task g = Some nd ->
       cost nd <> Some INT_MAX) ->
    b = true <->
    exists g, g ∈ task_goals task /\
              ~ derivable_within (build_unary_operators task) []
                  (causal_exclude_op_ids task landmark)
                  (state_props task (task_initial_state task))
                  (num_propositions task) (get_prop_id task g).
Proof.
  intros task exploration exploration' landmark b Hex Hgoals Hgoal Hrun Hmax.
  unfold is_causal_landmark in Hrun.
  destruct (conjunctive landmark); [done |].
  rewrite Hgoal in Hrun. cbv zeta in Hrun.
  set (ids := causal_exclude_op_ids task landmark) in *.
  destruct (first_goal_at_max_spec _ _
              (levels_defined_after_run task exploration [] [] ids Hgoals))
    as (hit & Hhit & Hspec).
  pose proof (fun g => run_goal_at_max task exploration [] ids g Hex) as Hexact.
  destruct (compute_reachability_with_excludes exploration (resize_lvl_var task []) [] ids)
    as [exploration1 lvl_var1] eqn:Hcomp.
  cbn [fst snd] in *. rewrite Hhit, bind_Done in Hrun.
  rewrite Forall_forall in Hgoals.
  destruct hit as [g|]; injection Hrun as <- <-.
  - split; [intros _ | done]. destruct Hspec as [Hg Hlvl]. exists g. split; [done |].
    apply (Hexact g); [auto | eauto | done].
  - split; [done |]. intros (g & Hg & Hun). destruct (Hspec g Hg).
    apply (Hexact g); [auto | eauto | done].
Qed.

Lemma causal_verdict_exact_witness :
  (ex_task (Exploration_new gripper_task) = gripper_task /\
   Forall (fact_in_range gripper_task) (task_goals gripper_task) /\
   is_true_in_goal (simple_landmark (mkFact 0 1)) = false) /\
  exists exploration',
    is_causal_landmark gripper_task (Exploration_new gripper_task)
      (simple_landmark (mkFact 0 1)) = Done (true, exploration') /\
    (forall g nd, g ∈ task_goals gripper_task ->
       ex_props exploration' !! get_prop_id gripper_task g = Some nd ->
       cost nd <> Some INT_MAX) /\
    (true = true <->
     exists g, g ∈ task_goals gripper_task /\
               ~ derivable_within (build_unary_operators gripper_task) []
                   (causal_exclude_op_ids gripper_task (simple_landmark (mkFact 0 1)))
                   (state_props gripper_task (task_initial_state gripper_task))
                   (num_propositions gripper_task) (get_prop_id gripper_task g)).
Proof.
  split; [split; [reflexivity |]; split; [exact gripper_goals_ok | reflexivity] |].
  set (e' := (compute_reachability_with_excludes (Exploration_new gripper_task)
                (resize_lvl_var gripper_task []) []
                (causal_exclude_op_ids gripper_task (simple_landmark (mkFact 0 1)))).1).
  assert (Hrun : is_causal_landmark gripper_task (Exploration_new gripper_task)
                   (simple_landmark (mkFact 0 1)) = Done (true, e'))
    by (vm_compute; reflexivity).
  assert (Hmax : forall g nd, g ∈ task_goals gripper_task ->
            ex_props e' !! get_prop_id gripper_task g = Some nd ->
            cost nd <> Some INT_MAX).
  { intros g nd Hg Hnd. apply list_elem_of_singleton in Hg as ->.
    vm_compute in Hnd. injection Hnd as <-. discriminate. }
  exists e'. split; [exact Hrun |]. split; [exact Hmax |].
  exact (causal_verdict_exact gripper_task (Exploration_new gripper_task) e'
           (simple_landmark (mkFact 0 1)) true eq_refl gripper_goals_ok eq_refl
           Hrun Hmax).
Defined.

(** X21.  The verdict of the solvability test is exact: started from an
    empty level table, when no goal fact is reached at the cost [INT_MAX],
    the test returns true exactly when every goal fact can be reached in the
    relaxed task from the initial state without the facts of the landmark
    and without the operators that achieve one of them unconditionally. *)
Theorem solvability_verdict_exact :
  forall (task : Task) (exploration exploration' : Exploration) (exclude : Landmark)
         (lvl_var : list (list Z)) (b : bool),
    ex_task exploration = task ->
    Forall (fact_in_range task) (task_goals task) ->
    relaxed_task_solvable task exploration [] exclude = Done (b, lvl_var, exploration') ->
    (forall g nd, g ∈ task_goals task ->
       ex_props exploration' !! get_prop_id task g = Some nd ->
       cost nd <> Some INT_MAX) ->
    b = true <->
    forall g, g ∈ task_goals task ->
      derivable_within (build_unary_operators task)
        (map (get_prop_id task) (facts exclude))
        (insert_op_ids_where (fun op => achieves_non_conditional op exclude)
           (get_operators task))
        (state_props task (task_initial_state task))
        (num_propositions task) (get_prop_id task g).
Proof.
  intros task exploration exploration' exclude lvl_var b Hex Hgoals Hrun Hmax.
  unfold relaxed_task_solvable in Hrun. cbv zeta in Hrun. rewrite app_nil_l in Hrun.
  set (ids := insert_op_ids_where (fun op => achieves_non_conditional op exclude)
                (get_operators task)) in *.
  destruct (first_goal_at_max_spec _ _
              (levels_defined_after_run task exploration [] (facts exclude) ids Hgoals))
    as (hit & Hhit & Hspec).
  pose proof (fun g => run_goal_below_max task exploration (facts exclude) ids g Hex)
    as Hbelow.
  pose proof (fun g => run_goal_at_max task exploration (facts exclude) ids g Hex)
    as Hexact.
  destruct (compute_reachability_with_excludes exploration (resize_lvl_var task [])
              (facts exclude) ids)
    as [exploration1 lvl_var1] eqn:Hcomp.
  cbn [fst snd] in *. rewrite Hhit, bind_Done in Hrun.
  rewrite Forall_forall in Hgoals.
  destruct hit as [g|]; injection Hrun as Hb Hl He; subst b lvl_var exploration'.
  - split; [done |]. intros Hall. destruct Hspec as [Hg Hlvl].
    exfalso. apply (Hexact g) in Hlvl; [| auto | eauto]. by apply Hlvl, Hall.
  - split; [intros _ | done]. intros g Hg. apply Hbelow; auto.
Qed.

Lemma solvability_verdict_exact_witness :
  (ex_task (Exploration_new gripper_task) = gripper_task /\
   Forall (fact_in_range gripper_task) (task_goals gripper_task)) /\
  exists lvl_var exploration',
    relaxed_task_solvable gripper_task (Exploration_new gripper_task) []
      (simple_landmark (mkFact 1 0)) = Done (true, lvl_var, exploration') /\
    (forall g nd, g ∈ task_goals gripper_task ->
       ex_props exploration' !! get_prop_id gripper_task g = Some nd ->
       cost nd <> Some INT_MAX) /\
    (true = true <->
     forall g, g ∈ task_goals gripper_task ->
       derivable_within (build_unary_operators gripper_task)
         (map (get_prop_id gripper_task) (facts (simple_landmark (mkFact 1 0))))
         (insert_op_ids_where
            (fun op => achieves_non_conditional op (simple_landmark (mkFact 1 0)))
            (get_operators gripper_task))
         (state_props gripper_task (task_initial_state gripper_task))
         (num_propositions gripper_task) (get_prop_id gripper_task g)).
Proof.
  split; [split; [reflexivity | exact gripper_goals_ok] |].
  set (run := compute_reachability_with_excludes (Exploration_new gripper_task)
                (resize_lvl_var gripper_task [])
                (facts (simple_landmark (mkFact 1 0)))
                (insert_op_ids_where
                   (fun op => achieves_non_conditional op (simple_landmark (mkFact 1 0)))
                   (get_operators gripper_task))).
  assert (Hrun : relaxed_task_solvable gripper_task (Exploration_new gripper_task) []
                   (simple_landmark (mkFact 1 0)) = Done (true, run.2, run.1))
    by (vm_compute; reflexivity).
  assert (Hmax : forall g nd, g ∈ task_goals gripper_task ->
            ex_props run.1 !! get_prop_id gripper_task g = Some nd ->
            cost nd <> Some INT_MAX).
  { intros g nd Hg Hnd. apply list_elem_of_singleton in Hg as ->.
    vm_compute in Hnd. injection Hnd as <-. discriminate. }
  exists run.2, run.1. split; [exact Hrun |]. split; [exact Hmax |].
  exact (solvability_verdict_exact gripper_task (Exploration_new gripper_task) run.1
           (simple_landmark (mkFact 1 0)) run.2 true eq_refl gripper_goals_ok
           Hrun Hmax).
Defined.
